(** * decimate_beetle: the Blender decimation script, verified

    A shallow embedding of [scripts/decimate_beetle.py].  The script is a
    straight-line driver of a host application (Blender's [bpy] interface
    and the operating system): it resolves two paths, resets the scene,
    imports a GLB file, decimates every mesh object, exports the result and
    checks that the output file exists.

    The host is not part of the repository.  It is modelled as an oracle:
    every host call either raises or replies, and the script is a program in
    a free monad over those calls.  A run is the trace of the events the
    script produced (host calls with their replies, and printed lines)
    together with the way [main] ended. *)

From Stdlib Require Import ZArith NArith QArith Qabs Qpower Lqa.
From Stdlib Require Import String Ascii List Bool Lia.
From Stdlib Require Import Floats.SpecFloat.
From ExtLib Require Import Structures.Monad.
Import ListNotations MonadNotation.
Local Close Scope Q_scope.
Local Open Scope monad_scope.
Local Open Scope string_scope.
Local Open Scope list_scope.

(** ** Python values the script handles *)

(** Python floats are IEEE 754 binary64 numbers: the Standard Library's
    executable specification, at precision 53 and maximal exponent 1024. *)
Module PyFloat.

Definition prec : Z := 53.
Definition emax : Z := 1024.

Definition float : Type := spec_float.

Definition of_int (n : Z) : float := binary_normalize prec emax n 0 false.

Definition sub (x y : float) : float := SFsub prec emax x y.
Definition mul (x y : float) : float := SFmul prec emax x y.
Definition div (x y : float) : float := SFdiv prec emax x y.

(** A Python int as the operand of a true division: the integer itself,
    with a mantissa of any length. *)
Definition int_operand (n : Z) : float :=
  match n with
  | Z0 => S754_zero false
  | Zpos p => S754_finite false p 0
  | Zneg p => S754_finite true p 0
  end.

(** The literal [0.02]: the binary64 number nearest to 2/100. *)
Definition lit_0_02 : float := S754_finite false 5764607523034235 (-58).

End PyFloat.

Definition float : Type := PyFloat.float.

(** Exceptions that can leave [main]: the two the interpreter itself raises
    in an int/int true division, and whatever a host call raises. *)
Definition host_error := string.

Inductive exn : Type :=
| ZeroDivisionError
| OverflowError
| HostError (e : host_error).

(** [a / b] on Python ints: [ZeroDivisionError] for a zero divisor,
    otherwise the correctly rounded quotient, or [OverflowError] when the
    quotient is too large for a float. *)
Definition int_truediv (a b : Z) : exn + float :=
  if (b =? 0)%Z then inl ZeroDivisionError
  else
    match PyFloat.div (PyFloat.int_operand a) (PyFloat.int_operand b) with
    | S754_infinity _ => inl OverflowError
    | q => inr q
    end.

(** ** Host objects *)

(** A scene object, as far as the script looks at it: [obj.name] and
    [obj.type].  Blender keeps object names unique, so the name is the
    object's identity. *)
Record Object : Type := { obj_name : string; obj_type : string }.

(** The handle [obj.modifiers.new] returns. *)
Variant Modifier : Type := modifier_ref (id : N).

(** ** Host calls

    One constructor per operation the script asks of the host.  Attribute
    reads on objects the host has returned ([obj.type] in the mesh filter,
    [obj.name] in the progress line) are part of the [scene_objects] reply,
    which carries both fields of every object. *)

Inductive call : Type :=
| read_factory_settings (use_empty : bool)
| import_scene_gltf (filepath : string)
| scene_objects
| len_vertices (obj : Object)
| set_active (obj : Object)
| select_set (obj : Object) (state : bool)
| modifiers_new (obj : Object) (name type : string)
| set_decimate_type (m : Modifier) (v : string)
| set_ratio (m : Modifier) (v : float)
| set_use_collapse_triangulate (m : Modifier) (v : bool)
| modifier_apply (modifier : string)
| export_scene_gltf (filepath export_format : string)
                    (use_selection export_apply : bool)
| path_exists (path : string)
| path_getsize (path : string).

(** What a call returns.  A count or a size is any natural number here;
    CPython's [len] returns at most [2^63 - 1] and raises beyond, so
    properties about magnitudes state the range they assume. *)
Definition reply (c : call) : Type :=
  match c with
  | scene_objects => list Object
  | len_vertices _ => N
  | modifiers_new _ _ _ => Modifier
  | path_exists _ => bool
  | path_getsize _ => N
  | _ => unit
  end.

(** Replies as they are written in a trace. *)
Inductive value : Type :=
| VNone
| VInt (n : N)
| VBool (b : bool)
| VObjects (l : list Object)
| VModifier (m : Modifier).

Definition to_value (c : call) : reply c -> value :=
  match c with
  | scene_objects => VObjects
  | len_vertices _ => VInt
  | modifiers_new _ _ _ => VModifier
  | path_exists _ => VBool
  | path_getsize _ => VInt
  | _ => fun _ => VNone
  end.

(** ** Printed lines

    One constructor per [print] of the script, carrying the values the
    f-string interpolates. *)
Inductive message : Type :=
| MsgInput (input_file : string)
| MsgOutput (output_file : string)
| MsgTargetRatio (percent : float)
| MsgImporting
| MsgNoMesh
| MsgFound (meshes : nat) (total_verts_before : N)
| MsgProcessing (name : string) (verts : N)
| MsgAfter (verts : N)
| MsgTotal (total_verts_before total_verts_after : N) (reduction : float)
| MsgExporting (output_file : string)
| MsgDone
| MsgFileSize (size_mb : float)
| MsgNotCreated.

(** ** Programs

    [Call c k] is a host call as a plain statement, followed by [k] on its
    result: an exception the host raises in it leaves the program.
    [Try c handler k] is the same call inside [try: ... except Exception
    as e: ...]: the handler runs on the exception, and the program goes on
    from there.  [Print m k] writes a line and goes on: standard output is
    taken to accept every line. *)

Inductive Py (A : Type) : Type :=
| Ret (a : A)
| Raise (e : exn)
| SysExit (code : Z)
| Print (m : message) (k : Py A)
| Call (c : call) (k : reply c -> Py A)
| Try (c : call) (handler : host_error -> Py A) (k : reply c -> Py A).

Arguments Ret {A} a.
Arguments Raise {A} e.
Arguments SysExit {A} code.
Arguments Print {A} m k.
Arguments Call {A} c k.
Arguments Try {A} c handler k.

Fixpoint Py_bind {A B : Type} (p : Py A) (f : A -> Py B) : Py B :=
  match p with
  | Ret a => f a
  | Raise e => Raise e
  | SysExit code => SysExit code
  | Print m k => Print m (Py_bind k f)
  | Call c k => Call c (fun r => Py_bind (k r) f)
  | Try c handler k =>
      Try c (fun e => Py_bind (handler e) f) (fun r => Py_bind (k r) f)
  end.

#[export] Instance Monad_Py : Monad Py :=
  {| ret := @Ret; bind := @Py_bind |}.

Definition call_host (c : call) : Py (reply c) := Call c Ret.
Definition print (m : message) : Py unit := Print m (Ret tt).
Definition sys_exit {A : Type} (code : Z) : Py A := SysExit code.

Definition lift_exn {A : Type} (r : exn + A) : Py A :=
  match r with
  | inl e => Raise e
  | inr a => Ret a
  end.

(** [for x in l: body x] *)
Fixpoint for_each {A : Type} (l : list A) (body : A -> Py unit) : Py unit :=
  match l with
  | [] => ret tt
  | x :: l' => body x ;; for_each l' body
  end.

(** ** Runs *)

Inductive event : Type :=
| EvPrint (m : message)
| EvCall (c : call) (r : host_error + value).

Inductive outcome (A : Type) : Type :=
| Returned (a : A)
| Exited (code : Z)
| Uncaught (e : exn).

Arguments Returned {A} a.
Arguments Exited {A} code.
Arguments Uncaught {A} e.

(** A host: a state and, for every call, either an error or a reply. *)
Record Host : Type := {
  hstate : Type;
  respond : forall c : call, hstate -> (host_error + reply c) * hstate
}.

Fixpoint run {A : Type} (h : Host) (p : Py A) (s : hstate h)
  : list event * outcome A * hstate h :=
  match p with
  | Ret a => ([], Returned a, s)
  | Raise e => ([], Uncaught e, s)
  | SysExit code => ([], Exited code, s)
  | Print m k =>
      let '(t, o, s') := run h k s in (EvPrint m :: t, o, s')
  | Call c k =>
      match respond h c s with
      | (inl e, s') => ([EvCall c (inl e)], Uncaught (HostError e), s')
      | (inr r, s') =>
          let '(t, o, s'') := run h (k r) s' in
          (EvCall c (inr (to_value c r)) :: t, o, s'')
      end
  | Try c handler k =>
      match respond h c s with
      | (inl e, s') =>
          let '(t, o, s'') := run h (handler e) s' in
          (EvCall c (inl e) :: t, o, s'')
      | (inr r, s') =>
          let '(t, o, s'') := run h (k r) s' in
          (EvCall c (inr (to_value c r)) :: t, o, s'')
      end
  end.

(** The process status a run leaves: [main] returning ends the script
    normally, [sys.exit(code)] sets the status; after an uncaught exception
    the status is the host's business. *)
Definition exit_code {A : Type} (o : outcome A) : option Z :=
  match o with
  | Returned _ => Some 0%Z
  | Exited code => Some code
  | Uncaught _ => None
  end.

(** The runs a program can have, over all hosts. *)
Fixpoint exec {A : Type} (p : Py A) (t : list event) (o : outcome A) : Prop :=
  match p with
  | Ret a => t = [] /\ o = Returned a
  | Raise e => t = [] /\ o = Uncaught e
  | SysExit code => t = [] /\ o = Exited code
  | Print m k => exists t', t = EvPrint m :: t' /\ exec k t' o
  | Call c k =>
      (exists e, t = [EvCall c (inl e)] /\ o = Uncaught (HostError e))
      \/ (exists r t', t = EvCall c (inr (to_value c r)) :: t' /\ exec (k r) t' o)
  | Try c handler k =>
      (exists e t', t = EvCall c (inl e) :: t' /\ exec (handler e) t' o)
      \/ (exists r t', t = EvCall c (inr (to_value c r)) :: t' /\ exec (k r) t' o)
  end.

(** ** [os.path]

    The script builds its two paths with [os.path.abspath], [dirname] and
    [join].  Which functions these are depends on the platform, so [main]
    takes them as an interface; [posixpath] below is the POSIX
    implementation. *)
Class OsPath : Type := {
  abspath : string -> string;
  dirname : string -> string;
  join : string -> string -> string
}.

Module Posix.

Definition sep : ascii := "/"%char.

Definition is_sep (c : ascii) : bool := Ascii.eqb c sep.

Definition nonempty (s : string) : bool :=
  match s with
  | EmptyString => false
  | String _ _ => true
  end.

(** [p[:p.rfind('/') + 1]] *)
Fixpoint head_to_last_sep (p : string) : string :=
  match p with
  | EmptyString => EmptyString
  | String c p' =>
      let h := head_to_last_sep p' in
      if is_sep c || nonempty h then String c h else EmptyString
  end.

(** [s == '/' * len(s)] *)
Fixpoint all_sep (s : string) : bool :=
  match s with
  | EmptyString => true
  | String c s' => is_sep c && all_sep s'
  end.

(** [s.rstrip('/')] *)
Fixpoint rstrip_sep (s : string) : string :=
  match s with
  | EmptyString => EmptyString
  | String c s' =>
      let r := rstrip_sep s' in
      if is_sep c && negb (nonempty r) then EmptyString else String c r
  end.

Definition dirname (p : string) : string :=
  let head := head_to_last_sep p in
  if nonempty head && negb (all_sep head) then rstrip_sep head else head.

Definition startswith_sep (s : string) : bool :=
  match s with
  | String c _ => is_sep c
  | EmptyString => false
  end.

Fixpoint endswith_sep (s : string) : bool :=
  match s with
  | EmptyString => false
  | String c EmptyString => is_sep c
  | String _ s' => endswith_sep s'
  end.

Definition join (a b : string) : string :=
  if startswith_sep b then b
  else if negb (nonempty a) || endswith_sep a then (a ++ b)%string
  else (a ++ String sep b)%string.

(** [s.split('/')] *)
Fixpoint split_sep (s : string) : list string :=
  match s with
  | EmptyString => [EmptyString]
  | String c s' =>
      if is_sep c then EmptyString :: split_sep s'
      else
        match split_sep s' with
        | comp :: comps => String c comp :: comps
        | [] => [String c EmptyString]
        end
  end.

(** The component loop of [normpath]; [new_comps] is kept reversed, its
    head being the last component appended. *)
Definition norm_step (initial_slashes : nat) (new_comps : list string)
           (comp : string) : list string :=
  if String.eqb comp "" || String.eqb comp "." then new_comps
  else if negb (String.eqb comp "..")
          || (Nat.eqb initial_slashes 0
              && match new_comps with [] => true | _ => false end)
          || match new_comps with
             | last :: _ => String.eqb last ".."
             | [] => false
             end
       then comp :: new_comps
       else match new_comps with
            | _ :: rest => rest
            | [] => []
            end.

(** ['/'.join(comps)] *)
Fixpoint join_sep (comps : list string) : string :=
  match comps with
  | [] => EmptyString
  | [comp] => comp
  | comp :: comps' => (comp ++ String sep (join_sep comps'))%string
  end.

Definition normpath (path : string) : string :=
  if negb (nonempty path) then "."
  else
    let initial_slashes :=
      if startswith_sep path then
        if String.prefix "//" path && negb (String.prefix "///" path)
        then 2%nat else 1%nat
      else 0%nat in
    let comps := rev (fold_left (norm_step initial_slashes)
                                (split_sep path) []) in
    let path' :=
      (string_of_list_ascii (repeat sep initial_slashes)
         ++ join_sep comps)%string in
    if nonempty path' then path' else ".".

(** [cwd] is what [os.getcwd()] returns. *)
Definition abspath (cwd path : string) : string :=
  normpath (if startswith_sep path then path else join cwd path).

End Posix.

Definition posixpath (cwd : string) : OsPath :=
  {| abspath := Posix.abspath cwd;
     dirname := Posix.dirname;
     join := Posix.join |}.

(** ** The script *)

Definition INPUT_PATH : string := "public/assets/models/beetle_shell.glb".
Definition OUTPUT_PATH : string :=
  "public/assets/models/beetle_shell_optimized.glb".
Definition TARGET_RATIO : float := PyFloat.lit_0_02.

Definition is_mesh (obj : Object) : bool := String.eqb (obj_type obj) "MESH".

(** [sum(len(obj.data.vertices) for obj in mesh_objects)], the running
    total being [acc]. *)
Fixpoint sum_vertices (acc : N) (mesh_objects : list Object) : Py N :=
  match mesh_objects with
  | [] => ret acc
  | obj :: rest =>
      n <- call_host (len_vertices obj) ;;
      sum_vertices (acc + n) rest
  end.

(** The body of the decimation loop. *)
Definition decimate (obj : Object) : Py unit :=
  verts <- call_host (len_vertices obj) ;;
  print (MsgProcessing (obj_name obj) verts) ;;
  call_host (set_active obj) ;;
  call_host (select_set obj true) ;;
  modifier <- call_host (modifiers_new obj "Decimate" "DECIMATE") ;;
  call_host (set_decimate_type modifier "COLLAPSE") ;;
  call_host (set_ratio modifier TARGET_RATIO) ;;
  call_host (set_use_collapse_triangulate modifier true) ;;
  call_host (modifier_apply "Decimate") ;;
  verts' <- call_host (len_vertices obj) ;;
  print (MsgAfter verts') ;;
  call_host (select_set obj false).

Section Script.

Context {os_path : OsPath}.

(** [__file__] is the script's path as the host passed it. *)
Variable file : string.

Definition script_dir : string := dirname (abspath file).
Definition project_root : string := dirname script_dir.
Definition input_file : string := join project_root INPUT_PATH.
Definition output_file : string := join project_root OUTPUT_PATH.

Definition main : Py unit :=
  print (MsgInput input_file) ;;
  print (MsgOutput output_file) ;;
  print (MsgTargetRatio (PyFloat.mul TARGET_RATIO (PyFloat.of_int 100))) ;;
  call_host (read_factory_settings true) ;;
  print MsgImporting ;;
  call_host (import_scene_gltf input_file) ;;
  objects <- call_host scene_objects ;;
  let mesh_objects := filter is_mesh objects in
  match mesh_objects with
  | [] => print MsgNoMesh ;; sys_exit 1
  | _ :: _ => ret tt
  end ;;
  total_verts_before <- sum_vertices 0 mesh_objects ;;
  print (MsgFound (List.length mesh_objects) total_verts_before) ;;
  for_each mesh_objects decimate ;;
  total_verts_after <- sum_vertices 0 mesh_objects ;;
  ratio <- lift_exn (int_truediv (Z.of_N total_verts_after)
                                 (Z.of_N total_verts_before)) ;;
  let reduction :=
    PyFloat.mul (PyFloat.sub (PyFloat.of_int 1) ratio) (PyFloat.of_int 100) in
  print (MsgTotal total_verts_before total_verts_after reduction) ;;
  for_each mesh_objects (fun obj => call_host (select_set obj true)) ;;
  print (MsgExporting output_file) ;;
  call_host (export_scene_gltf output_file "GLB" true true) ;;
  print MsgDone ;;
  created <- call_host (path_exists output_file) ;;
  if (created : bool) then
    size <- call_host (path_getsize output_file) ;;
    size_mb <- lift_exn (int_truediv (Z.of_N size) (1024 * 1024)%Z) ;;
    print (MsgFileSize size_mb)
  else
    print MsgNotCreated ;;
    sys_exit 1.

End Script.

(** * Runs of programs in general *)

Definition ok (c : call) (v : value) : event := EvCall c (inr v).
Definition failed (c : call) (e : host_error) : event := EvCall c (inl e).

Definition is_failure (ev : event) : Prop :=
  match ev with
  | EvCall _ (inl _) => True
  | _ => False
  end.

(** Every run against a host is one of the runs of [exec]. *)
Lemma run_exec {A : Type} (h : Host) (p : Py A) :
  forall s t o s', run h p s = (t, o, s') -> exec p t o.
Proof.
  induction p as [a | e | code | m k IH | c k IH | c hd IHh k IH];
    intros s t o s' H; simpl in H |- *.
  - inversion H; auto.
  - inversion H; auto.
  - inversion H; auto.
  - destruct (run h k s) as [[t1 o1] s1] eqn:E. inversion H; subst.
    exists t1. split; [reflexivity |]. eapply IH; eauto.
  - destruct (respond h c s) as [[e | r] s1].
    + inversion H; subst. left. exists e. auto.
    + destruct (run h (k r) s1) as [[t1 o1] s2] eqn:E. inversion H; subst.
      right. exists r, t1. split; [reflexivity |]. eapply IH; eauto.
  - destruct (respond h c s) as [[e | r] s1].
    + destruct (run h (hd e) s1) as [[t1 o1] s2] eqn:E. inversion H; subst.
      left. exists e, t1. split; [reflexivity |]. eapply IHh; eauto.
    + destruct (run h (k r) s1) as [[t1 o1] s2] eqn:E. inversion H; subst.
      right. exists r, t1. split; [reflexivity |]. eapply IH; eauto.
Qed.

(** Sequencing: either the first part returns and the rest runs after it,
    or the first part ends the run. *)
Definition ends {A B : Type} (o : outcome A) (o' : outcome B) : Prop :=
  match o with
  | Returned _ => False
  | Exited code => o' = Exited code
  | Uncaught e => o' = Uncaught e
  end.

Lemma exec_bind {A B : Type} (p : Py A) (f : A -> Py B) :
  forall t o,
    exec (Py_bind p f) t o ->
    (exists a t1 t2,
        exec p t1 (Returned a) /\ exec (f a) t2 o /\ t = t1 ++ t2)
    \/ (exists o1, exec p t o1 /\ ends o1 o).
Proof.
  induction p as [a | e | code | m k IH | c k IH | c hd IHh k IH];
    intros t o H; simpl in H.
  - left. exists a, [], t. simpl. auto.
  - destruct H as [-> ->]. right. exists (Uncaught e). simpl. auto.
  - destruct H as [-> ->]. right. exists (Exited code). simpl. auto.
  - destruct H as (t' & -> & H).
    destruct (IH _ _ H) as [(a & t1 & t2 & H1 & H2 & ->) | (o1 & H1 & H2)].
    + left. exists a, (EvPrint m :: t1), t2. simpl. eauto.
    + right. exists o1. simpl. eauto.
  - destruct H as [(e & -> & ->) | (r & t' & -> & H)].
    + right. exists (Uncaught (HostError e)). simpl. split; [left; eauto | auto].
    + destruct (IH r _ _ H) as [(a & t1 & t2 & H1 & H2 & ->) | (o1 & H1 & H2)].
      * left. exists a, (EvCall c (inr (to_value c r)) :: t1), t2.
        simpl. split; [right; eauto | auto].
      * right. exists o1. simpl. split; [right; eauto | auto].
  - destruct H as [(e & t' & -> & H) | (r & t' & -> & H)].
    + destruct (IHh e _ _ H) as [(a & t1 & t2 & H1 & H2 & ->) | (o1 & H1 & H2)].
      * left. exists a, (EvCall c (inl e) :: t1), t2.
        simpl. split; [left; eauto | auto].
      * right. exists o1. simpl. split; [left; eauto | auto].
    + destruct (IH r _ _ H) as [(a & t1 & t2 & H1 & H2 & ->) | (o1 & H1 & H2)].
      * left. exists a, (EvCall c (inr (to_value c r)) :: t1), t2.
        simpl. split; [right; eauto | auto].
      * right. exists o1. simpl. split; [right; eauto | auto].
Qed.

Lemma exec_bind_intro {A B : Type} (p : Py A) (f : A -> Py B) :
  forall a t1 t2 o,
    exec p t1 (Returned a) -> exec (f a) t2 o ->
    exec (Py_bind p f) (t1 ++ t2) o.
Proof.
  induction p as [a' | e | code | m k IH | c k IH | c hd IHh k IH];
    intros a t1 t2 o H1 H2; simpl in H1 |- *.
  - destruct H1 as [-> H1]. inversion H1; subst. exact H2.
  - destruct H1 as [_ H1]. discriminate H1.
  - destruct H1 as [_ H1]. discriminate H1.
  - destruct H1 as (t' & -> & H1). exists (t' ++ t2). split; [reflexivity |].
    eapply IH; eauto.
  - destruct H1 as [(e & _ & H1) | (r & t' & -> & H1)]; [discriminate H1 |].
    right. exists r, (t' ++ t2). split; [reflexivity |]. eapply IH; eauto.
  - destruct H1 as [(e & t' & -> & H1) | (r & t' & -> & H1)].
    + left. exists e, (t' ++ t2). split; [reflexivity |]. eapply IHh; eauto.
    + right. exists r, (t' ++ t2). split; [reflexivity |]. eapply IH; eauto.
Qed.

Lemma exec_bind_ends {A B : Type} (p : Py A) (f : A -> Py B) :
  forall t o1 o,
    exec p t o1 -> ends o1 o -> exec (Py_bind p f) t o.
Proof.
  induction p as [a' | e | code | m k IH | c k IH | c hd IHh k IH];
    intros t o1 o H1 H2; simpl in H1 |- *.
  - destruct H1 as [_ ->]. destruct H2.
  - destruct H1 as [-> ->]. simpl in H2. auto.
  - destruct H1 as [-> ->]. simpl in H2. auto.
  - destruct H1 as (t' & -> & H1). exists t'. split; [reflexivity |].
    eapply IH; eauto.
  - destruct H1 as [(e & -> & ->) | (r & t' & -> & H1)].
    + left. exists e. simpl in H2. auto.
    + right. exists r, t'. split; [reflexivity |]. eapply IH; eauto.
  - destruct H1 as [(e & t' & -> & H1) | (r & t' & -> & H1)].
    + left. exists e, t'. split; [reflexivity |]. eapply IHh; eauto.
    + right. exists r, t'. split; [reflexivity |]. eapply IH; eauto.
Qed.

(** Programs without exception handling: every host call is a plain
    statement. *)
Fixpoint unguarded {A : Type} (p : Py A) : Prop :=
  match p with
  | Ret _ | Raise _ | SysExit _ => True
  | Print _ k => unguarded k
  | Call _ k => forall r, unguarded (k r)
  | Try _ _ _ => False
  end.

Lemma unguarded_bind {A B : Type} (p : Py A) (f : A -> Py B) :
  unguarded p -> (forall a, unguarded (f a)) -> unguarded (Py_bind p f).
Proof.
  induction p as [a | e | code | m k IH | c k IH | c hd IHh k IH]; simpl;
    intros Hp Hf; auto.
Qed.

Lemma unguarded_for_each {A : Type} (l : list A) (body : A -> Py unit) :
  (forall x, unguarded (body x)) -> unguarded (for_each l body).
Proof.
  induction l as [| x l IH]; simpl; intros H; [exact I |].
  apply unguarded_bind; auto.
Qed.

(** In a program without exception handling a failed host call is the
    last thing a run does: the error leaves the program as it is, and
    nothing is called after it. *)
Lemma exec_failure_last {A : Type} (p : Py A) :
  unguarded p ->
  forall t o c e,
    exec p t o -> In (failed c e) t ->
    o = Uncaught (HostError e)
    /\ exists pre, t = pre ++ [failed c e] /\ Forall (fun ev => ~ is_failure ev) pre.
Proof.
  induction p as [a | e0 | code | m k IH | c0 k IH | c0 hd IHh k IH];
    intros U t o c e H Hin; simpl in H, U; [| | | | | destruct U].
  - destruct H as [-> _]. destruct Hin.
  - destruct H as [-> _]. destruct Hin.
  - destruct H as [-> _]. destruct Hin.
  - destruct H as (t' & -> & H). destruct Hin as [Hin | Hin]; [discriminate |].
    destruct (IH U _ _ _ _ H Hin) as (-> & pre & -> & Hpre).
    split; [reflexivity |]. exists (EvPrint m :: pre). split; [reflexivity |].
    constructor; [simpl; tauto | exact Hpre].
  - destruct H as [(e1 & -> & ->) | (r & t' & -> & H)].
    + destruct Hin as [Hin | []]. unfold failed in Hin. inversion Hin; subst.
      split; [reflexivity |]. exists []. split; [reflexivity | constructor].
    + destruct Hin as [Hin | Hin]; [discriminate |].
      destruct (IH _ (U r) _ _ _ _ H Hin) as (-> & pre & -> & Hpre).
      split; [reflexivity |].
      exists (EvCall c0 (inr (to_value c0 r)) :: pre). split; [reflexivity |].
      constructor; [simpl; tauto | exact Hpre].
Qed.

(** ** What a program can call and print *)

Fixpoint calls_only {A : Type} (P : call -> Prop) (p : Py A) : Prop :=
  match p with
  | Print _ k => calls_only P k
  | Call c k => P c /\ forall r, calls_only P (k r)
  | Try c handler k =>
      P c /\ (forall e, calls_only P (handler e))
      /\ forall r, calls_only P (k r)
  | _ => True
  end.

Fixpoint prints_only {A : Type} (P : message -> Prop) (p : Py A) : Prop :=
  match p with
  | Print m k => P m /\ prints_only P k
  | Call c k => forall r, prints_only P (k r)
  | Try c handler k =>
      (forall e, prints_only P (handler e)) /\ forall r, prints_only P (k r)
  | _ => True
  end.

Lemma calls_only_exec {A : Type} (P : call -> Prop) (p : Py A) :
  calls_only P p ->
  forall t o, exec p t o -> forall c r, In (EvCall c r) t -> P c.
Proof.
  induction p as [a | e0 | code | m k IH | c0 k IH | c0 hd IHh k IH];
    intros HP t o H c r Hin; simpl in H, HP.
  - destruct H as [-> _]. destruct Hin.
  - destruct H as [-> _]. destruct Hin.
  - destruct H as [-> _]. destruct Hin.
  - destruct H as (t' & -> & H). destruct Hin as [Hin | Hin]; [discriminate |].
    eapply IH; eauto.
  - destruct HP as [HP0 HP]. destruct H as [(e1 & -> & ->) | (r0 & t' & -> & H)].
    + destruct Hin as [Hin | []]. inversion Hin; subst. exact HP0.
    + destruct Hin as [Hin | Hin]; [inversion Hin; subst; exact HP0 |].
      eapply IH; eauto.
  - destruct HP as (HP0 & HPh & HP).
    destruct H as [(e1 & t' & -> & H) | (r0 & t' & -> & H)];
      (destruct Hin as [Hin | Hin]; [inversion Hin; subst; exact HP0 |]).
    + eapply IHh; eauto.
    + eapply IH; eauto.
Qed.

Lemma prints_only_exec {A : Type} (P : message -> Prop) (p : Py A) :
  prints_only P p ->
  forall t o, exec p t o -> forall m, In (EvPrint m) t -> P m.
Proof.
  induction p as [a | e0 | code | m0 k IH | c0 k IH | c0 hd IHh k IH];
    intros HP t o H m Hin; simpl in H, HP.
  - destruct H as [-> _]. destruct Hin.
  - destruct H as [-> _]. destruct Hin.
  - destruct H as [-> _]. destruct Hin.
  - destruct HP as [HP0 HP]. destruct H as (t' & -> & H).
    destruct Hin as [Hin | Hin]; [inversion Hin; subst; exact HP0 |].
    eapply IH; eauto.
  - destruct H as [(e1 & -> & ->) | (r0 & t' & -> & H)].
    + destruct Hin as [Hin | []]. discriminate.
    + destruct Hin as [Hin | Hin]; [discriminate |]. eapply IH; eauto.
  - destruct HP as [HPh HP].
    destruct H as [(e1 & t' & -> & H) | (r0 & t' & -> & H)];
      (destruct Hin as [Hin | Hin]; [discriminate |]).
    + eapply IHh; eauto.
    + eapply IH; eauto.
Qed.

Lemma calls_only_bind {A B : Type} (P : call -> Prop) (p : Py A) (f : A -> Py B) :
  calls_only P p -> (forall a, calls_only P (f a)) ->
  calls_only P (Py_bind p f).
Proof.
  induction p as [a | e0 | code | m k IH | c0 k IH | c0 hd IHh k IH]; simpl;
    intros Hp Hf; auto.
  - destruct Hp as [H0 Hp]. split; auto.
  - destruct Hp as (H0 & Hh & Hp). repeat split; auto.
Qed.

Lemma prints_only_bind {A B : Type} (P : message -> Prop) (p : Py A)
      (f : A -> Py B) :
  prints_only P p -> (forall a, prints_only P (f a)) ->
  prints_only P (Py_bind p f).
Proof.
  induction p as [a | e0 | code | m k IH | c0 k IH | c0 hd IHh k IH]; simpl;
    intros Hp Hf; auto.
  - destruct Hp as [H0 Hp]. split; auto.
  - destruct Hp as [Hh Hp]. split; auto.
Qed.

Lemma calls_only_for_each {A : Type} (P : call -> Prop) (l : list A)
      (body : A -> Py unit) :
  (forall x, In x l -> calls_only P (body x)) ->
  calls_only P (for_each l body).
Proof.
  induction l as [| x l IH]; simpl; intros H; [exact I |].
  apply calls_only_bind; auto.
Qed.

Lemma prints_only_for_each {A : Type} (P : message -> Prop) (l : list A)
      (body : A -> Py unit) :
  (forall x, In x l -> prints_only P (body x)) ->
  prints_only P (for_each l body).
Proof.
  induction l as [| x l IH]; simpl; intros H; [exact I |].
  apply prints_only_bind; auto.
Qed.

(** Programs that neither raise nor exit by themselves, and handle no
    exception: their runs return unless a host call fails. *)
Fixpoint plain {A : Type} (p : Py A) : Prop :=
  match p with
  | Ret _ => True
  | Raise _ | SysExit _ | Try _ _ _ => False
  | Print _ k => plain k
  | Call _ k => forall r, plain (k r)
  end.

Lemma plain_exec {A : Type} (p : Py A) :
  plain p ->
  forall t o, exec p t o ->
    (exists a, o = Returned a /\ Forall (fun ev => ~ is_failure ev) t)
    \/ (exists pre c e, t = pre ++ [failed c e] /\ o = Uncaught (HostError e)).
Proof.
  induction p as [a | e0 | code | m k IH | c0 k IH | c0 hd IHh k IH];
    intros HP t o H; simpl in H, HP; try contradiction.
  - destruct H as [-> ->]. left. exists a. auto.
  - destruct H as (t' & -> & H).
    destruct (IH HP _ _ H) as [(a & -> & Ht) | (pre & c & e & -> & ->)].
    + left. exists a. split; [reflexivity |]. constructor; simpl; auto.
    + right. exists (EvPrint m :: pre), c, e. auto.
  - destruct H as [(e1 & -> & ->) | (r0 & t' & -> & H)].
    + right. exists [], c0, e1. auto.
    + destruct (IH r0 (HP r0) _ _ H) as [(a & -> & Ht) | (pre & c & e & -> & ->)].
      * left. exists a. split; [reflexivity |]. constructor; simpl; auto.
      * right. exists (EvCall c0 (inr (to_value c0 r0)) :: pre), c, e. auto.
Qed.

Lemma plain_bind {A B : Type} (p : Py A) (f : A -> Py B) :
  plain p -> (forall a, plain (f a)) -> plain (Py_bind p f).
Proof.
  induction p as [a | e0 | code | m k IH | c0 k IH | c0 hd IHh k IH]; simpl;
    intros Hp Hf; auto.
Qed.

Lemma plain_unguarded {A : Type} (p : Py A) : plain p -> unguarded p.
Proof.
  induction p as [a | e0 | code | m k IH | c0 k IH | c0 hd IHh k IH]; simpl;
    auto.
Qed.

Lemma plain_for_each {A : Type} (l : list A) (body : A -> Py unit) :
  (forall x, plain (body x)) -> plain (for_each l body).
Proof.
  induction l as [| x l IH]; simpl; intros H; [exact I |].
  apply plain_bind; auto.
Qed.

(** * The runs of the script *)

(** ** Counting vertices *)

Definition counted (mesh_objects : list Object) (counts : list N) : list event :=
  map (fun on => ok (len_vertices (fst on)) (VInt (snd on)))
      (combine mesh_objects counts).

Definition total (counts : list N) : N := fold_left N.add counts 0%N.

Lemma fold_left_add_total (counts : list N) :
  forall acc, fold_left N.add counts acc = (acc + total counts)%N.
Proof.
  unfold total. induction counts as [| n counts IH]; intros acc; simpl.
  - now rewrite N.add_0_r.
  - rewrite IH, (IH n). lia.
Qed.

Lemma exec_sum_vertices (mesh_objects : list Object) :
  forall acc t o,
    exec (sum_vertices acc mesh_objects) t o ->
    (exists counts,
        List.length counts = List.length mesh_objects
        /\ t = counted mesh_objects counts
        /\ o = Returned (acc + total counts)%N)
    \/ (exists e, o = Uncaught (HostError e)).
Proof.
  induction mesh_objects as [| obj rest IH]; intros acc t o H; simpl in H.
  - destruct H as [-> ->]. left. exists []. simpl.
    rewrite N.add_0_r. auto.
  - destruct H as [(e & -> & ->) | (n & t' & -> & H)]; [right; eauto |].
    destruct (IH _ _ _ H) as [(counts & Hlen & -> & ->) | (e & ->)];
      [| right; eauto].
    left. exists (n :: counts). simpl. rewrite Hlen.
    repeat split; auto. f_equal. unfold total at 2. simpl.
    rewrite (fold_left_add_total counts n). lia.
Qed.

Lemma plain_sum_vertices (mesh_objects : list Object) :
  forall acc, plain (sum_vertices acc mesh_objects).
Proof.
  induction mesh_objects as [| obj rest IH]; intros acc; simpl; auto.
Qed.

Definition is_len_vertices (c : call) : Prop :=
  match c with
  | len_vertices _ => True
  | _ => False
  end.

Lemma calls_sum_vertices (mesh_objects : list Object) :
  forall acc, calls_only is_len_vertices (sum_vertices acc mesh_objects).
Proof.
  induction mesh_objects as [| obj rest IH]; intros acc; simpl; auto.
Qed.

Lemma prints_sum_vertices (mesh_objects : list Object) :
  forall acc, prints_only (fun _ => False) (sum_vertices acc mesh_objects).
Proof.
  induction mesh_objects as [| obj rest IH]; intros acc; simpl; auto.
Qed.

(** ** The decimation loop *)

(** What one iteration read from the host. *)
Record decimation : Type := {
  dec_obj : Object;
  dec_before : N;
  dec_modifier : Modifier;
  dec_after : N
}.

Definition decimate_events (d : decimation) : list event :=
  [ ok (len_vertices (dec_obj d)) (VInt (dec_before d));
    EvPrint (MsgProcessing (obj_name (dec_obj d)) (dec_before d));
    ok (set_active (dec_obj d)) VNone;
    ok (select_set (dec_obj d) true) VNone;
    ok (modifiers_new (dec_obj d) "Decimate" "DECIMATE")
       (VModifier (dec_modifier d));
    ok (set_decimate_type (dec_modifier d) "COLLAPSE") VNone;
    ok (set_ratio (dec_modifier d) TARGET_RATIO) VNone;
    ok (set_use_collapse_triangulate (dec_modifier d) true) VNone;
    ok (modifier_apply "Decimate") VNone;
    ok (len_vertices (dec_obj d)) (VInt (dec_after d));
    EvPrint (MsgAfter (dec_after d));
    ok (select_set (dec_obj d) false) VNone ].

Lemma plain_decimate (obj : Object) : plain (decimate obj).
Proof. simpl. auto. Qed.

Lemma exec_decimate (obj : Object) :
  forall t o,
    exec (decimate obj) t o ->
    (exists d, dec_obj d = obj /\ t = decimate_events d /\ o = Returned tt)
    \/ (exists e, o = Uncaught (HostError e)).
Proof.
  intros t o H. unfold decimate in H. simpl in H.
  repeat match type of H with
         | _ \/ _ => destruct H as [(? & -> & ->) | H]; [right; eauto |]
         | exists r t', _ => destruct H as (? & ? & -> & H)
         | exists t', _ => destruct H as (? & -> & H)
         end.
  destruct H as [-> ->].
  left. eexists (Build_decimation obj _ _ _).
  split; [reflexivity |]. split; [reflexivity |].
  match goal with u : unit |- Returned ?x = _ => now destruct x end.
Qed.

Lemma exec_for_each_decimate (mesh_objects : list Object) :
  forall t o,
    exec (for_each mesh_objects decimate) t o ->
    (exists rows,
        map dec_obj rows = mesh_objects
        /\ t = concat (map decimate_events rows)
        /\ o = Returned tt)
    \/ (exists e, o = Uncaught (HostError e)).
Proof.
  induction mesh_objects as [| obj rest IH]; intros t o H.
  - simpl in H. destruct H as [-> ->]. left. exists []. auto.
  - change (for_each (obj :: rest) decimate)
      with (Py_bind (decimate obj) (fun _ => for_each rest decimate)) in H.
    apply exec_bind in H.
    destruct H as [(a & t1 & t2 & H1 & H2 & ->) | (o1 & H1 & H2)].
    + apply exec_decimate in H1.
      destruct H1 as [(d & Hd & -> & _) | (e & He)]; [| discriminate He].
      destruct (IH _ _ H2) as [(rows & Hrows & -> & ->) | (e & ->)];
        [| right; eauto].
      left. exists (d :: rows). simpl. rewrite Hd, Hrows. auto.
    + apply exec_decimate in H1.
      destruct H1 as [(d & _ & _ & ->) | (e & ->)]; [destruct H2 |].
      simpl in H2. right. eauto.
Qed.

(** ** Selecting the meshes for the export *)

Definition selected (mesh_objects : list Object) : list event :=
  map (fun obj => ok (select_set obj true) VNone) mesh_objects.

Definition select_all (mesh_objects : list Object) : Py unit :=
  for_each mesh_objects (fun obj => call_host (select_set obj true)).

Lemma exec_select_all (mesh_objects : list Object) :
  forall t o,
    exec (select_all mesh_objects) t o ->
    (t = selected mesh_objects /\ o = Returned tt)
    \/ (exists e, o = Uncaught (HostError e)).
Proof.
  unfold select_all.
  induction mesh_objects as [| obj rest IH]; intros t o H; simpl in H.
  - destruct H as [-> ->]. auto.
  - destruct H as [(e & -> & ->) | (r & t' & -> & H)]; [right; eauto |].
    destruct (IH _ _ H) as [(-> & ->) | (e & ->)]; [| right; eauto].
    left. auto.
Qed.

(** ** The shape of every run of [main] *)

Section Runs.

Context {os_path : OsPath}.
Variable file : string.

Definition greeting : list event :=
  [ EvPrint (MsgInput (input_file file));
    EvPrint (MsgOutput (output_file file));
    EvPrint (MsgTargetRatio (PyFloat.mul TARGET_RATIO (PyFloat.of_int 100))) ].

(** The events up to the reply that lists the scene's objects. *)
Definition imported (objects : list Object) : list event :=
  greeting ++
  [ ok (read_factory_settings true) VNone;
    EvPrint MsgImporting;
    ok (import_scene_gltf (input_file file)) VNone;
    ok scene_objects (VObjects objects) ].

(** The events from the first count to the second. *)
Definition decimated (mesh_objects : list Object) (befores : list N)
           (rows : list decimation) (afters : list N) : list event :=
  counted mesh_objects befores
  ++ [EvPrint (MsgFound (length mesh_objects) (total befores))]
  ++ concat (map decimate_events rows)
  ++ counted mesh_objects afters.

Definition reduction_of (ratio : float) : float :=
  PyFloat.mul (PyFloat.sub (PyFloat.of_int 1) ratio) (PyFloat.of_int 100).

Definition export_call : call :=
  export_scene_gltf (output_file file) "GLB" true true.

Definition MiB : Z := 1024 * 1024.

(** The runs from the export call on. *)
Inductive finish : list event -> outcome unit -> Prop :=
| export_failed e :
    finish [failed export_call e] (Uncaught (HostError e))
| exists_failed e :
    finish [ok export_call VNone; EvPrint MsgDone;
            failed (path_exists (output_file file)) e]
           (Uncaught (HostError e))
| not_created :
    finish [ok export_call VNone; EvPrint MsgDone;
            ok (path_exists (output_file file)) (VBool false);
            EvPrint MsgNotCreated]
           (Exited 1)
| getsize_failed e :
    finish [ok export_call VNone; EvPrint MsgDone;
            ok (path_exists (output_file file)) (VBool true);
            failed (path_getsize (output_file file)) e]
           (Uncaught (HostError e))
| size_division_failed size e :
    int_truediv (Z.of_N size) MiB = inl e ->
    finish [ok export_call VNone; EvPrint MsgDone;
            ok (path_exists (output_file file)) (VBool true);
            ok (path_getsize (output_file file)) (VInt size)]
           (Uncaught e)
| size_reported size size_mb :
    int_truediv (Z.of_N size) MiB = inr size_mb ->
    finish [ok export_call VNone; EvPrint MsgDone;
            ok (path_exists (output_file file)) (VBool true);
            ok (path_getsize (output_file file)) (VInt size);
            EvPrint (MsgFileSize size_mb)]
           (Returned tt).

Inductive main_run : list event -> outcome unit -> Prop :=
| reset_failed e :
    main_run (greeting ++ [failed (read_factory_settings true) e])
             (Uncaught (HostError e))
| import_failed e :
    main_run (greeting ++
              [ok (read_factory_settings true) VNone; EvPrint MsgImporting;
               failed (import_scene_gltf (input_file file)) e])
             (Uncaught (HostError e))
| scene_failed e :
    main_run (greeting ++
              [ok (read_factory_settings true) VNone; EvPrint MsgImporting;
               ok (import_scene_gltf (input_file file)) VNone;
               failed scene_objects e])
             (Uncaught (HostError e))
| no_mesh objects :
    filter is_mesh objects = [] ->
    main_run (imported objects ++ [EvPrint MsgNoMesh]) (Exited 1)
| count_failed objects t e :
    filter is_mesh objects <> [] ->
    exec (sum_vertices 0 (filter is_mesh objects)) t (Uncaught (HostError e)) ->
    main_run (imported objects ++ t) (Uncaught (HostError e))
| decimate_failed objects befores t e :
    filter is_mesh objects <> [] ->
    length befores = length (filter is_mesh objects) ->
    exec (for_each (filter is_mesh objects) decimate) t
         (Uncaught (HostError e)) ->
    main_run (imported objects
              ++ counted (filter is_mesh objects) befores
              ++ [EvPrint (MsgFound (length (filter is_mesh objects))
                                    (total befores))]
              ++ t)
             (Uncaught (HostError e))
| recount_failed objects befores rows t e :
    filter is_mesh objects <> [] ->
    length befores = length (filter is_mesh objects) ->
    map dec_obj rows = filter is_mesh objects ->
    exec (sum_vertices 0 (filter is_mesh objects)) t (Uncaught (HostError e)) ->
    main_run (imported objects
              ++ counted (filter is_mesh objects) befores
              ++ [EvPrint (MsgFound (length (filter is_mesh objects))
                                    (total befores))]
              ++ concat (map decimate_events rows)
              ++ t)
             (Uncaught (HostError e))
| division_failed objects befores rows afters e :
    filter is_mesh objects <> [] ->
    length befores = length (filter is_mesh objects) ->
    map dec_obj rows = filter is_mesh objects ->
    length afters = length (filter is_mesh objects) ->
    int_truediv (Z.of_N (total afters)) (Z.of_N (total befores)) = inl e ->
    main_run (imported objects
              ++ decimated (filter is_mesh objects) befores rows afters)
             (Uncaught e)
| select_failed objects befores rows afters ratio t e :
    filter is_mesh objects <> [] ->
    length befores = length (filter is_mesh objects) ->
    map dec_obj rows = filter is_mesh objects ->
    length afters = length (filter is_mesh objects) ->
    int_truediv (Z.of_N (total afters)) (Z.of_N (total befores)) = inr ratio ->
    exec (select_all (filter is_mesh objects)) t (Uncaught (HostError e)) ->
    main_run (imported objects
              ++ decimated (filter is_mesh objects) befores rows afters
              ++ [EvPrint (MsgTotal (total befores) (total afters)
                                    (reduction_of ratio))]
              ++ t)
             (Uncaught (HostError e))
| exported objects befores rows afters ratio t o :
    filter is_mesh objects <> [] ->
    length befores = length (filter is_mesh objects) ->
    map dec_obj rows = filter is_mesh objects ->
    length afters = length (filter is_mesh objects) ->
    int_truediv (Z.of_N (total afters)) (Z.of_N (total befores)) = inr ratio ->
    finish t o ->
    main_run (imported objects
              ++ decimated (filter is_mesh objects) befores rows afters
              ++ [EvPrint (MsgTotal (total befores) (total afters)
                                    (reduction_of ratio))]
              ++ selected (filter is_mesh objects)
              ++ [EvPrint (MsgExporting (output_file file))]
              ++ t)
             o.

End Runs.

Lemma main_exec {os_path : OsPath} (file : string) :
  forall t o, exec (main file) t o -> main_run file t o.
Proof.
  intros t o H. unfold main in H.
  cbn [bind ret Monad_Py Py_bind print call_host exec] in H.
  destruct H as (? & -> & ? & -> & ? & -> & H).
  destruct H as [(e & -> & ->) | (? & ? & -> & ? & -> & H)];
    [apply reset_failed |].
  destruct H as [(e & -> & ->) | (? & ? & -> & H)];
    [apply import_failed |].
  destruct H as [(e & -> & ->) | (objects & ? & -> & H)];
    [apply scene_failed |].
  cbn [to_value].
  remember (filter is_mesh objects) as meshes eqn:E.
  destruct meshes as [| m ms].
  { cbn in H. destruct H as (? & -> & -> & ->).
    apply (no_mesh file objects). auto. }
  cbn [Py_bind] in H. rewrite E in H.
  assert (Hne : filter is_mesh objects <> []) by (rewrite <- E; discriminate).
  clear E m ms.
  (* the first count *)
  apply exec_bind in H.
  destruct H as [(tb & t1 & t2 & H1 & H & ->) | (o1 & H1 & H2)].
  2:{ destruct (exec_sum_vertices _ _ _ _ H1) as [(? & _ & _ & ->) | (e & ->)];
        [destruct H2 |].
      simpl in H2. subst o. apply (count_failed file objects); auto. }
  destruct (exec_sum_vertices _ _ _ _ H1) as [(befores & Hb & -> & Htb) | (e & He)];
    [| discriminate He].
  injection Htb as ->. change (0 + total befores)%N with (total befores) in H.
  clear H1.
  cbn [exec] in H. destruct H as (? & -> & H).
  (* the decimation loop *)
  apply exec_bind in H.
  destruct H as [(? & t3 & t4 & H1 & H & ->) | (o1 & H1 & H2)].
  2:{ destruct (exec_for_each_decimate _ _ _ H1) as [(? & _ & _ & ->) | (e & ->)];
        [destruct H2 |].
      simpl in H2. subst o.
      apply (decimate_failed file objects befores); auto. }
  destruct (exec_for_each_decimate _ _ _ H1) as [(rows & Hr & -> & _) | (e & He)];
    [| discriminate He].
  clear H1.
  (* the second count *)
  apply exec_bind in H.
  destruct H as [(ta & t5 & t6 & H1 & H & ->) | (o1 & H1 & H2)].
  2:{ destruct (exec_sum_vertices _ _ _ _ H1) as [(? & _ & _ & ->) | (e & ->)];
        [destruct H2 |].
      simpl in H2. subst o.
      apply (recount_failed file objects befores rows); auto. }
  destruct (exec_sum_vertices _ _ _ _ H1) as [(afters & Ha & -> & Hta) | (e & He)];
    [| discriminate He].
  injection Hta as ->. change (0 + total afters)%N with (total afters) in H.
  clear H1.
  (* the reduction *)
  destruct (int_truediv (Z.of_N (total afters)) (Z.of_N (total befores)))
    as [e | ratio] eqn:Ediv; cbn [lift_exn Py_bind exec] in H.
  { destruct H as [-> ->].
    pose proof (division_failed file objects befores rows afters e Hne Hb Hr Ha Ediv)
      as R.
    unfold decimated in R. rewrite !app_nil_r.
    repeat rewrite <- app_assoc in R. exact R. }
  destruct H as (t7 & -> & H).
  (* selecting *)
  apply exec_bind in H.
  destruct H as [(? & t8 & t9 & H1 & H & ->) | (o1 & H1 & H2)].
  2:{ destruct (exec_select_all _ _ _ H1) as [(_ & ->) | (e & ->)];
        [destruct H2 |].
      simpl in H2. subst o.
      pose proof (select_failed file objects befores rows afters ratio _ e
                                Hne Hb Hr Ha Ediv H1) as R.
      unfold decimated in R. repeat rewrite <- app_assoc in R. exact R. }
  destruct (exec_select_all _ _ _ H1) as [(-> & _) | (e & He)];
    [| discriminate He].
  clear H1.
  cbn [exec] in H. destruct H as (t10 & -> & H).
  assert (F : finish file t10 o).
  { destruct H as [(e & -> & ->) | (? & ? & -> & ? & -> & H)];
      [apply export_failed |].
    destruct H as [(e & -> & ->) | ([|] & ? & -> & H)];
      [apply exists_failed | |].
    - cbn [bind ret Monad_Py Py_bind print call_host exec] in H.
      destruct H as [(e & -> & ->) | (size & ? & -> & H)];
        [apply getsize_failed |].
      destruct (int_truediv (Z.of_N size) (1024 * 1024)) as [e | mb] eqn:Esz;
        cbn [lift_exn Py_bind exec] in H.
      + destruct H as [-> ->]. apply size_division_failed. exact Esz.
      + destruct H as (? & -> & -> & ->). apply size_reported. exact Esz.
    - cbn [bind ret Monad_Py Py_bind print call_host exec sys_exit] in H.
      destruct H as (? & -> & -> & ->). apply not_created. }
  pose proof (exported file objects befores rows afters ratio _ _ Hne Hb Hr Ha Ediv F) as R.
  unfold decimated in R. repeat rewrite <- app_assoc in R. exact R.
Qed.

(** ** The events between the import and the export *)

(** The host calls the script makes between reading the scene and exporting:
    reading vertex counts, selecting, and creating, configuring and applying
    modifiers. *)
Definition decimation_call (c : call) : bool :=
  match c with
  | len_vertices _ | set_active _ | select_set _ _ | modifiers_new _ _ _
  | set_decimate_type _ _ | set_ratio _ _ | set_use_collapse_triangulate _ _
  | modifier_apply _ => true
  | _ => false
  end.

Definition progress_message (m : message) : bool :=
  match m with
  | MsgFound _ _ | MsgProcessing _ _ | MsgAfter _ | MsgTotal _ _ _ => true
  | _ => false
  end.

Definition middle (ev : event) : Prop :=
  match ev with
  | EvCall c _ => decimation_call c = true
  | EvPrint m => progress_message m = true
  end.

Lemma exec_events {A : Type} (P : call -> Prop) (Q : message -> Prop)
      (p : Py A) t o :
  calls_only P p -> prints_only Q p -> exec p t o ->
  Forall (fun ev => match ev with EvCall c _ => P c | EvPrint m => Q m end) t.
Proof.
  intros HP HQ H. apply Forall_forall. intros [m | c r] Hin.
  - eapply prints_only_exec; eauto.
  - eapply calls_only_exec; eauto.
Qed.

Lemma middle_counted mesh_objects counts :
  Forall middle (counted mesh_objects counts).
Proof.
  unfold counted. apply Forall_forall. intros ev Hin.
  apply in_map_iff in Hin. destruct Hin as ([obj n] & <- & _). reflexivity.
Qed.

Lemma middle_decimate_events d : Forall middle (decimate_events d).
Proof. unfold decimate_events. repeat constructor. Qed.

Lemma middle_decimations rows :
  Forall middle (concat (map decimate_events rows)).
Proof.
  apply Forall_concat. apply Forall_map.
  apply Forall_forall. intros d _. apply middle_decimate_events.
Qed.

Lemma middle_selected mesh_objects : Forall middle (selected mesh_objects).
Proof.
  unfold selected. apply Forall_map. apply Forall_forall. intros obj _.
  reflexivity.
Qed.

Lemma middle_sum_vertices mesh_objects acc t o :
  exec (sum_vertices acc mesh_objects) t o -> Forall middle t.
Proof.
  intros H.
  eapply Forall_impl;
    [| eapply exec_events;
       [apply calls_sum_vertices | apply prints_sum_vertices | exact H]].
  intros [m | [] r]; simpl; tauto.
Qed.

Lemma middle_decimate_loop mesh_objects t o :
  exec (for_each mesh_objects decimate) t o -> Forall middle t.
Proof.
  intros H.
  apply (exec_events (fun c => decimation_call c = true)
                     (fun m => progress_message m = true)) in H.
  - exact H.
  - apply calls_only_for_each. intros obj _. simpl. tauto.
  - apply prints_only_for_each. intros obj _. simpl. tauto.
Qed.

Lemma middle_select_all mesh_objects t o :
  exec (select_all mesh_objects) t o -> Forall middle t.
Proof.
  intros H.
  apply (exec_events (fun c => decimation_call c = true)
                     (fun m => progress_message m = true)) in H.
  - exact H.
  - apply calls_only_for_each. intros obj _. simpl. tauto.
  - apply prints_only_for_each. intros obj _. simpl. tauto.
Qed.

Lemma plain_select_all mesh_objects : plain (select_all mesh_objects).
Proof. apply plain_for_each. intros obj. simpl. auto. Qed.

Lemma plain_decimate_loop mesh_objects : plain (for_each mesh_objects decimate).
Proof. apply plain_for_each. apply plain_decimate. Qed.

(** The two ways a true division raises. *)
Lemma int_truediv_raises a b e :
  int_truediv a b = inl e ->
  (b = 0%Z /\ e = ZeroDivisionError) \/ (b <> 0%Z /\ e = OverflowError).
Proof.
  unfold int_truediv. destruct (Z.eqb_spec b 0) as [-> | Hb]; intros H.
  - left. inversion H. auto.
  - right. split; [exact Hb |].
    destruct (PyFloat.div _ _); inversion H. reflexivity.
Qed.

Lemma int_truediv_zero a : int_truediv a 0 = inl ZeroDivisionError.
Proof. reflexivity. Qed.

Lemma Forall_app_intro {A : Type} (P : A -> Prop) (l1 l2 : list A) :
  Forall P l1 -> Forall P l2 -> Forall P (l1 ++ l2).
Proof. intros H1 H2. apply Forall_app. split; assumption. Qed.

Lemma no_failure_counted mesh_objects counts :
  Forall (fun ev => ~ is_failure ev) (counted mesh_objects counts).
Proof.
  unfold counted. apply Forall_map. apply Forall_forall.
  intros on _. simpl. tauto.
Qed.

Lemma no_failure_decimations rows :
  Forall (fun ev => ~ is_failure ev) (concat (map decimate_events rows)).
Proof.
  apply Forall_concat. apply Forall_map. apply Forall_forall. intros d _.
  unfold decimate_events. repeat (constructor; [simpl; tauto |]). constructor.
Qed.

Lemma no_failure_selected mesh_objects :
  Forall (fun ev => ~ is_failure ev) (selected mesh_objects).
Proof.
  unfold selected. apply Forall_map. apply Forall_forall.
  intros obj _. simpl. tauto.
Qed.

Lemma middle_decimated mesh_objects befores rows afters :
  Forall middle (decimated mesh_objects befores rows afters).
Proof.
  unfold decimated.
  apply Forall_app_intro; [apply middle_counted |].
  apply Forall_app_intro; [repeat constructor |].
  apply Forall_app_intro; [apply middle_decimations | apply middle_counted].
Qed.

Lemma no_failure_decimated mesh_objects befores rows afters :
  Forall (fun ev => ~ is_failure ev)
         (decimated mesh_objects befores rows afters).
Proof.
  unfold decimated.
  apply Forall_app_intro; [apply no_failure_counted |].
  apply Forall_app_intro; [constructor; [simpl; tauto | constructor] |].
  apply Forall_app_intro;
    [apply no_failure_decimations | apply no_failure_counted].
Qed.

(** The last event of a trace is a failed host call. *)
Definition ends_with_failure (t : list event) (e : host_error) : Prop :=
  exists pre c, t = pre ++ [failed c e].

Lemma ends_with_failure_app l t e :
  ends_with_failure t e -> ends_with_failure (l ++ t) e.
Proof.
  intros (pre & c & ->). exists (l ++ pre), c. now rewrite app_assoc.
Qed.

Lemma plain_ends_with_failure {A : Type} (p : Py A) t e :
  plain p -> exec p t (Uncaught (HostError e)) -> ends_with_failure t e.
Proof.
  intros Hp H.
  destruct (plain_exec _ Hp _ _ H) as [(a & Ha & _) | (pre & c & e' & -> & He)];
    [discriminate Ha |].
  injection He as ->. exists pre, c. reflexivity.
Qed.

(** ** Runs, by how far they got *)

Section Coarse.

Context {os_path : OsPath}.
Variable file : string.

(** The run stopped at a failing call before the scene was read. *)
Definition early_failure (t : list event) (e : host_error) : Prop :=
  t = greeting file ++ [failed (read_factory_settings true) e]
  \/ t = greeting file ++
         [ok (read_factory_settings true) VNone; EvPrint MsgImporting;
          failed (import_scene_gltf (input_file file)) e]
  \/ t = greeting file ++
         [ok (read_factory_settings true) VNone; EvPrint MsgImporting;
          ok (import_scene_gltf (input_file file)) VNone;
          failed scene_objects e].

(** How a run that stopped between import and export ended: at a failing
    host call, or in the division of the two totals. *)
Definition stopped (mid : list event) (e : exn) : Prop :=
  (exists e', ends_with_failure mid e' /\ e = HostError e')
  \/ ((e = ZeroDivisionError \/ e = OverflowError)
      /\ Forall (fun ev => ~ is_failure ev) mid).

Inductive stage : list event -> outcome unit -> Prop :=
| stage_early t e :
    early_failure t e -> stage t (Uncaught (HostError e))
| stage_no_mesh objects :
    filter is_mesh objects = [] ->
    stage (imported file objects ++ [EvPrint MsgNoMesh]) (Exited 1)
| stage_middle objects mid e :
    filter is_mesh objects <> [] ->
    Forall middle mid ->
    stopped mid e ->
    stage (imported file objects ++ mid) (Uncaught e)
| stage_export objects mid fin o :
    filter is_mesh objects <> [] ->
    Forall middle mid ->
    finish file fin o ->
    stage (imported file objects ++ mid
           ++ EvPrint (MsgExporting (output_file file)) :: fin) o.

Lemma main_stage t o : main_run file t o -> stage t o.
Proof.
  intros H. destruct H.
  - apply stage_early. left. reflexivity.
  - apply stage_early. right. left. reflexivity.
  - apply stage_early. right. right. reflexivity.
  - apply stage_no_mesh. assumption.
  - apply stage_middle; auto.
    + eapply middle_sum_vertices; eauto.
    + left. exists e. split; [| reflexivity].
      eapply plain_ends_with_failure; [apply plain_sum_vertices | eauto].
  - apply stage_middle; auto.
    + apply Forall_app_intro; [apply middle_counted |].
      apply Forall_app_intro; [repeat constructor |].
      eapply middle_decimate_loop; eauto.
    + left. exists e. split; [| reflexivity].
      do 2 apply ends_with_failure_app.
      eapply plain_ends_with_failure; [apply plain_decimate_loop | eauto].
  - apply stage_middle; auto.
    + apply Forall_app_intro; [apply middle_counted |].
      apply Forall_app_intro; [repeat constructor |].
      apply Forall_app_intro; [apply middle_decimations |].
      eapply middle_sum_vertices; eauto.
    + left. exists e. split; [| reflexivity].
      do 3 apply ends_with_failure_app.
      eapply plain_ends_with_failure; [apply plain_sum_vertices | eauto].
  - apply stage_middle; auto.
    + apply middle_decimated.
    + right. split.
      * apply int_truediv_raises in H3. tauto.
      * apply no_failure_decimated.
  - apply stage_middle; auto.
    + apply Forall_app_intro; [apply middle_decimated |].
      apply Forall_app_intro; [repeat constructor |].
      eapply middle_select_all; eauto.
    + left. exists e. split; [| reflexivity].
      do 2 apply ends_with_failure_app.
      eapply plain_ends_with_failure; [apply plain_select_all | eauto].
  - replace (imported file objects
             ++ decimated (filter is_mesh objects) befores rows afters
             ++ [EvPrint (MsgTotal (total befores) (total afters)
                                   (reduction_of ratio))]
             ++ selected (filter is_mesh objects)
             ++ [EvPrint (MsgExporting (output_file file))] ++ t)
      with (imported file objects
            ++ (decimated (filter is_mesh objects) befores rows afters
                ++ [EvPrint (MsgTotal (total befores) (total afters)
                                      (reduction_of ratio))]
                ++ selected (filter is_mesh objects))
            ++ EvPrint (MsgExporting (output_file file)) :: t)
      by (now rewrite <- !app_assoc).
    apply stage_export; auto.
    apply Forall_app_intro; [apply middle_decimated |].
    apply Forall_app_intro; [repeat constructor |].
    apply middle_selected.
Qed.

End Coarse.

(** * Properties of the script *)

Definition last_event (t : list event) (ev : event) : Prop :=
  exists pre, t = pre ++ [ev].

(** The scene the import left has no mesh object. *)
Definition zero_meshes (t : list event) : Prop :=
  exists objects,
    In (ok scene_objects (VObjects objects)) t /\ filter is_mesh objects = [].

(** The output file was looked for and is not there. *)
Definition output_missing (t : list event) : Prop :=
  exists path, In (ok (path_exists path) (VBool false)) t.

Definition is_export (c : call) : Prop :=
  match c with
  | export_scene_gltf _ _ _ _ => True
  | _ => False
  end.

Ltac explicit_in H :=
  unfold ok, failed in H; simpl in H;
  repeat (destruct H as [H | H]; [try discriminate H |]);
  try contradiction.

Ltac middle_in Hmid H :=
  let M := fresh "M" in
  pose proof (proj1 (Forall_forall _ _) Hmid _ H) as M;
  try discriminate M; try contradiction M.

Section Stages.

Context {os_path : OsPath}.
Variable file : string.

Lemma stage_of_run (h : Host) (s : hstate h) t o s' :
  run h (main file) s = (t, o, s') -> stage file t o.
Proof.
  intros R. apply main_stage, main_exec. eapply run_exec; eauto.
Qed.

Lemma early_failure_In t e ev :
  early_failure file t e -> In ev t ->
  is_failure ev
  \/ ev = ok (read_factory_settings true) VNone
  \/ ev = ok (import_scene_gltf (input_file file)) VNone
  \/ exists m, ev = EvPrint m /\ progress_message m = false
               /\ m <> MsgNoMesh /\ m <> MsgNotCreated
               /\ (forall x, m <> MsgFileSize x).
Proof.
  intros [-> | [-> | ->]] Hin; unfold greeting in Hin; simpl in Hin;
    repeat (destruct Hin as [<- | Hin];
            [first [ left; exact I
                   | right; left; reflexivity
                   | right; right; left; reflexivity
                   | right; right; right; eexists; split; [reflexivity |];
                     repeat split; try reflexivity; try discriminate ] |]);
    contradiction.
Qed.

Lemma imported_In objects ev :
  In ev (imported file objects) ->
  ev = ok scene_objects (VObjects objects)
  \/ ev = ok (read_factory_settings true) VNone
  \/ ev = ok (import_scene_gltf (input_file file)) VNone
  \/ exists m, ev = EvPrint m /\ progress_message m = false
               /\ m <> MsgNoMesh /\ m <> MsgNotCreated
               /\ (forall x, m <> MsgFileSize x).
Proof.
  intros Hin; unfold imported, greeting in Hin; simpl in Hin;
    repeat (destruct Hin as [<- | Hin];
            [first [ left; reflexivity
                   | right; left; reflexivity
                   | right; right; left; reflexivity
                   | right; right; right; eexists; split; [reflexivity |];
                     repeat split; try reflexivity; try discriminate ] |]);
    contradiction.
Qed.

(** With no mesh in the scene, the run is the import followed by the error
    message and [sys.exit(1)]. *)
Lemma stage_zero_meshes t o :
  stage file t o -> zero_meshes t ->
  exists objects,
    filter is_mesh objects = []
    /\ t = imported file objects ++ [EvPrint MsgNoMesh] /\ o = Exited 1.
Proof.
  intros S (objects & Hin & Hz). destruct S as [t e E | objs Hobjs | objs mid e Hne Hmid Hs
                | objs mid fin o Hne Hmid Fin].
  - destruct (early_failure_In _ _ _ E Hin) as [F | [F | [F | (m & F & _)]]];
      try discriminate F. destruct F.
  - apply in_app_or in Hin. destruct Hin as [Hin | Hin].
    + destruct (imported_In _ _ Hin) as [F | [F | [F | (m & F & _)]]];
        try discriminate F.
      injection F as ->. exists objs. auto.
    + explicit_in Hin.
  - exfalso. apply in_app_or in Hin. destruct Hin as [Hin | Hin].
    + destruct (imported_In _ _ Hin) as [F | [F | [F | (m & F & _)]]];
        try discriminate F.
      injection F as ->. contradiction.
    + middle_in Hmid Hin.
  - exfalso. apply in_app_or in Hin. destruct Hin as [Hin | Hin].
    + destruct (imported_In _ _ Hin) as [F | [F | [F | (m & F & _)]]];
        try discriminate F.
      injection F as ->. contradiction.
    + apply in_app_or in Hin. destruct Hin as [Hin | Hin];
        [middle_in Hmid Hin |].
      destruct Hin as [Hin | Hin]; [discriminate Hin |].
      destruct Fin; explicit_in Hin.
Qed.

Lemma finish_In fin o ev :
  finish file fin o -> In ev fin ->
  is_failure ev
  \/ ev = ok (export_call file) VNone
  \/ ev = EvPrint MsgDone
  \/ (exists b, ev = ok (path_exists (output_file file)) (VBool b))
  \/ (exists size, ev = ok (path_getsize (output_file file)) (VInt size))
  \/ ev = EvPrint MsgNotCreated
  \/ exists size_mb, ev = EvPrint (MsgFileSize size_mb).
Proof.
  intros F Hin.
  destruct F; simpl in Hin;
    repeat (destruct Hin as [<- | Hin];
            [first [ left; exact I
                   | right; left; reflexivity
                   | right; right; left; reflexivity
                   | right; right; right; left; eexists; reflexivity
                   | right; right; right; right; left; eexists; reflexivity
                   | right; right; right; right; right; left; reflexivity
                   | right; right; right; right; right; right; eexists;
                     reflexivity ] |]);
    contradiction.
Qed.

(** When the output file is missing, the run ends with the error message
    and [sys.exit(1)], right after the check. *)
Lemma stage_output_missing t o :
  stage file t o -> output_missing t ->
  (exists pre,
      t = pre ++ [ok (export_call file) VNone; EvPrint MsgDone;
                  ok (path_exists (output_file file)) (VBool false);
                  EvPrint MsgNotCreated])
  /\ o = Exited 1.
Proof.
  intros S (path & Hin).
  destruct S as [t e E | objs Hobjs | objs mid e Hne Hmid Hs
                | objs mid fin o Hne Hmid Fin].
  - destruct (early_failure_In _ _ _ E Hin) as [F | [F | [F | (m & F & _)]]];
      try discriminate F. destruct F.
  - apply in_app_or in Hin. destruct Hin as [Hin | Hin].
    + destruct (imported_In _ _ Hin) as [F | [F | [F | (m & F & _)]]];
        discriminate F.
    + explicit_in Hin.
  - exfalso. apply in_app_or in Hin. destruct Hin as [Hin | Hin].
    + destruct (imported_In _ _ Hin) as [F | [F | [F | (m & F & _)]]];
        discriminate F.
    + middle_in Hmid Hin.
  - apply in_app_or in Hin. destruct Hin as [Hin | Hin].
    { destruct (imported_In _ _ Hin) as [F | [F | [F | (m & F & _)]]];
        discriminate F. }
    apply in_app_or in Hin. destruct Hin as [Hin | Hin];
      [middle_in Hmid Hin |].
    destruct Hin as [Hin | Hin]; [discriminate Hin |].
    destruct Fin; explicit_in Hin.
    split; [| reflexivity].
    exists (imported file objs ++ mid
            ++ [EvPrint (MsgExporting (output_file file))]).
    now rewrite <- !app_assoc.
Qed.

Lemma stage_exited t code :
  stage file t (Exited code) ->
  code = 1%Z /\ (zero_meshes t \/ output_missing t).
Proof.
  intros S. inversion S as [| objs Hobjs | | objs mid fin o Hne Hmid Fin];
    subst.
  - split; [reflexivity |]. left. exists objs. split; [| assumption].
    apply in_or_app. left. unfold imported. apply in_or_app. right.
    simpl. tauto.
  - inversion Fin; subst. split; [reflexivity |]. right.
    exists (output_file file).
    apply in_or_app. right. apply in_or_app. right. simpl. tauto.
Qed.

Lemma stage_returned t o :
  stage file t o ->
  (forall size_mb, In (EvPrint (MsgFileSize size_mb)) t -> o = Returned tt)
  /\ (forall a, o = Returned a ->
                exists size_mb, last_event t (EvPrint (MsgFileSize size_mb))).
Proof.
  intros S.
  destruct S as [t e E | objs Hobjs | objs mid e Hne Hmid Hs
                | objs mid fin o Hne Hmid Fin].
  - split; [| discriminate]. intros mb Hin.
    destruct (early_failure_In _ _ _ E Hin)
      as [F | [F | [F | (m & F & _ & _ & _ & G)]]];
      try discriminate F; [destruct F |].
    injection F as <-. now destruct (G mb).
  - split; [| discriminate]. intros mb Hin.
    apply in_app_or in Hin. destruct Hin as [Hin | Hin].
    + destruct (imported_In _ _ Hin)
        as [F | [F | [F | (m & F & _ & _ & _ & G)]]];
        try discriminate F.
      injection F as <-. now destruct (G mb).
    + explicit_in Hin.
  - split; [| discriminate]. intros mb Hin.
    apply in_app_or in Hin. destruct Hin as [Hin | Hin].
    + destruct (imported_In _ _ Hin)
        as [F | [F | [F | (m & F & _ & _ & _ & G)]]];
        try discriminate F.
      injection F as <-. now destruct (G mb).
    + middle_in Hmid Hin.
  - split.
    + intros mb Hin.
      apply in_app_or in Hin. destruct Hin as [Hin | Hin].
      { destruct (imported_In _ _ Hin)
          as [F | [F | [F | (m & F & _ & _ & _ & G)]]];
          try discriminate F.
        injection F as <-. now destruct (G mb). }
      apply in_app_or in Hin. destruct Hin as [Hin | Hin];
        [middle_in Hmid Hin |].
      destruct Hin as [Hin | Hin]; [discriminate Hin |].
      destruct Fin; explicit_in Hin. reflexivity.
    + intros a ->. inversion Fin; subst. exists size_mb.
      exists (imported file objs ++ mid
              ++ [EvPrint (MsgExporting (output_file file));
                  ok (export_call file) VNone; EvPrint MsgDone;
                  ok (path_exists (output_file file)) (VBool true);
                  ok (path_getsize (output_file file)) (VInt size)]).
      now rewrite <- !app_assoc.
Qed.

Lemma last_event_In t ev : last_event t ev -> In ev t.
Proof. intros (pre & ->). apply in_or_app. right. simpl. auto. Qed.

End Stages.

(** C5.  When the scene read back after the import has no mesh object, the
    run ends with exit status 1 and no export call is ever issued: its trace
    is the import followed by the error message, and stops there. *)
Theorem empty_scene_never_exports {os_path : OsPath} (file : string)
        (h : Host) (s : hstate h) :
  let '(t, o, _) := run h (main file) s in
  zero_meshes t ->
  o = Exited 1
  /\ exit_code o = Some 1%Z
  /\ (forall c r, In (EvCall c r) t -> ~ is_export c)
  /\ exists objects, t = imported file objects ++ [EvPrint MsgNoMesh].
Proof.
  destruct (run h (main file) s) as [[t o] s'] eqn:R.
  apply stage_of_run in R. intros Hz.
  destruct (stage_zero_meshes _ _ _ R Hz) as (objs & _ & -> & ->).
  split; [reflexivity |]. split; [reflexivity |]. split; [| eauto].
  intros c r Hin. apply in_app_or in Hin. destruct Hin as [Hin | Hin].
  - destruct (imported_In _ _ _ Hin) as [F | [F | [F | (m & F & _)]]];
      try discriminate F; unfold ok in F; inversion F; subst; simpl; tauto.
  - explicit_in Hin.
Qed.

(** [main] handles no exception: every host call in it is a plain
    statement. *)
Lemma unguarded_main {os_path : OsPath} (file : string) :
  unguarded (main file).
Proof.
  unfold main.
  cbn [bind ret Monad_Py Py_bind print call_host unguarded].
  intros ? ? objects.
  apply unguarded_bind; [destruct (filter is_mesh objects); exact I |].
  intros ?.
  apply unguarded_bind; [apply plain_unguarded, plain_sum_vertices |].
  intros tb. cbn [unguarded].
  apply unguarded_bind; [apply plain_unguarded, plain_decimate_loop |].
  intros ?.
  apply unguarded_bind; [apply plain_unguarded, plain_sum_vertices |].
  intros ta.
  apply unguarded_bind; [destruct (int_truediv _ _); exact I |].
  intros ratio. cbn [unguarded].
  apply unguarded_bind; [apply plain_unguarded, plain_select_all |].
  intros ?. cbn [unguarded]. intros ? [|].
  - cbn [bind ret Monad_Py Py_bind print call_host unguarded].
    intros size. destruct (int_truediv _ _); exact I.
  - exact I.
Qed.

(** C8.  The script has no exception handling: no host call of [main]
    stands in a [try].  So a host call that raises ends the run at once:
    the error leaves [main] uncaught, the failed call is the last event of
    the trace (nothing is retried, nothing else is called, no recovery is
    attempted), and the script sets no exit status.  And a host error that
    leaves [main] is the error of the call the run ended with, as the host
    raised it. *)
Theorem host_errors_propagate {os_path : OsPath} (file : string)
        (h : Host) (s : hstate h) :
  unguarded (main file)
  /\ let '(t, o, _) := run h (main file) s in
     (forall c e,
         In (failed c e) t ->
         o = Uncaught (HostError e)
         /\ exit_code o = None
         /\ exists pre,
             t = pre ++ [failed c e]
             /\ Forall (fun ev => ~ is_failure ev) pre)
     /\ (forall e, o = Uncaught (HostError e) -> ends_with_failure t e).
Proof.
  split; [apply unguarded_main |].
  destruct (run h (main file) s) as [[t o] s'] eqn:R.
  split.
  - intros c e Hin. apply run_exec in R.
    destruct (exec_failure_last _ (unguarded_main file) _ _ _ _ R Hin)
      as (-> & pre & -> & Hpre).
    split; [reflexivity |]. split; [reflexivity |]. eauto.
  - intros e0 ->. apply run_exec, main_exec in R.
    inversion R; subst.
    + exists (greeting file), (read_factory_settings true). reflexivity.
    + exists (greeting file ++ [ok (read_factory_settings true) VNone;
                                EvPrint MsgImporting]),
        (import_scene_gltf (input_file file)).
      now rewrite <- app_assoc.
    + exists (greeting file ++ [ok (read_factory_settings true) VNone;
                                EvPrint MsgImporting;
                                ok (import_scene_gltf (input_file file)) VNone]),
        scene_objects.
      now rewrite <- app_assoc.
    + apply ends_with_failure_app.
      eapply plain_ends_with_failure; [apply plain_sum_vertices | eauto].
    + do 3 apply ends_with_failure_app.
      eapply plain_ends_with_failure; [apply plain_decimate_loop | eauto].
    + do 4 apply ends_with_failure_app.
      eapply plain_ends_with_failure; [apply plain_sum_vertices | eauto].
    + exfalso.
      match goal with
      | D : int_truediv _ _ = inl _ |- _ =>
          apply int_truediv_raises in D;
          destruct D as [[_ D] | [_ D]]; discriminate D
      end.
    + do 3 apply ends_with_failure_app.
      eapply plain_ends_with_failure; [apply plain_select_all | eauto].
    + match goal with F : finish _ _ _ |- _ => inversion F; subst end.
      * do 5 apply ends_with_failure_app. exists [], (export_call file).
        reflexivity.
      * do 5 apply ends_with_failure_app.
        exists [ok (export_call file) VNone; EvPrint MsgDone],
          (path_exists (output_file file)). reflexivity.
      * do 5 apply ends_with_failure_app.
        exists [ok (export_call file) VNone; EvPrint MsgDone;
                ok (path_exists (output_file file)) (VBool true)],
          (path_getsize (output_file file)). reflexivity.
      * exfalso.
        match goal with
        | D : int_truediv _ _ = inl _ |- _ =>
            apply int_truediv_raises in D;
            destruct D as [[_ D] | [_ D]]; discriminate D
        end.
Qed.

(** ** The host calls of [main] *)

Section Calls.

Context {os_path : OsPath}.
Variable file : string.

(** The calls [main] can make. *)
Definition main_call (c : call) : Prop :=
  c = read_factory_settings true
  \/ c = import_scene_gltf (input_file file)
  \/ c = scene_objects
  \/ decimation_call c = true
  \/ c = export_call file
  \/ c = path_exists (output_file file)
  \/ c = path_getsize (output_file file).

Lemma main_call_decimation c : decimation_call c = true -> main_call c.
Proof. unfold main_call. tauto. Qed.

Lemma calls_only_weaken {A : Type} (P Q : call -> Prop) (p : Py A) :
  (forall c, P c -> Q c) -> calls_only P p -> calls_only Q p.
Proof.
  intros PQ.
  induction p as [a | e0 | code | m k IH | c0 k IH | c0 hd IHh k IH]; simpl;
    auto.
  - intros [H0 H]. split; auto.
  - intros (H0 & Hh & H). repeat split; auto.
Qed.

Lemma calls_main : calls_only main_call (main file).
Proof.
  unfold main.
  cbn [bind ret Monad_Py Py_bind print call_host calls_only].
  split; [unfold main_call; tauto |]. intros _.
  split; [unfold main_call; tauto |]. intros _.
  split; [unfold main_call; tauto |]. intros objects.
  apply calls_only_bind; [destruct (filter is_mesh objects); exact I |].
  intros _.
  apply calls_only_bind.
  { eapply calls_only_weaken; [| apply calls_sum_vertices].
    intros [] H; try destruct H. apply main_call_decimation. reflexivity. }
  intros tb. cbn [calls_only].
  apply calls_only_bind.
  { apply calls_only_for_each. intros obj _. simpl.
    repeat split; apply main_call_decimation; reflexivity. }
  intros _.
  apply calls_only_bind.
  { eapply calls_only_weaken; [| apply calls_sum_vertices].
    intros [] H; try destruct H. apply main_call_decimation. reflexivity. }
  intros ta.
  apply calls_only_bind; [destruct (int_truediv _ _); exact I |].
  intros ratio. cbn [calls_only].
  apply calls_only_bind.
  { apply calls_only_for_each. intros obj _. simpl.
    repeat split; apply main_call_decimation; reflexivity. }
  intros _. cbn [calls_only].
  split; [unfold main_call; tauto |]. intros _.
  split; [unfold main_call; tauto |]. intros [|].
  - cbn [bind ret Monad_Py Py_bind print call_host calls_only].
    split; [unfold main_call; tauto |]. intros size.
    destruct (int_truediv _ _); exact I.
  - exact I.
Qed.

Lemma run_calls (h : Host) (s : hstate h) t o s' c r :
  run h (main file) s = (t, o, s') -> In (EvCall c r) t -> main_call c.
Proof.
  intros R Hin. apply run_exec in R.
  eapply calls_only_exec; eauto using calls_main.
Qed.

End Calls.

(** ** Paths *)

Lemma string_app_inv_head (a b c : string) :
  (a ++ b)%string = (a ++ c)%string -> b = c.
Proof.
  induction a as [| x a IH]; simpl; intros H; [exact H |].
  injection H as H. auto.
Qed.

Lemma string_app_assoc (a b c : string) :
  ((a ++ b) ++ c)%string = (a ++ (b ++ c))%string.
Proof. induction a as [| x a IH]; simpl; [reflexivity | now rewrite IH]. Qed.

(** Joining a relative path onto a base keeps the base in front of it. *)
Lemma posix_join_relative (base rel : string) :
  Posix.startswith_sep rel = false ->
  Posix.join base rel = (base ++ rel)%string
  \/ Posix.join base rel = (base ++ "/" ++ rel)%string.
Proof.
  intros H. unfold Posix.join. rewrite H.
  destruct (negb (Posix.nonempty base) || Posix.endswith_sep base); auto.
Qed.

Lemma posix_join_injective (base rel rel' : string) :
  Posix.startswith_sep rel = false -> Posix.startswith_sep rel' = false ->
  Posix.join base rel = Posix.join base rel' -> rel = rel'.
Proof.
  intros H H' E. unfold Posix.join in E. rewrite H, H' in E.
  destruct (negb (Posix.nonempty base) || Posix.endswith_sep base).
  - eapply string_app_inv_head; eauto.
  - apply string_app_inv_head in E. injection E. auto.
Qed.

(** What a call shows of the file system: the path it reads, and the path
    it writes.  The import reads its file; the export writes its file; the
    two checks at the end look at a path without changing it. *)
Definition reads_path (c : call) : option string :=
  match c with
  | import_scene_gltf filepath => Some filepath
  | path_exists path | path_getsize path => Some path
  | _ => None
  end.

Definition writes_path (c : call) : option string :=
  match c with
  | export_scene_gltf filepath _ _ _ => Some filepath
  | _ => None
  end.

(** ** The file system *)

(** A file system maps paths to contents.  An event changes at most the
    file its call writes; what goes into that file is up to the host. *)
Section FileSystem.

Variable contents : Type.

Definition file_system : Type := string -> option contents.

Definition written_by (ev : event) : option string :=
  match ev with
  | EvCall c _ => writes_path c
  | EvPrint _ => None
  end.

Definition fs_step (ev : event) (fs fs' : file_system) : Prop :=
  forall path, written_by ev <> Some path -> fs' path = fs path.

Fixpoint fs_trace (t : list event) (fs fs' : file_system) : Prop :=
  match t with
  | [] => forall path, fs' path = fs path
  | ev :: t' => exists fs1, fs_step ev fs fs1 /\ fs_trace t' fs1 fs'
  end.

Lemma fs_trace_frame (t : list event) (path : string) :
  Forall (fun ev => written_by ev <> Some path) t ->
  forall fs fs', fs_trace t fs fs' -> fs' path = fs path.
Proof.
  induction 1 as [| ev t Hev Ht IH]; intros fs fs' H; simpl in H.
  - apply H.
  - destruct H as (fs1 & H1 & H2). rewrite (IH _ _ H2). apply H1, Hev.
Qed.

End FileSystem.

Arguments fs_step {contents} ev fs fs'.
Arguments fs_trace {contents} t fs fs'.
Arguments fs_trace_frame {contents} t path.

(** C10.  The script never writes its input file.  The only call of a run
    that writes to the file system is the export, and it writes the output
    path; the two path constants differ, and so do the two resolved paths;
    hence whatever the host puts into the files it writes, the input file
    is after the run what it was before. *)
Theorem input_file_untouched (cwd file : string) (h : Host) (s : hstate h) :
  let os_path := posixpath cwd in
  let '(t, _, _) := run h (main file) s in
  (forall c r path,
      In (EvCall c r) t -> writes_path c = Some path ->
      c = export_call file /\ path = output_file file)
  /\ INPUT_PATH <> OUTPUT_PATH
  /\ output_file file <> input_file file
  /\ (forall (contents : Type) (fs fs' : file_system contents),
         fs_trace t fs fs' -> fs' (input_file file) = fs (input_file file)).
Proof.
  intros os_path.
  destruct (run h (main file) s) as [[t o] s'] eqn:R.
  assert (W : forall c r path,
             In (EvCall c r) t -> writes_path c = Some path ->
             c = export_call file /\ path = output_file file).
  { intros c r path Hin Hw.
    destruct (run_calls _ _ _ _ _ _ _ _ R Hin)
      as [-> | [-> | [-> | [D | [-> | [-> | ->]]]]]]; try discriminate Hw.
    - destruct c; try discriminate D; discriminate Hw.
    - injection Hw as <-. auto. }
  assert (D : output_file file <> input_file file).
  { unfold output_file, input_file. intros E.
    apply posix_join_injective in E; [discriminate E | reflexivity | reflexivity]. }
  split; [exact W |]. split; [discriminate |]. split; [exact D |].
  intros contents fs fs' H. eapply fs_trace_frame; [| exact H].
  apply Forall_forall. intros [m | c r] Hin; simpl; [discriminate |].
  intros Hw. destruct (W _ _ _ Hin Hw) as [_ E]. now apply D.
Qed.

(** ** Where the export call sits in a run *)

Definition export_event (ev : event) : Prop :=
  match ev with
  | EvCall c _ => is_export c
  | EvPrint _ => False
  end.

Lemma first_split_unique {A : Type} (P : A -> Prop) :
  forall (l1 l2 r1 r2 : list A) (x y : A),
    l1 ++ x :: r1 = l2 ++ y :: r2 ->
    P y -> Forall (fun a => ~ P a) l1 -> Forall (fun a => ~ P a) r1 ->
    l1 = l2 /\ x = y /\ r1 = r2.
Proof.
  induction l1 as [| a l1 IH]; intros [| b l2] r1 r2 x y E Py H1 H2;
    simpl in E; injection E as E1 E2.
  - subst. auto.
  - subst. apply Forall_app in H2. destruct H2 as [_ H2].
    inversion H2; subst. contradiction.
  - subst. inversion H1; subst. contradiction.
  - subst. inversion H1; subst.
    destruct (IH _ _ _ _ _ E2 Py) as (-> & -> & ->); auto.
Qed.

Lemma middle_not_export l :
  Forall middle l -> Forall (fun ev => ~ export_event ev) l.
Proof.
  apply Forall_impl. intros [m | c r]; simpl; [tauto |].
  destruct c; simpl; intros H; try discriminate H; tauto.
Qed.

Section ExportPoint.

Context {os_path : OsPath}.
Variable file : string.

Lemma imported_not_export objects :
  Forall (fun ev => ~ export_event ev) (imported file objects).
Proof.
  unfold imported, greeting. simpl.
  repeat (constructor; [simpl; tauto |]). constructor.
Qed.

Lemma finish_head fin o :
  finish file fin o ->
  exists r rest,
    fin = EvCall (export_call file) r :: rest
    /\ Forall (fun ev => ~ export_event ev) rest.
Proof.
  intros F. destruct F; eexists; eexists; (split; [reflexivity |]);
    repeat (constructor; [simpl; tauto |]); constructor.
Qed.

(** Everything before the export call, in a run that issues one. *)
Definition before_export (objects : list Object) (befores : list N)
           (rows : list decimation) (afters : list N) (ratio : float)
  : list event :=
  imported file objects
  ++ decimated (filter is_mesh objects) befores rows afters
  ++ [EvPrint (MsgTotal (total befores) (total afters) (reduction_of ratio))]
  ++ selected (filter is_mesh objects)
  ++ [EvPrint (MsgExporting (output_file file))].

Lemma before_export_not_export objects befores rows afters ratio :
  Forall (fun ev => ~ export_event ev)
         (before_export objects befores rows afters ratio).
Proof.
  unfold before_export.
  apply Forall_app_intro; [apply imported_not_export |].
  apply Forall_app_intro;
    [apply middle_not_export, middle_decimated |].
  apply Forall_app_intro; [constructor; [simpl; tauto | constructor] |].
  apply Forall_app_intro;
    [apply middle_not_export, middle_selected |].
  constructor; [simpl; tauto | constructor].
Qed.

Lemma main_run_no_export t o :
  main_run file t o ->
  Forall (fun ev => ~ export_event ev) t
  \/ exists objects befores rows afters ratio fin,
      filter is_mesh objects <> []
      /\ length befores = length (filter is_mesh objects)
      /\ map dec_obj rows = filter is_mesh objects
      /\ length afters = length (filter is_mesh objects)
      /\ int_truediv (Z.of_N (total afters)) (Z.of_N (total befores))
         = inr ratio
      /\ finish file fin o
      /\ t = before_export objects befores rows afters ratio ++ fin.
Proof.
  intros H. destruct H.
  - left. unfold greeting. simpl.
    repeat (constructor; [simpl; tauto |]). constructor.
  - left. unfold greeting. simpl.
    repeat (constructor; [simpl; tauto |]). constructor.
  - left. unfold greeting. simpl.
    repeat (constructor; [simpl; tauto |]). constructor.
  - left. apply Forall_app_intro; [apply imported_not_export |].
    constructor; [simpl; tauto | constructor].
  - left. apply Forall_app_intro; [apply imported_not_export |].
    apply middle_not_export. eapply middle_sum_vertices; eauto.
  - left. apply Forall_app_intro; [apply imported_not_export |].
    apply middle_not_export.
    apply Forall_app_intro; [apply middle_counted |].
    apply Forall_app_intro; [repeat constructor |].
    eapply middle_decimate_loop; eauto.
  - left. apply Forall_app_intro; [apply imported_not_export |].
    apply middle_not_export.
    apply Forall_app_intro; [apply middle_counted |].
    apply Forall_app_intro; [repeat constructor |].
    apply Forall_app_intro; [apply middle_decimations |].
    eapply middle_sum_vertices; eauto.
  - left. apply Forall_app_intro; [apply imported_not_export |].
    apply middle_not_export, middle_decimated.
  - left. apply Forall_app_intro; [apply imported_not_export |].
    apply middle_not_export.
    apply Forall_app_intro; [apply middle_decimated |].
    apply Forall_app_intro; [repeat constructor |].
    eapply middle_select_all; eauto.
  - right. exists objects, befores, rows, afters, ratio, t.
    repeat (split; [assumption |]).
    unfold before_export. now rewrite <- !app_assoc.
Qed.

Lemma export_point t o pre c r post :
  main_run file t o ->
  t = pre ++ EvCall c r :: post -> is_export c ->
  exists objects befores rows afters ratio,
    filter is_mesh objects <> []
    /\ length befores = length (filter is_mesh objects)
    /\ map dec_obj rows = filter is_mesh objects
    /\ length afters = length (filter is_mesh objects)
    /\ int_truediv (Z.of_N (total afters)) (Z.of_N (total befores))
       = inr ratio
    /\ c = export_call file
    /\ pre = before_export objects befores rows afters ratio
    /\ finish file (EvCall c r :: post) o.
Proof.
  intros H E Hc.
  destruct (main_run_no_export _ _ H)
    as [N | (objects & befores & rows & afters & ratio & fin
             & Hne & Hb & Hr & Ha & Hd & F & Et)].
  - exfalso. rewrite E in N. apply Forall_app in N. destruct N as [_ N].
    inversion N; subst. simpl in *. contradiction.
  - destruct (finish_head _ _ F) as (r' & rest & Efin & Hrest).
    rewrite Et, Efin in E.
    destruct (first_split_unique export_event _ _ _ _ _ _ E)
      as (<- & Ec & <-);
      simpl; auto using before_export_not_export.
    injection Ec as <- <-.
    exists objects, befores, rows, afters, ratio.
    repeat (split; [assumption || reflexivity |]).
    rewrite <- Efin. exact F.
Qed.

End ExportPoint.

(** ** How a run ends with an exit status *)

Section ExitCases.

Context {os_path : OsPath}.
Variable file : string.

(** The scene has mesh objects, one count was read for each before the
    loop, every one of them went through the loop, one count was read for
    each after it, and the quotient of the two totals is [ratio]. *)
Definition processed (objects : list Object) (befores : list N)
           (rows : list decimation) (afters : list N) (ratio : float) : Prop :=
  filter is_mesh objects <> []
  /\ length befores = length (filter is_mesh objects)
  /\ map dec_obj rows = filter is_mesh objects
  /\ length afters = length (filter is_mesh objects)
  /\ int_truediv (Z.of_N (total afters)) (Z.of_N (total befores)) = inr ratio.

(** The run on a scene without mesh objects: reset, import, the scene, the
    error line; no count, no export. *)
Definition empty_scene_run (t : list event) : Prop :=
  exists objects,
    filter is_mesh objects = []
    /\ t = imported file objects ++ [EvPrint MsgNoMesh].

(** The run whose output file is missing: everything up to the export, the
    export call returning, [DONE!], [os.path.exists] of the output path
    replying [False], the error line. *)
Definition missing_output_run (t : list event) : Prop :=
  exists objects befores rows afters ratio,
    processed objects befores rows afters ratio
    /\ t = before_export file objects befores rows afters ratio
           ++ [ok (export_call file) VNone; EvPrint MsgDone;
               ok (path_exists (output_file file)) (VBool false);
               EvPrint MsgNotCreated].

(** The successful run: everything up to the export, the export call
    returning, [DONE!], the output file found, its size read and
    reported. *)
Definition successful_run (t : list event) : Prop :=
  exists objects befores rows afters ratio size size_mb,
    processed objects befores rows afters ratio
    /\ int_truediv (Z.of_N size) (1024 * 1024) = inr size_mb
    /\ t = before_export file objects befores rows afters ratio
           ++ [ok (export_call file) VNone; EvPrint MsgDone;
               ok (path_exists (output_file file)) (VBool true);
               ok (path_getsize (output_file file)) (VInt size);
               EvPrint (MsgFileSize size_mb)].

(** How a run begins: it fails in the reset, the import or the reading of
    the scene, or it reads the scene. *)
Definition begins (t : list event) (o : outcome unit) : Prop :=
  (exists e, early_failure file t e /\ o = Uncaught (HostError e))
  \/ exists objects rest,
      t = imported file objects ++ rest
      /\ (filter is_mesh objects = [] ->
          rest = [EvPrint MsgNoMesh] /\ o = Exited 1).

Lemma main_run_exited t :
  main_run file t (Exited 1) -> empty_scene_run t \/ missing_output_run t.
Proof.
  intros H. inversion H as [ | | | objects Hz | | | | | |
                            objects befores rows afters ratio fin o'
                              Hne Hb Hr Ha Hd Fin]; subst.
  - left. exists objects. auto.
  - right. inversion Fin; subst.
    exists objects, befores, rows, afters, ratio.
    split; [repeat split; assumption |].
    unfold before_export. now rewrite <- !app_assoc.
Qed.

Lemma main_run_returned t :
  main_run file t (Returned tt) -> successful_run t.
Proof.
  intros H. inversion H as [ | | | | | | | | |
                            objects befores rows afters ratio fin o'
                              Hne Hb Hr Ha Hd Fin]; subst.
  inversion Fin as [ | | | | | size size_mb Hs]; subst.
  exists objects, befores, rows, afters, ratio, size, size_mb.
  split; [repeat split; assumption |]. split; [exact Hs |].
  unfold before_export. now rewrite <- !app_assoc.
Qed.

Lemma main_run_begins t o : main_run file t o -> begins t o.
Proof.
  intros H. destruct H;
    try (right; exists objects; eexists; split; [reflexivity |];
         intros Hz; contradiction).
  - left. exists e. split; [left; reflexivity | reflexivity].
  - left. exists e. split; [right; left; reflexivity | reflexivity].
  - left. exists e. split; [right; right; reflexivity | reflexivity].
  - right. exists objects. eexists. split; [reflexivity |]. auto.
Qed.

Lemma empty_scene_run_zero_meshes t : empty_scene_run t -> zero_meshes t.
Proof.
  intros (objects & Hz & ->). exists objects. split; [| exact Hz].
  apply in_or_app. left. unfold imported. apply in_or_app. right.
  simpl. tauto.
Qed.

Lemma missing_output_run_output_missing t :
  missing_output_run t -> output_missing t.
Proof.
  intros (objects & befores & rows & afters & ratio & _ & ->).
  exists (output_file file). apply in_or_app. right. simpl. tauto.
Qed.

End ExitCases.

(** C1.  Which runs end with which exit status.

    The status is 0 exactly for the successful run: the scene had mesh
    objects, each was decimated, the export call returned, the output file
    was found and its size reported.  The status is 1 in exactly two cases:
    the run on a scene without mesh objects, and the run whose output file
    is missing after the export; in either case the error line is the last
    thing the run did.  Conversely, whenever the scene read after the
    import has no mesh object the run is the first of the two, and whenever
    [os.path.exists] replies [False] it is the second.  The script sets no
    other status: a run that ends otherwise ends in an uncaught exception,
    with whatever status the host gives such a process.  Every run at
    least resets the host, and reads the scene unless the reset, the import
    or the reading fails. *)
Theorem exit_codes {os_path : OsPath} (file : string)
        (h : Host) (s : hstate h) :
  let '(t, o, _) := run h (main file) s in
  (exit_code o = Some 0%Z <-> successful_run file t)
  /\ (exit_code o = Some 1%Z
      <-> empty_scene_run file t \/ missing_output_run file t)
  /\ (zero_meshes t <-> empty_scene_run file t)
  /\ (output_missing t <-> missing_output_run file t)
  /\ (empty_scene_run file t -> last_event t (EvPrint MsgNoMesh))
  /\ (missing_output_run file t -> last_event t (EvPrint MsgNotCreated))
  /\ (forall code, exit_code o = Some code -> code = 0%Z \/ code = 1%Z)
  /\ begins file t o.
Proof.
  destruct (run h (main file) s) as [[t o] s'] eqn:R.
  pose proof (stage_of_run _ _ _ _ _ _ R) as S.
  apply run_exec, main_exec in R.
  assert (E1 : exit_code o = Some 1%Z ->
               empty_scene_run file t \/ missing_output_run file t).
  { destruct o as [[] | code | e]; simpl; intros H; try discriminate H.
    injection H as ->. now apply main_run_exited. }
  assert (Z1 : zero_meshes t -> empty_scene_run file t /\ o = Exited 1).
  { intros Hz. destruct (stage_zero_meshes _ _ _ S Hz) as (objs & Ho & -> & ->).
    split; [exists objs; auto | reflexivity]. }
  assert (M1 : output_missing t -> missing_output_run file t /\ o = Exited 1).
  { intros Hm. destruct (stage_output_missing _ _ _ S Hm) as (_ & ->).
    split; [| reflexivity].
    destruct (main_run_exited _ _ R) as [Em | Mo]; [| exact Mo].
    exfalso. destruct Em as (objs & _ & ->). destruct Hm as (path & Hin).
    unfold imported, greeting in Hin. explicit_in Hin. }
  split; [| split; [| split; [| split; [| split; [| split; [| split]]]]]].
  - split.
    + destruct o as [[] | code | e]; simpl; intros H; try discriminate H.
      * now apply main_run_returned.
      * injection H as ->. destruct (stage_exited _ _ _ S) as [F _].
        discriminate F.
    + intros (objects & befores & rows & afters & ratio & size & size_mb
              & _ & _ & ->).
      destruct (stage_returned _ _ _ S) as [Ret _].
      rewrite (Ret size_mb); [reflexivity |].
      apply in_or_app. right. simpl. tauto.
  - split; [exact E1 |].
    intros [Em | Mo].
    + apply empty_scene_run_zero_meshes in Em.
      destruct (Z1 Em) as [_ ->]. reflexivity.
    + apply missing_output_run_output_missing in Mo.
      destruct (M1 Mo) as [_ ->]. reflexivity.
  - split; [intros Hz; apply (Z1 Hz) | apply empty_scene_run_zero_meshes].
  - split; [intros Hm; apply (M1 Hm) | apply missing_output_run_output_missing].
  - intros (objects & _ & ->). exists (imported file objects). reflexivity.
  - intros (objects & befores & rows & afters & ratio & _ & ->).
    exists (before_export file objects befores rows afters ratio
            ++ [ok (export_call file) VNone; EvPrint MsgDone;
                ok (path_exists (output_file file)) (VBool false)]).
    now rewrite <- app_assoc.
  - intros code H. destruct o as [a | code' | e]; simpl in H; try discriminate H.
    + injection H as <-. auto.
    + injection H as <-. destruct (stage_exited _ _ _ S) as [-> _]. auto.
  - now apply main_run_begins.
Qed.

(** ** Modifiers *)

(** The events that concern modifiers, and the choice of the object they
    are applied to. *)
Definition modifier_related (ev : event) : bool :=
  match ev with
  | EvCall (set_active _) _ | EvCall (modifiers_new _ _ _) _
  | EvCall (set_decimate_type _ _) _ | EvCall (set_ratio _ _) _
  | EvCall (set_use_collapse_triangulate _ _) _
  | EvCall (modifier_apply _) _ => true
  | _ => false
  end.

(** One mesh object made active and given its modifier: created as
    ["Decimate"], configured, and applied under that name. *)
Definition modifier_events (obj : Object) (m : Modifier) : list event :=
  [ ok (set_active obj) VNone;
    ok (modifiers_new obj "Decimate" "DECIMATE") (VModifier m);
    ok (set_decimate_type m "COLLAPSE") VNone;
    ok (set_ratio m TARGET_RATIO) VNone;
    ok (set_use_collapse_triangulate m true) VNone;
    ok (modifier_apply "Decimate") VNone ].

Lemma filter_counted f mesh_objects counts :
  (forall c r, decimation_call c = true -> is_len_vertices c ->
               f (EvCall c r) = false) ->
  filter f (counted mesh_objects counts) = [].
Proof.
  intros Hf. unfold counted.
  induction (combine mesh_objects counts) as [| [obj n] l IH]; simpl;
    [reflexivity |].
  unfold ok at 1. rewrite Hf; [exact IH | reflexivity | exact I].
Qed.

Lemma filter_selected f mesh_objects :
  (forall obj r, f (EvCall (select_set obj true) r) = false) ->
  filter f (selected mesh_objects) = [].
Proof.
  intros Hf. unfold selected.
  induction mesh_objects as [| obj l IH]; simpl; [reflexivity |].
  unfold ok at 1. now rewrite Hf.
Qed.

Lemma filter_modifier_decimations rows :
  filter modifier_related (concat (map decimate_events rows))
  = flat_map (fun d => modifier_events (dec_obj d) (dec_modifier d)) rows.
Proof.
  induction rows as [| d rows IH]; simpl; [reflexivity |].
  now rewrite IH.
Qed.

(** The literal [0.02] is the float nearest to 2/100. *)
Lemma TARGET_RATIO_value :
  TARGET_RATIO = PyFloat.div (PyFloat.of_int 2) (PyFloat.of_int 100).
Proof. vm_compute. reflexivity. Qed.

(** C2.  In a run that gets to the export call, the modifier calls made
    before it are exactly these, for the mesh objects of the imported scene
    one after the other: the object is made active, one modifier of type
    ['DECIMATE'] is created on it under the name ["Decimate"], that modifier
    is given decimate type ['COLLAPSE'], ratio 0.02 and collapse
    triangulation, and the modifier named ["Decimate"] is applied.  Nothing
    else touches a modifier before the export. *)
Theorem every_mesh_decimated_before_export {os_path : OsPath} (file : string)
        (h : Host) (s : hstate h) :
  let '(t, _, _) := run h (main file) s in
  forall pre c r post,
    t = pre ++ EvCall c r :: post -> is_export c ->
    exists objects rows,
      In (ok scene_objects (VObjects objects)) pre
      /\ map dec_obj rows = filter is_mesh objects
      /\ filter modifier_related pre
         = flat_map (fun d => modifier_events (dec_obj d) (dec_modifier d)) rows
      /\ TARGET_RATIO = PyFloat.div (PyFloat.of_int 2) (PyFloat.of_int 100).
Proof.
  destruct (run h (main file) s) as [[t o] s'] eqn:R.
  apply run_exec, main_exec in R. intros pre c r post E Hc.
  destruct (export_point _ _ _ _ _ _ _ R E Hc)
    as (objects & befores & rows & afters & ratio
        & Hne & Hb & Hr & Ha & Hd & -> & -> & F).
  exists objects, rows.
  split.
  { unfold before_export, imported. apply in_or_app. left.
    apply in_or_app. right. simpl. tauto. }
  split; [exact Hr |]. split; [| apply TARGET_RATIO_value].
  unfold before_export, decimated.
  rewrite !filter_app, filter_modifier_decimations.
  rewrite !filter_counted by (intros [] ? ? ?; simpl in *; tauto).
  rewrite filter_selected by reflexivity.
  simpl. now rewrite !app_nil_r.
Qed.

(** ** Selection *)

Definition Object_eqb (a b : Object) : bool :=
  String.eqb (obj_name a) (obj_name b) && String.eqb (obj_type a) (obj_type b).

Lemma Object_eqb_refl a : Object_eqb a a = true.
Proof. unfold Object_eqb. now rewrite !String.eqb_refl. Qed.

(** The selection state of [obj] a trace leaves: what the last successful
    [select_set] on it said, if there was one. *)
Definition select_step (obj : Object) (st : option bool) (ev : event)
  : option bool :=
  match ev with
  | EvCall (select_set o b) (inr _) => if Object_eqb o obj then Some b else st
  | _ => st
  end.

Definition selection (t : list event) (obj : Object) : option bool :=
  fold_left (select_step obj) t None.

Lemma select_all_keeps obj mesh_objects :
  fold_left (select_step obj) (selected mesh_objects) (Some true) = Some true.
Proof.
  induction mesh_objects as [| o l IH]; simpl; [reflexivity |].
  destruct (Object_eqb o obj); exact IH.
Qed.

Lemma select_all_selects obj mesh_objects st :
  In obj mesh_objects ->
  fold_left (select_step obj) (selected mesh_objects) st = Some true.
Proof.
  revert st. induction mesh_objects as [| o l IH]; intros st Hin;
    [destruct Hin |].
  simpl. destruct Hin as [-> | Hin].
  - rewrite Object_eqb_refl. apply select_all_keeps.
  - destruct (Object_eqb o obj); [apply select_all_keeps | apply IH, Hin].
Qed.

(** C7.  The export call of a run is
    [export_scene_gltf(filepath=output_file, export_format='GLB',
    use_selection=True, export_apply=True)].  When it is issued, every mesh
    object of the imported scene has been decimated, and has been selected
    again after the loop, so that it is selected at that moment. *)
Theorem export_writes_selected_meshes {os_path : OsPath} (file : string)
        (h : Host) (s : hstate h) :
  let '(t, _, _) := run h (main file) s in
  forall pre c r post,
    t = pre ++ EvCall c r :: post -> is_export c ->
    c = export_scene_gltf (output_file file) "GLB" true true
    /\ exists objects rows head tail,
        In (ok scene_objects (VObjects objects)) head
        /\ map dec_obj rows = filter is_mesh objects
        /\ pre = head ++ concat (map decimate_events rows) ++ tail
                 ++ selected (filter is_mesh objects)
                 ++ [EvPrint (MsgExporting (output_file file))]
        /\ forall obj,
            In obj (filter is_mesh objects) -> selection pre obj = Some true.
Proof.
  destruct (run h (main file) s) as [[t o] s'] eqn:R.
  apply run_exec, main_exec in R. intros pre c r post E Hc.
  destruct (export_point _ _ _ _ _ _ _ R E Hc)
    as (objects & befores & rows & afters & ratio
        & Hne & Hb & Hr & Ha & Hd & -> & -> & F).
  split; [reflexivity |].
  exists objects, rows.
  exists (imported file objects
          ++ counted (filter is_mesh objects) befores
          ++ [EvPrint (MsgFound (length (filter is_mesh objects))
                                (total befores))]).
  exists (counted (filter is_mesh objects) afters
          ++ [EvPrint (MsgTotal (total befores) (total afters)
                                (reduction_of ratio))]).
  split.
  { apply in_or_app. left. unfold imported. apply in_or_app. right.
    simpl. tauto. }
  split; [exact Hr |].
  split.
  { unfold before_export, decimated. now rewrite <- !app_assoc. }
  intros obj Hin. unfold selection, before_export.
  rewrite !app_assoc. rewrite fold_left_app. simpl.
  rewrite fold_left_app. apply select_all_selects, Hin.
Qed.

(** ** The two report lines *)

Definition report_message (m : message) : bool :=
  match m with
  | MsgFound _ _ | MsgTotal _ _ _ => true
  | _ => false
  end.

Definition no_report (ev : event) : Prop :=
  match ev with
  | EvPrint m => report_message m = false
  | EvCall _ _ => True
  end.

Lemma no_report_In l m :
  Forall no_report l -> In (EvPrint m) l -> report_message m = false.
Proof. intros H Hin. exact (proj1 (Forall_forall _ _) H _ Hin). Qed.

Lemma no_report_counted mesh_objects counts :
  Forall no_report (counted mesh_objects counts).
Proof.
  unfold counted. apply Forall_map, Forall_forall. intros on _. exact I.
Qed.

Lemma no_report_selected mesh_objects :
  Forall no_report (selected mesh_objects).
Proof.
  unfold selected. apply Forall_map, Forall_forall. intros on _. exact I.
Qed.

Lemma no_report_decimations rows :
  Forall no_report (concat (map decimate_events rows)).
Proof.
  apply Forall_concat, Forall_map, Forall_forall. intros d _.
  unfold decimate_events. repeat (constructor; [simpl; auto |]). constructor.
Qed.

Lemma no_report_sum_vertices mesh_objects acc t o :
  exec (sum_vertices acc mesh_objects) t o -> Forall no_report t.
Proof.
  intros H.
  eapply Forall_impl;
    [| eapply exec_events;
       [apply calls_sum_vertices | apply prints_sum_vertices | exact H]].
  intros [m | c r]; simpl; tauto.
Qed.

Lemma no_report_decimate_loop mesh_objects t o :
  exec (for_each mesh_objects decimate) t o -> Forall no_report t.
Proof.
  intros H.
  apply (exec_events (fun _ => True) (fun m => report_message m = false)) in H.
  - eapply Forall_impl; [| exact H]. intros [m | c r]; simpl; tauto.
  - apply calls_only_for_each. intros obj _. simpl. tauto.
  - apply prints_only_for_each. intros obj _. simpl. tauto.
Qed.

Lemma no_report_select_all mesh_objects t o :
  exec (select_all mesh_objects) t o -> Forall no_report t.
Proof.
  intros H.
  apply (exec_events (fun _ => True) (fun m => report_message m = false)) in H.
  - eapply Forall_impl; [| exact H]. intros [m | c r]; simpl; tauto.
  - apply calls_only_for_each. intros obj _. simpl. tauto.
  - apply prints_only_for_each. intros obj _. simpl. tauto.
Qed.

Section Reports.

Context {os_path : OsPath}.
Variable file : string.

Lemma no_report_imported objects : Forall no_report (imported file objects).
Proof.
  unfold imported, greeting. simpl.
  repeat (constructor; [simpl; auto |]). constructor.
Qed.

Lemma no_report_finish fin o : finish file fin o -> Forall no_report fin.
Proof.
  intros F. destruct F; repeat (constructor; [simpl; auto |]); constructor.
Qed.

(** How a run that printed the "Found" line went on. *)
Inductive after_found (befores : list N) (t : list event)
  : outcome unit -> Prop :=
| host_failed_after_found e :
    ends_with_failure t e -> after_found befores t (Uncaught (HostError e))
| division_raised afters e :
    int_truediv (Z.of_N (total afters)) (Z.of_N (total befores)) = inl e ->
    Forall (fun ev => ~ is_failure ev) t ->
    after_found befores t (Uncaught e)
| division_done afters ratio o :
    int_truediv (Z.of_N (total afters)) (Z.of_N (total befores)) = inr ratio ->
    (o = Returned tt \/ o = Exited 1
     \/ (exists e, o = Uncaught (HostError e))
     \/ o = Uncaught OverflowError) ->
    after_found befores t o.

Lemma finish_outcome fin o :
  finish file fin o ->
  o = Returned tt \/ o = Exited 1
  \/ (exists e, o = Uncaught (HostError e)) \/ o = Uncaught OverflowError.
Proof.
  intros F. destruct F; eauto.
  match goal with
  | D : int_truediv _ _ = inl _ |- _ =>
      apply int_truediv_raises in D; destruct D as [[D _] | [_ ->]];
      [discriminate D | auto]
  end.
Qed.

End Reports.

Ltac split_in Hin :=
  repeat match type of Hin with
         | In _ (_ ++ _) => apply in_app_or in Hin; destruct Hin as [Hin | Hin]
         end.

Ltac no_report_in Hin :=
  let K := fresh "K" in
  first
    [ pose proof (no_report_In _ _ (no_report_imported _ _) Hin) as K
    | pose proof (no_report_In _ _ (no_report_counted _ _) Hin) as K
    | pose proof (no_report_In _ _ (no_report_decimations _) Hin) as K
    | pose proof (no_report_In _ _ (no_report_selected _) Hin) as K
    | match goal with
      | H : exec (sum_vertices _ _) _ _ |- _ =>
          pose proof (no_report_In _ _ (no_report_sum_vertices _ _ _ _ H) Hin)
            as K
      end
    | match goal with
      | H : exec (for_each _ decimate) _ _ |- _ =>
          pose proof (no_report_In _ _ (no_report_decimate_loop _ _ _ H) Hin)
            as K
      end
    | match goal with
      | H : exec (select_all _) _ _ |- _ =>
          pose proof (no_report_In _ _ (no_report_select_all _ _ _ H) Hin) as K
      end
    | match goal with
      | H : finish _ _ _ |- _ =>
          pose proof (no_report_In _ _ (no_report_finish _ _ _ H) Hin) as K
      end ];
  discriminate K.

Section ReportPoints.

Context {os_path : OsPath}.
Variable file : string.

Lemma no_failure_imported objects :
  Forall (fun ev => ~ is_failure ev) (imported file objects).
Proof.
  unfold imported, greeting. simpl.
  repeat (constructor; [simpl; tauto |]). constructor.
Qed.

Lemma found_point t o n tb :
  main_run file t o -> In (EvPrint (MsgFound n tb)) t ->
  exists objects befores rest,
    filter is_mesh objects <> []
    /\ n = length (filter is_mesh objects)
    /\ length befores = length (filter is_mesh objects)
    /\ tb = total befores
    /\ t = imported file objects
           ++ counted (filter is_mesh objects) befores
           ++ EvPrint (MsgFound n tb) :: rest
    /\ after_found befores t o.
Proof.
  intros H Hin. destruct H; try unfold decimated in Hin; split_in Hin;
    try (unfold greeting in Hin; explicit_in Hin);
    try no_report_in Hin.
  - (* the loop failed *)
    injection Hin as <- <-. exists objects, befores, t.
    repeat (split; [assumption || reflexivity |]).
    apply host_failed_after_found. do 3 apply ends_with_failure_app.
    eapply plain_ends_with_failure; [apply plain_decimate_loop | eauto].
  - (* the second count failed *)
    injection Hin as <- <-. exists objects, befores.
    eexists. repeat (split; [assumption || reflexivity |]).
    apply host_failed_after_found. do 4 apply ends_with_failure_app.
    eapply plain_ends_with_failure; [apply plain_sum_vertices | eauto].
  - (* the division raised *)
    injection Hin as <- <-. exists objects, befores.
    eexists. split; [assumption |]. split; [reflexivity |].
    split; [assumption |]. split; [reflexivity |].
    split; [unfold decimated; reflexivity |].
    eapply division_raised; eauto.
    apply Forall_app_intro;
      [apply no_failure_imported | apply no_failure_decimated].
  - (* selecting failed *)
    injection Hin as <- <-. exists objects, befores.
    eexists. split; [assumption |]. split; [reflexivity |].
    split; [assumption |]. split; [reflexivity |].
    split; [unfold decimated; rewrite <- !app_assoc; reflexivity |].
    eapply division_done; eauto.
  - (* the export was reached *)
    injection Hin as <- <-. exists objects, befores.
    eexists. split; [assumption |]. split; [reflexivity |].
    split; [assumption |]. split; [reflexivity |].
    split; [unfold decimated; rewrite <- !app_assoc; reflexivity |].
    eapply division_done; eauto. eapply finish_outcome; eauto.
Qed.

Lemma total_point t o tb ta reduction :
  main_run file t o -> In (EvPrint (MsgTotal tb ta reduction)) t ->
  exists objects befores rows afters ratio rest,
    filter is_mesh objects <> []
    /\ length befores = length (filter is_mesh objects)
    /\ map dec_obj rows = filter is_mesh objects
    /\ length afters = length (filter is_mesh objects)
    /\ tb = total befores
    /\ ta = total afters
    /\ int_truediv (Z.of_N ta) (Z.of_N tb) = inr ratio
    /\ reduction = reduction_of ratio
    /\ t = imported file objects
           ++ counted (filter is_mesh objects) befores
           ++ [EvPrint (MsgFound (length (filter is_mesh objects)) tb)]
           ++ concat (map decimate_events rows)
           ++ counted (filter is_mesh objects) afters
           ++ EvPrint (MsgTotal tb ta reduction) :: rest.
Proof.
  intros H Hin. destruct H; try unfold decimated in Hin; split_in Hin;
    try (unfold greeting in Hin; explicit_in Hin);
    try no_report_in Hin.
  - injection Hin as <- <- <-.
    exists objects, befores, rows, afters, ratio. eexists.
    repeat (split; [assumption || reflexivity |]).
    unfold decimated. rewrite <- !app_assoc. reflexivity.
  - injection Hin as <- <- <-.
    exists objects, befores, rows, afters, ratio. eexists.
    repeat (split; [assumption || reflexivity |]).
    unfold decimated. rewrite <- !app_assoc. reflexivity.
Qed.

End ReportPoints.

(** C9.  The division that computes the reduction is not guarded.  Take a
    run that printed its "Found" line, that is, one whose scene has at least
    one mesh object and whose vertex counts before the loop were all read;
    the total on that line is their sum.  If that total is zero the run
    never ends with an exit status: it ends in an uncaught exception, which
    is [ZeroDivisionError] whenever every host call of the run succeeded
    (and the error of the failing host call otherwise).  If the total is
    positive, [ZeroDivisionError] is never raised. *)
Theorem division_unguarded {os_path : OsPath} (file : string)
        (h : Host) (s : hstate h) :
  let '(t, o, _) := run h (main file) s in
  forall n tb,
    In (EvPrint (MsgFound n tb)) t ->
    (exists objects befores rest,
        filter is_mesh objects <> []
        /\ n = length (filter is_mesh objects)
        /\ length befores = length (filter is_mesh objects)
        /\ tb = total befores
        /\ t = imported file objects
               ++ counted (filter is_mesh objects) befores
               ++ EvPrint (MsgFound n tb) :: rest)
    /\ (tb = 0%N ->
        exit_code o = None
        /\ (Forall (fun ev => ~ is_failure ev) t ->
            o = Uncaught ZeroDivisionError)
        /\ (o = Uncaught ZeroDivisionError
            \/ exists e, o = Uncaught (HostError e) /\ ends_with_failure t e))
    /\ (tb <> 0%N -> o <> Uncaught ZeroDivisionError).
Proof.
  destruct (run h (main file) s) as [[t o] s'] eqn:R.
  apply run_exec, main_exec in R. intros n tb Hin.
  destruct (found_point _ _ _ _ _ R Hin)
    as (objects & befores & rest & Hne & Hn & Hb & Htb & Et & A).
  split; [exists objects, befores, rest; auto |].
  rewrite Htb. clear Hin Et.
  split.
  - intros Hz.
    assert (C : o = Uncaught ZeroDivisionError
                \/ exists e, o = Uncaught (HostError e) /\ ends_with_failure t e).
    { destruct A as [e He | afters e Hd Hf | afters ratio o Hd Ho].
      - right. eauto.
      - left. rewrite Hz, int_truediv_zero in Hd. injection Hd as <-.
        reflexivity.
      - rewrite Hz, int_truediv_zero in Hd. discriminate Hd. }
    split; [| split; [| exact C]].
    + destruct C as [-> | (e & -> & _)]; reflexivity.
    + intros Hf. destruct C as [-> | (e & -> & pre & c & ->)]; [reflexivity |].
      apply Forall_app in Hf. destruct Hf as [_ Hf]. inversion Hf; subst.
      simpl in *. tauto.
  - intros Hnz. destruct A as [e He | afters e Hd Hf | afters ratio o Hd Ho].
    + discriminate.
    + apply int_truediv_raises in Hd. destruct Hd as [[Hd _] | [_ ->]];
        [| discriminate]. lia.
    + destruct Ho as [-> | [-> | [(e & ->) | ->]]]; discriminate.
Qed.

(** * The vertex counts the loop logs *)

(** ** The host's side *)

(** Modelled from the spec: the host application's decimation operator,
    which the script only calls and which is not part of this repository.
    The glossary describes decimation as "a mesh-simplification operation
    that reduces vertex/face count", and the target ratio as the "fraction
    of original vertex count retained after decimation".  The contract is
    about one iteration of the script's loop and nothing else: when the
    host has served, from any state, the eight calls of an iteration on an
    object (its vertex count [n] read, the object made active and
    selected, a modifier of type DECIMATE added under the name
    ["Decimate"], set to COLLAPSE with the target ratio and collapse
    triangulation, and applied), the vertex count [n'] of that object read
    next is at most [n]. *)
Definition never_adds_vertices (h : Host) : Prop :=
  forall (obj : Object) (m : Modifier) (n n' : N)
         (s s1 s2 s3 s4 s5 s6 s7 s8 s9 : hstate h),
    respond h (len_vertices obj) s = (inr n, s1) ->
    respond h (set_active obj) s1 = (inr tt, s2) ->
    respond h (select_set obj true) s2 = (inr tt, s3) ->
    respond h (modifiers_new obj "Decimate" "DECIMATE") s3 = (inr m, s4) ->
    respond h (set_decimate_type m "COLLAPSE") s4 = (inr tt, s5) ->
    respond h (set_ratio m TARGET_RATIO) s5 = (inr tt, s6) ->
    respond h (set_use_collapse_triangulate m true) s6 = (inr tt, s7) ->
    respond h (modifier_apply "Decimate") s7 = (inr tt, s8) ->
    respond h (len_vertices obj) s8 = (inr n', s9) ->
    (n' <= n)%N.

(** ** The script's side *)

(** The pairs of counts a trace logs: every "After" line, with the
    "Processing" line of its iteration ([last] is the one still open). *)
Fixpoint logged_counts (last : option (string * N)) (t : list event)
  : list (option (string * N) * N) :=
  match t with
  | [] => []
  | EvPrint (MsgProcessing name verts) :: t' =>
      logged_counts (Some (name, verts)) t'
  | EvPrint (MsgAfter verts') :: t' => (last, verts') :: logged_counts None t'
  | _ :: t' => logged_counts last t'
  end.

Definition after_le_before (p : option (string * N) * N) : Prop :=
  exists name verts, fst p = Some (name, verts) /\ (snd p <= verts)%N.

Lemma logged_counts_app t1 t2 last :
  exists last',
    logged_counts last (t1 ++ t2)
    = logged_counts last t1 ++ logged_counts last' t2.
Proof.
  revert last. induction t1 as [| ev t1 IH]; intros last; simpl.
  - exists last. reflexivity.
  - destruct ev as [m | c r]; [| apply IH].
    destruct m; try apply IH.
    destruct (IH None) as (last' & ->). exists last'. reflexivity.
Qed.

Lemma run_bind {A B : Type} (h : Host) (p : Py A) (f : A -> Py B) :
  forall s,
    run h (Py_bind p f) s
    = match run h p s with
      | (t1, Returned a, s1) =>
          let '(t2, o, s2) := run h (f a) s1 in (t1 ++ t2, o, s2)
      | (t1, Exited code, s1) => (t1, Exited code, s1)
      | (t1, Uncaught e, s1) => (t1, Uncaught e, s1)
      end.
Proof.
  induction p as [a | e | code | m k IH | c k IH | c hd IHh k IH];
    intros s; simpl.
  - destruct (run h (f a) s) as [[t2 o] s2]. reflexivity.
  - reflexivity.
  - reflexivity.
  - rewrite IH. destruct (run h k s) as [[t1 [a | code | e]] s1].
    + destruct (run h (f a) s1) as [[t2 o] s2]. reflexivity.
    + reflexivity.
    + reflexivity.
  - destruct (respond h c s) as [[e | r] s1]; [reflexivity |].
    rewrite IH. destruct (run h (k r) s1) as [[t1 [a | code | e]] s2].
    + destruct (run h (f a) s2) as [[t2 o] s3]. reflexivity.
    + reflexivity.
    + reflexivity.
  - destruct (respond h c s) as [[e | r] s1].
    + rewrite IHh. destruct (run h (hd e) s1) as [[t1 [a | code | e']] s2].
      * destruct (run h (f a) s2) as [[t2 o] s3]. reflexivity.
      * reflexivity.
      * reflexivity.
    + rewrite IH. destruct (run h (k r) s1) as [[t1 [a | code | e]] s2].
      * destruct (run h (f a) s2) as [[t2 o] s3]. reflexivity.
      * reflexivity.
      * reflexivity.
Qed.

Definition trace_of {A : Type} (h : Host) (p : Py A) (s : hstate h)
  : list event :=
  fst (fst (run h p s)).

(** Against [h], whatever [p] logs is in order, wherever it starts. *)
Definition logs_in_order {A : Type} (h : Host) (p : Py A) : Prop :=
  forall s last, Forall after_le_before (logged_counts last (trace_of h p s)).

Section LogsInOrder.

Variable h : Host.

Lemma logs_ret {A : Type} (a : A) : logs_in_order h (Ret a).
Proof. intros s last. constructor. Qed.

Lemma logs_raise {A : Type} (e : exn) : logs_in_order h (@Raise A e).
Proof. intros s last. constructor. Qed.

Lemma logs_exit {A : Type} (code : Z) : logs_in_order h (@SysExit A code).
Proof. intros s last. constructor. Qed.

Lemma logs_print {A : Type} (m : message) (k : Py A) :
  (forall verts, m <> MsgAfter verts) ->
  logs_in_order h k -> logs_in_order h (Print m k).
Proof.
  intros Hm Hk s last. unfold trace_of. simpl.
  specialize (Hk s). unfold trace_of in Hk.
  destruct (run h k s) as [[t o] s1]. simpl in *.
  destruct m; try apply Hk. now destruct (Hm verts).
Qed.

Lemma logs_call {A : Type} (c : call) (k : reply c -> Py A) :
  (forall r, logs_in_order h (k r)) -> logs_in_order h (Call c k).
Proof.
  intros Hk s last. unfold trace_of. simpl.
  destruct (respond h c s) as [[e | r] s1]; simpl; [constructor |].
  specialize (Hk r s1 last). unfold trace_of in Hk.
  destruct (run h (k r) s1) as [[t o] s2]. exact Hk.
Qed.

Lemma logs_bind {A B : Type} (p : Py A) (f : A -> Py B) :
  logs_in_order h p -> (forall a, logs_in_order h (f a)) ->
  logs_in_order h (Py_bind p f).
Proof.
  intros Hp Hf s last. unfold trace_of. rewrite run_bind.
  specialize (Hp s last). unfold trace_of in Hp.
  destruct (run h p s) as [[t1 [a | code | e]] s1]; simpl in *; try exact Hp.
  destruct (logged_counts_app t1 (trace_of h (f a) s1) last) as (last' & E).
  specialize (Hf a s1 last'). unfold trace_of in Hf, E.
  destruct (run h (f a) s1) as [[t2 o] s2]. simpl in *.
  rewrite E. apply Forall_app_intro; assumption.
Qed.

Lemma logs_for_each {A : Type} (l : list A) (body : A -> Py unit) :
  (forall x, logs_in_order h (body x)) -> logs_in_order h (for_each l body).
Proof.
  intros Hb. induction l as [| x l IH]; simpl.
  - apply logs_ret.
  - apply logs_bind; auto.
Qed.

Lemma logs_sum_vertices mesh_objects :
  forall acc, logs_in_order h (sum_vertices acc mesh_objects).
Proof.
  induction mesh_objects as [| obj rest IH]; intros acc; simpl.
  - apply logs_ret.
  - apply logs_call. intros n. apply IH.
Qed.

Hypothesis host_decimates : never_adds_vertices h.

(** One iteration: the count read after the modifier was applied is at
    most the count read at the start. *)
Lemma logs_decimate obj : logs_in_order h (decimate obj).
Proof.
  intros s0 last. unfold trace_of, decimate.
  cbn [bind ret Monad_Py Py_bind print call_host run].
  destruct (respond h (len_vertices obj) s0) as [[e | n] s1] eqn:E1;
    [constructor |].
  destruct (respond h (set_active obj) s1) as [[e | r2] s2] eqn:E2;
    [constructor |].
  destruct (respond h (select_set obj true) s2) as [[e | r3] s3] eqn:E3;
    [constructor |].
  destruct (respond h (modifiers_new obj "Decimate" "DECIMATE") s3)
    as [[e | m] s4] eqn:E4; [constructor |].
  destruct (respond h (set_decimate_type m "COLLAPSE") s4)
    as [[e | r5] s5] eqn:E5; [constructor |].
  destruct (respond h (set_ratio m TARGET_RATIO) s5)
    as [[e | r6] s6] eqn:E6; [constructor |].
  destruct (respond h (set_use_collapse_triangulate m true) s6)
    as [[e | r7] s7] eqn:E7; [constructor |].
  destruct (respond h (modifier_apply "Decimate") s7)
    as [[e | r8] s8] eqn:E8; [constructor |].
  destruct (respond h (len_vertices obj) s8) as [[e | n'] s9] eqn:E9;
    [constructor |].
  assert (Hle : (n' <= n)%N).
  { destruct r2, r3, r5, r6, r7, r8.
    exact (host_decimates obj m n n' s0 s1 s2 s3 s4 s5 s6 s7 s8 s9
                          E1 E2 E3 E4 E5 E6 E7 E8 E9). }
  destruct (respond h (select_set obj false) s9) as [[e | r10] s10];
    simpl; (constructor; [| constructor]);
    exists (obj_name obj), n; auto.
Qed.

End LogsInOrder.

Lemma logs_main {os_path : OsPath} (file : string) (h : Host) :
  never_adds_vertices h -> logs_in_order h (main file).
Proof.
  intros Hh. unfold main.
  cbn [bind ret Monad_Py Py_bind print call_host].
  apply logs_print; [discriminate |].
  apply logs_print; [discriminate |].
  apply logs_print; [discriminate |].
  apply logs_call. intros ?; cbn beta.
  apply logs_print; [discriminate |].
  apply logs_call. intros ?; cbn beta.
  apply logs_call. intros objects.
  apply logs_bind.
  { destruct (filter is_mesh objects).
    - apply logs_print; [discriminate | apply logs_exit].
    - apply logs_ret. }
  intros ?; cbn beta. apply logs_bind; [apply logs_sum_vertices |].
  intros tb. apply logs_print; [discriminate |].
  apply logs_bind; [apply logs_for_each, logs_decimate, Hh |].
  intros ?; cbn beta. apply logs_bind; [apply logs_sum_vertices |].
  intros ta. apply logs_bind.
  { destruct (int_truediv _ _); [apply logs_raise | apply logs_ret]. }
  intros ratio. apply logs_print; [discriminate |].
  apply logs_bind.
  { apply logs_for_each. intros obj. apply logs_call. intros ?; cbn beta.
    apply logs_ret. }
  intros ?; cbn beta. apply logs_print; [discriminate |].
  apply logs_call. intros ?; cbn beta.
  apply logs_print; [discriminate |].
  apply logs_call. intros [|].
  - cbn [bind ret Monad_Py Py_bind print call_host].
    apply logs_call. intros size.
    destruct (int_truediv _ _); cbn [lift_exn Py_bind];
      [apply logs_raise |].
    apply logs_print; [discriminate | apply logs_ret].
  - apply logs_print; [discriminate | apply logs_exit].
Qed.

(** C6.  Against a host whose decimation never adds vertices, the counts
    the loop logs are in order: every "After" line of a run belongs to an
    iteration whose "Processing" line was printed before it, and the count
    it shows is at most the count shown there. *)
Theorem logged_after_le_before {os_path : OsPath} (file : string)
        (h : Host) (s : hstate h) :
  never_adds_vertices h ->
  let '(t, _, _) := run h (main file) s in
  Forall after_le_before (logged_counts None t).
Proof.
  intros Hh. pose proof (logs_main file h Hh s None) as L.
  unfold trace_of in L. destruct (run h (main file) s) as [[t o] s'].
  exact L.
Qed.

(** * Binary64 arithmetic, in exact fractions

    The value of a float as a fraction, and what the three operations of
    the reduction (an int/int true division, a subtraction and a
    multiplication) do to it: each returns the exact result rounded to
    nearest, so it is off by at most one part in [2^53] (or by [2^-1075]
    for results too small for that). *)

Local Open Scope Q_scope.

Definition pow2 (e : Z) : Q := 2 ^ e.

Lemma pow2_pos e : 0 < pow2 e.
Proof. unfold pow2. apply Qpower_0_lt. reflexivity. Qed.

Lemma pow2_add a b : pow2 (a + b) == pow2 a * pow2 b.
Proof. unfold pow2. apply Qpower_plus. discriminate. Qed.

Lemma pow2_le a b : (a <= b)%Z -> pow2 a <= pow2 b.
Proof. intros H. unfold pow2. apply Qpower_le_compat_l; [exact H | discriminate]. Qed.

Lemma pow2_lt a b : (a < b)%Z -> pow2 a < pow2 b.
Proof. intros H. unfold pow2. apply Qpower_lt_compat_l; [exact H | reflexivity]. Qed.

Lemma pow2_inject n : (0 <= n)%Z -> pow2 n == inject_Z (2 ^ n).
Proof. intros H. unfold pow2. rewrite Zpower_Qpower by exact H. reflexivity. Qed.

Lemma pow2_succ e : pow2 (e + 1) == 2 * pow2 e.
Proof. rewrite pow2_add. unfold pow2 at 2. simpl. lra. Qed.

Lemma pow2_pred e : pow2 (e - 1) == pow2 e * (1 # 2).
Proof.
  assert (H : pow2 e == 2 * pow2 (e - 1)).
  { rewrite <- pow2_succ. replace (e - 1 + 1)%Z with e by lia. reflexivity. }
  rewrite H. lra.
Qed.

Lemma digits2_pos_bounds p :
  (2 ^ (Zpos (digits2_pos p) - 1) <= Zpos p < 2 ^ Zpos (digits2_pos p))%Z.
Proof.
  induction p as [p IH | p IH |]; simpl digits2_pos.
  - rewrite Pos2Z.inj_succ. replace (Z.succ (Zpos (digits2_pos p)) - 1)%Z
      with (Z.succ (Zpos (digits2_pos p) - 1)) by lia.
    rewrite !Z.pow_succ_r by lia. lia.
  - rewrite Pos2Z.inj_succ. replace (Z.succ (Zpos (digits2_pos p)) - 1)%Z
      with (Z.succ (Zpos (digits2_pos p) - 1)) by lia.
    rewrite !Z.pow_succ_r by lia. lia.
  - simpl. lia.
Qed.

Lemma Zdigits2_bounds m :
  (0 < m)%Z -> (2 ^ (Zdigits2 m - 1) <= m < 2 ^ Zdigits2 m)%Z.
Proof.
  destruct m as [| p | p]; try lia. intros _. apply digits2_pos_bounds.
Qed.

Lemma Zdigits2_nonneg m : (0 <= Zdigits2 m)%Z.
Proof. destruct m; simpl; lia. Qed.

(** Where [x] lies between [m] and [m + 1], as the two bits say. *)
Definition located (x : Q) (r : shr_record) : Prop :=
  let m := inject_Z (shr_m r) in
  match shr_r r, shr_s r with
  | false, false => x == m
  | false, true => m < x /\ x < m + (1 # 2)
  | true, false => x == m + (1 # 2)
  | true, true => m + (1 # 2) < x /\ x < m + 1
  end.

Lemma located_ext x y r : x == y -> located x r -> located y r.
Proof.
  intros E. unfold located. destruct (shr_r r), (shr_s r); rewrite E; auto.
Qed.

Lemma located_bounds x r :
  located x r -> inject_Z (shr_m r) <= x /\ x < inject_Z (shr_m r) + 1.
Proof.
  unfold located. destruct (shr_r r), (shr_s r); intros H; lra.
Qed.

Lemma inject_Z_xO p : inject_Z (Zpos p~0) == 2 * inject_Z (Zpos p).
Proof. rewrite Pos2Z.inj_xO, inject_Z_mult. reflexivity. Qed.

Lemma inject_Z_xI p : inject_Z (Zpos p~1) == 2 * inject_Z (Zpos p) + 1.
Proof. rewrite Pos2Z.inj_xI, inject_Z_plus, inject_Z_mult. reflexivity. Qed.

Lemma shr_1_located x r :
  (0 <= shr_m r)%Z -> located x r ->
  located (x * (1 # 2)) (shr_1 r) /\ (0 <= shr_m (shr_1 r))%Z.
Proof.
  destruct r as [m r s]. simpl. intros Hm H.
  destruct m as [| p | p]; [| | lia].
  - unfold located in *. simpl in *.
    destruct r, s; simpl; split; try lia;
      change (inject_Z 0) with 0 in *; lra.
  - destruct p as [p | p |]; unfold located in *; simpl in *.
    + pose proof (inject_Z_xI p) as E.
      destruct r, s; simpl; split; try lia; lra.
    + pose proof (inject_Z_xO p) as E.
      destruct r, s; simpl; split; try lia; lra.
    + change (inject_Z 1) with 1 in *. change (inject_Z 0) with 0.
      destruct r, s; simpl; split; try lia; lra.
Qed.

Lemma iter_shr_1_located n :
  forall x r,
    (0 <= shr_m r)%Z -> located x r ->
    located (x * pow2 (- Zpos n)) (iter_pos shr_1 n r)
    /\ (0 <= shr_m (iter_pos shr_1 n r))%Z.
Proof.
  induction n as [n IH | n IH |]; intros x r Hm H; simpl iter_pos.
  - destruct (shr_1_located _ _ Hm H) as [H1 Hm1].
    destruct (IH _ _ Hm1 H1) as [H2 Hm2].
    destruct (IH _ _ Hm2 H2) as [H3 Hm3].
    split; [| exact Hm3]. eapply located_ext; [| exact H3].
    replace (- Zpos n~1)%Z with (- Zpos n + - Zpos n + -1)%Z by lia.
    rewrite !pow2_add. change (pow2 (-1)) with (1 # 2). ring.
  - destruct (IH _ _ Hm H) as [H2 Hm2].
    destruct (IH _ _ Hm2 H2) as [H3 Hm3].
    split; [| exact Hm3]. eapply located_ext; [| exact H3].
    replace (- Zpos n~0)%Z with (- Zpos n + - Zpos n)%Z by lia.
    rewrite !pow2_add. ring.
  - destruct (shr_1_located _ _ Hm H) as [H1 Hm1].
    split; [| exact Hm1]. eapply located_ext; [| exact H1].
    change (pow2 (-1)) with (1 # 2). reflexivity.
Qed.

Lemma round_nearest_even_close x r :
  (0 <= shr_m r)%Z -> located x r ->
  let m1 := round_nearest_even (shr_m r) (loc_of_shr_record r) in
  (shr_m r <= m1 <= shr_m r + 1)%Z
  /\ Qabs (inject_Z m1 - x) <= 1 # 2
  /\ (loc_of_shr_record r = loc_Exact -> inject_Z m1 == x).
Proof.
  destruct r as [m r s]. unfold located.
  cbn [shr_m shr_r shr_s loc_of_shr_record]. intros Hm H.
  pose proof (inject_Z_plus m 1) as E. change (inject_Z 1) with 1 in E.
  destruct r, s; cbn [round_nearest_even].
  - split; [lia |]. split; [| discriminate].
    rewrite E. apply Qabs_Qle_condition. lra.
  - destruct (Z.even m); (split; [lia |]); (split; [| discriminate]);
      try rewrite E; apply Qabs_Qle_condition; lra.
  - split; [lia |]. split; [| discriminate].
    apply Qabs_Qle_condition. lra.
  - split; [lia |]. split; [| intros _; lra].
    apply Qabs_Qle_condition. lra.
Qed.

(** ** Rounding to binary64 *)

Definition fexp64 (e : Z) : Z := fexp 53 1024 e.

Lemma fexp64_eq e : fexp64 e = Z.max (e - 53) (-1074).
Proof. reflexivity. Qed.

Lemma shr_m_of_loc m l : shr_m (shr_record_of_loc m l) = m.
Proof. destruct l as [| []]; reflexivity. Qed.

Lemma loc_of_shr_of_loc m l : loc_of_shr_record (shr_record_of_loc m l) = l.
Proof. destruct l as [| []]; reflexivity. Qed.

Lemma Zdigits2_le m k :
  (0 <= m)%Z -> (0 <= k)%Z -> (m < 2 ^ k)%Z -> (Zdigits2 m <= k)%Z.
Proof.
  intros Hm Hk H. destruct (Z.eq_dec m 0) as [-> | Hne]; [simpl; lia |].
  destruct (Zdigits2_bounds m) as [L _]; [lia |].
  assert (2 ^ (Zdigits2 m - 1) < 2 ^ k)%Z by lia.
  apply Z.pow_lt_mono_r_iff in H0; lia.
Qed.

Lemma Zdigits2_upper m : (0 <= m)%Z -> (m + 1 <= 2 ^ Zdigits2 m)%Z.
Proof.
  intros Hm. destruct (Z.eq_dec m 0) as [-> | Hne]; [simpl; lia |].
  destruct (Zdigits2_bounds m); lia.
Qed.

(** The first shift of [binary_round_aux]. *)
Lemma shr_fexp_located mx ex lx x :
  (0 <= mx)%Z -> located x (shr_record_of_loc mx lx) ->
  let n := (fexp64 (Zdigits2 mx + ex) - ex)%Z in
  let '(r', e') := shr_fexp 53 1024 mx ex lx in
  (0 <= shr_m r')%Z
  /\ e' = (ex + Z.max n 0)%Z
  /\ located (x * pow2 (ex - e')) r'
  /\ ((n <= 0)%Z -> r' = shr_record_of_loc mx lx).
Proof.
  intros Hm H n. unfold shr_fexp, shr. fold (fexp64 (Zdigits2 mx + ex)).
  fold n. destruct n as [| p | p] eqn:En.
  - rewrite shr_m_of_loc. repeat split; try lia; auto.
    eapply located_ext; [| exact H].
    match goal with |- _ == _ * pow2 ?k => replace k with 0%Z by lia end.
    change (pow2 0) with 1. ring.
  - destruct (iter_shr_1_located p x (shr_record_of_loc mx lx)) as [H1 Hm1];
      [rewrite shr_m_of_loc; lia | exact H |].
    repeat split; try lia; auto.
    eapply located_ext; [| exact H1].
    match goal with
    | |- _ == _ * pow2 ?k => replace k with (- Z.pos p)%Z by lia
    end.
    reflexivity.
  - rewrite shr_m_of_loc. repeat split; try lia; auto.
    eapply located_ext; [| exact H].
    match goal with |- _ == _ * pow2 ?k => replace k with 0%Z by lia end.
    change (pow2 0) with 1. ring.
Qed.

(** The second shift: it only undoes a carry, and loses nothing. *)
Lemma shr_fexp_carry m1 e1 :
  (0 <= m1 <= 2 ^ 53)%Z -> (-1074 <= e1)%Z ->
  let '(r2, e2) := shr_fexp 53 1024 m1 e1 loc_Exact in
  (0 <= shr_m r2)%Z
  /\ inject_Z (shr_m r2) * pow2 e2 == inject_Z m1 * pow2 e1
  /\ (e1 <= e2)%Z.
Proof.
  intros Hm He. unfold shr_fexp. fold (fexp64 (Zdigits2 m1 + e1)).
  destruct (Z.eq_dec m1 (2 ^ 53)) as [-> | Hne].
  - replace (fexp64 (Zdigits2 (2 ^ 53) + e1) - e1)%Z with 1%Z
      by (rewrite fexp64_eq; change (Zdigits2 (2 ^ 53)) with 54%Z; lia).
    cbn [shr]. change (iter_pos shr_1 1 (shr_record_of_loc (2 ^ 53) loc_Exact))
      with (Build_shr_record (2 ^ 52) false false).
    cbn [shr_m]. split; [lia |]. split; [| lia].
    rewrite pow2_succ.
    change (inject_Z (2 ^ 53)) with (2 * inject_Z (2 ^ 52)). ring.
  - assert (Hd : (Zdigits2 m1 <= 53)%Z) by (apply Zdigits2_le; lia).
    assert (Hn : (fexp64 (Zdigits2 m1 + e1) - e1 <= 0)%Z)
      by (rewrite fexp64_eq; lia).
    unfold shr. destruct (fexp64 (Zdigits2 m1 + e1) - e1)%Z; try lia;
      rewrite shr_m_of_loc; (split; [lia |]); (split; [reflexivity | lia]).
Qed.

Definition round_pair (mx ex : Z) (lx : location) : Z * Z :=
  let '(r1, e1) := shr_fexp 53 1024 mx ex lx in
  let '(r2, e2) :=
    shr_fexp 53 1024
             (round_nearest_even (shr_m r1) (loc_of_shr_record r1)) e1
             loc_Exact in
  (shr_m r2, e2).

Lemma binary_round_aux_pair sx mx ex lx :
  binary_round_aux 53 1024 sx mx ex lx
  = let '(m2, e2) := round_pair mx ex lx in
    match m2 with
    | Z0 => S754_zero sx
    | Zpos m => if (e2 <=? 1024 - 53)%Z then S754_finite sx m e2
                else S754_infinity sx
    | Zneg _ => S754_nan
    end.
Proof.
  unfold binary_round_aux, round_pair.
  destruct (shr_fexp 53 1024 mx ex lx) as [r1 e1].
  destruct (shr_fexp 53 1024 _ e1 loc_Exact) as [r2 e2]. reflexivity.
Qed.

Lemma Qabs_scale a b c p :
  Qabs (a - b) <= c -> 0 < p -> Qabs (a * p - b * p) <= c * p.
Proof.
  intros H Hp. apply Qabs_Qle_condition in H. destruct H as [H1 H2].
  apply Qabs_Qle_condition. split.
  - setoid_replace (- (c * p)) with ((- c) * p) by ring.
    setoid_replace (a * p - b * p) with ((a - b) * p) by ring.
    apply Qmult_le_compat_r; [exact H1 | apply Qlt_le_weak, Hp].
  - setoid_replace (a * p - b * p) with ((a - b) * p) by ring.
    apply Qmult_le_compat_r; [exact H2 | apply Qlt_le_weak, Hp].
Qed.

Lemma inject_Z_pow2 k : (0 <= k)%Z -> inject_Z (2 ^ k) == pow2 k.
Proof. intros H. symmetry. apply pow2_inject, H. Qed.

(** What the two shifts and the rounding between them leave: a mantissa and
    an exponent whose value is within half a unit in the last place of the
    exact value. *)
Lemma round_pair_spec mx ex lx x :
  (0 <= mx)%Z -> located x (shr_record_of_loc mx lx) ->
  (lx = loc_Exact \/ (ex <= fexp64 (Zdigits2 mx + ex))%Z) ->
  let '(m2, e2) := round_pair mx ex lx in
  (0 <= m2)%Z
  /\ Qabs (inject_Z m2 * pow2 e2 - x * pow2 ex)
     <= x * pow2 ex * pow2 (-53) + pow2 (-1075).
Proof.
  intros Hm H Hc. unfold round_pair.
  pose proof (shr_fexp_located mx ex lx x Hm H) as S1. cbv zeta in S1.
  destruct (shr_fexp 53 1024 mx ex lx) as [r1 e1].
  destruct S1 as (Hm1 & He1 & L1 & Hsame).
  set (d := Zdigits2 mx) in *.
  set (f := fexp64 (d + ex)) in *.
  pose proof (fexp64_eq (d + ex)) as Ef. fold f in Ef.
  pose proof (Zdigits2_nonneg mx) as Hd. fold d in Hd.
  destruct (round_nearest_even_close _ _ Hm1 L1) as (Hr & Hclose & Hexact).
  set (m1 := round_nearest_even (shr_m r1) (loc_of_shr_record r1)) in *.
  destruct (located_bounds _ _ H) as [Hx1 Hx2]. rewrite shr_m_of_loc in Hx1, Hx2.
  assert (Hx0 : 0 <= x).
  { apply Qle_trans with (inject_Z mx); [| exact Hx1].
    change 0 with (inject_Z 0). rewrite <- Zle_Qle. exact Hm. }
  assert (Hp : 0 <= x * pow2 ex * pow2 (-53)).
  { apply Qmult_le_0_compat; [apply Qmult_le_0_compat |];
      auto using Qlt_le_weak, pow2_pos. }
  assert (B : (0 <= m1 <= 2 ^ 53)%Z /\ (-1074 <= e1)%Z
              /\ Qabs (inject_Z m1 * pow2 e1 - x * pow2 ex)
                 <= x * pow2 ex * pow2 (-53) + pow2 (-1075)).
  { destruct (Z_le_gt_dec ex f) as [Hn | Hn].
    - (* the value was shifted down to the target exponent *)
      assert (E1 : e1 = f) by lia. clear He1. subst e1.
      set (x1 := x * pow2 (ex - f)) in *.
      destruct (located_bounds _ _ L1) as [Hy1 Hy2].
      assert (Hxd : x < pow2 d).
      { apply Qlt_le_trans with (inject_Z mx + 1); [exact Hx2 |].
        rewrite <- (inject_Z_pow2 d Hd).
        change 1 with (inject_Z 1). rewrite <- inject_Z_plus, <- Zle_Qle.
        apply Zdigits2_upper, Hm. }
      assert (Hx53 : x1 < pow2 53).
      { apply Qlt_le_trans with (pow2 d * pow2 (ex - f)).
        - unfold x1. apply Qmult_lt_compat_r; [apply pow2_pos | exact Hxd].
        - rewrite <- pow2_add. apply pow2_le. lia. }
      assert (Hm53 : (shr_m r1 < 2 ^ 53)%Z).
      { rewrite Zlt_Qlt. rewrite (inject_Z_pow2 53 ltac:(lia)).
        apply Qle_lt_trans with x1; assumption. }
      split; [lia |]. split; [lia |].
      assert (Ev : x * pow2 ex == x1 * pow2 f).
      { unfold x1. rewrite <- Qmult_assoc, <- pow2_add.
        replace (ex - f + f)%Z with ex by lia. reflexivity. }
      rewrite Ev at 1.
      apply Qle_trans with ((1 # 2) * pow2 f);
        [apply Qabs_scale; [exact Hclose | apply pow2_pos] |].
      rewrite Qmult_comm, <- pow2_pred.
      destruct (Z.eq_dec f (-1074)) as [-> | Hf].
      + change (-1074 - 1)%Z with (-1075)%Z. lra.
      + assert (Ef' : f = (d + ex - 53)%Z) by lia.
        assert (Hmx : (0 < mx)%Z).
        { destruct (Z.eq_dec mx 0) as [E0 | ?]; [| lia].
          exfalso. subst mx. change d with 0%Z in *. lia. }
        assert (Hlow : pow2 (d - 1) <= x).
        { apply Qle_trans with (inject_Z mx); [| exact Hx1].
          assert (Hd1 : (0 <= d - 1)%Z).
          { destruct mx; try lia; unfold d; simpl; lia. }
          rewrite <- (inject_Z_pow2 (d - 1) Hd1).
          rewrite <- Zle_Qle. apply Zdigits2_bounds; assumption. }
        apply Qle_trans with (x * pow2 ex * pow2 (-53));
          [| pose proof (pow2_pos (-1075)); lra].
        apply Qle_trans with (pow2 (d - 1) * pow2 ex * pow2 (-53)).
        * rewrite <- !pow2_add. apply pow2_le. lia.
        * apply Qmult_le_compat_r; [| apply Qlt_le_weak, pow2_pos].
          apply Qmult_le_compat_r; [exact Hlow | apply Qlt_le_weak, pow2_pos].
    - (* nothing to shift: the value is exact *)
      destruct Hc as [-> | Hc]; [| lia].
      assert (E1 : e1 = ex) by lia. clear He1. subst e1.
      assert (Er : r1 = shr_record_of_loc mx loc_Exact) by (apply Hsame; lia).
      subst r1. subst m1.
      cbn [shr_record_of_loc shr_m loc_of_shr_record round_nearest_even] in *.
      assert (Hmd : (mx < 2 ^ 53)%Z).
      { pose proof (Zdigits2_upper mx Hm) as U. fold d in U.
        assert (2 ^ d <= 2 ^ 53)%Z by (apply Z.pow_le_mono_r; lia). lia. }
      split; [lia |]. split; [lia |].
      unfold located in H. cbn in H.
      setoid_replace (inject_Z mx * pow2 ex - x * pow2 ex) with 0
        by (rewrite H; ring).
      pose proof (pow2_pos (-1075)). change (Qabs 0) with 0. lra. }
  destruct B as (Hb1 & Hb2 & Hb3).
  pose proof (shr_fexp_carry m1 e1 Hb1 Hb2) as S3.
  destruct (shr_fexp 53 1024 m1 e1 loc_Exact) as [r2 e2].
  destruct S3 as (Hm2 & Ev2 & _).
  split; [exact Hm2 |]. rewrite Ev2. exact Hb3.
Qed.

(** ** The value of a float *)

Definition signed (s : bool) (y : Q) : Q := if s then - y else y.

Definition SF2Q (f : spec_float) : option Q :=
  match f with
  | S754_zero _ => Some 0
  | S754_finite s m e => Some (signed s (inject_Z (Zpos m) * pow2 e))
  | S754_infinity _ | S754_nan => None
  end.

(** [y] is [v] rounded: off by at most [2^-53] of [v], or by [2^-1075] where
    [v] is too small for that. *)
Definition rounds_to (v y : Q) : Prop :=
  Qabs (y - v) <= Qabs v * pow2 (-53) + pow2 (-1075).

Lemma binary_round_aux_spec sx mx ex lx x :
  (0 <= mx)%Z -> located x (shr_record_of_loc mx lx) ->
  (lx = loc_Exact \/ (ex <= fexp64 (Zdigits2 mx + ex))%Z) ->
  let v := x * pow2 ex in
  let r := binary_round_aux 53 1024 sx mx ex lx in
  (exists y, SF2Q r = Some (signed sx y) /\ 0 <= y /\ rounds_to v y)
  \/ (r = S754_infinity sx /\ pow2 971 <= v).
Proof.
  intros Hm H Hc v r. unfold r. rewrite binary_round_aux_pair.
  pose proof (round_pair_spec mx ex lx x Hm H Hc) as S.
  destruct (round_pair mx ex lx) as [m2 e2]. destruct S as [Hm2 Hb].
  fold v in Hb.
  assert (Hv : 0 <= v).
  { destruct (located_bounds _ _ H) as [Hx1 _]. rewrite shr_m_of_loc in Hx1.
    apply Qmult_le_0_compat; [| apply Qlt_le_weak, pow2_pos].
    apply Qle_trans with (inject_Z mx); [| exact Hx1].
    change 0 with (inject_Z 0). rewrite <- Zle_Qle. exact Hm. }
  assert (Ha : Qabs v == v) by (apply Qabs_pos, Hv).
  destruct m2 as [| m | m]; [| | lia].
  - left. exists 0. split; [destruct sx; reflexivity |]. split; [lra |].
    unfold rounds_to. rewrite Ha.
    setoid_replace (0 - v) with (inject_Z 0 * pow2 e2 - v)
      by (change (inject_Z 0) with 0; ring).
    exact Hb.
  - destruct (Z.leb_spec e2 (1024 - 53)) as [He | He].
    + left. exists (inject_Z (Zpos m) * pow2 e2).
      split; [reflexivity |]. split.
      * apply Qmult_le_0_compat; [| apply Qlt_le_weak, pow2_pos].
        change 0 with (inject_Z 0). rewrite <- Zle_Qle. lia.
      * unfold rounds_to. rewrite Ha. exact Hb.
    + right. split; [reflexivity |].
      set (y := inject_Z (Zpos m) * pow2 e2) in *.
      assert (Hy : pow2 972 <= y).
      { apply Qle_trans with (pow2 e2); [apply pow2_le; lia |].
        unfold y. rewrite <- (Qmult_1_l (pow2 e2)) at 1.
        apply Qmult_le_compat_r; [| apply Qlt_le_weak, pow2_pos].
        change 1 with (inject_Z 1). rewrite <- Zle_Qle. lia. }
      apply Qabs_Qle_condition in Hb. destruct Hb as [_ Hb].
      assert (Hu : v * pow2 (-53) <= v * (1 # 4)).
      { rewrite !(Qmult_comm v). apply Qmult_le_compat_r; [| exact Hv].
        change (1 # 4) with (pow2 (-2)). apply pow2_le. lia. }
      assert (He1 : pow2 (-1075) <= pow2 971 * (1 # 4)).
      { change (1 # 4) with (pow2 (-2)). rewrite <- pow2_add.
        apply pow2_le. lia. }
      assert (E2 : pow2 972 == 2 * pow2 971)
        by (change 972%Z with (971 + 1)%Z; apply pow2_succ).
      destruct (Qlt_le_dec v (pow2 971)) as [Hlt | Hge]; [| exact Hge].
      exfalso. lra.
Qed.

(** The location of a quotient between two integers. *)
Lemma new_location_located (b q r : Z) :
  (0 < b)%Z -> (0 <= r < b)%Z ->
  located (inject_Z q + inject_Z r / inject_Z b)
          (shr_record_of_loc q (new_location b r)).
Proof.
  intros Hb Hr.
  assert (Hb' : 0 < inject_Z b)
    by (change 0 with (inject_Z 0); rewrite <- Zlt_Qlt; exact Hb).
  set (t := inject_Z r / inject_Z b).
  assert (Ceq : forall c, inject_Z r == c * inject_Z b -> t == c).
  { intros c E. unfold t. rewrite E. field. lra. }
  assert (Clt : forall c, c * inject_Z b < inject_Z r -> c < t).
  { intros c L. unfold t, Qdiv.
    setoid_replace c with (c * inject_Z b * / inject_Z b) by (field; lra).
    apply Qmult_lt_compat_r; [apply Qinv_lt_0_compat, Hb' | exact L]. }
  assert (Cgt : forall c, inject_Z r < c * inject_Z b -> t < c).
  { intros c L. unfold t, Qdiv.
    setoid_replace c with (c * inject_Z b * / inject_Z b) by (field; lra).
    apply Qmult_lt_compat_r; [apply Qinv_lt_0_compat, Hb' | exact L]. }
  assert (I2 : inject_Z (2 * r) == 2 * inject_Z r)
    by (rewrite inject_Z_mult; reflexivity).
  assert (R0 : 0 <= inject_Z r)
    by (change 0 with (inject_Z 0); rewrite <- Zle_Qle; lia).
  assert (T1 : t < 1).
  { apply Cgt. rewrite Qmult_1_l, <- Zlt_Qlt. lia. }
  assert (T0 : r = 0%Z -> t == 0).
  { intros ->. apply Ceq. change (inject_Z 0) with 0. ring. }
  assert (Tpos : r <> 0%Z -> 0 < t).
  { intros Hne. apply Clt. rewrite Qmult_0_l.
    change 0 with (inject_Z 0). rewrite <- Zlt_Qlt. lia. }
  assert (Below : (2 * r < b)%Z -> t < 1 # 2).
  { intros L. apply Cgt. rewrite Zlt_Qlt, I2 in L. lra. }
  assert (Above : (b < 2 * r)%Z -> (1 # 2) < t).
  { intros L. apply Clt. rewrite Zlt_Qlt, I2 in L. lra. }
  assert (Middle : (2 * r = b)%Z -> t == 1 # 2).
  { intros E. apply Ceq. rewrite <- E, I2. ring. }
  unfold new_location.
  destruct (Z.even b) eqn:Eb.
  - unfold new_location_even.
    destruct (Z.eqb_spec r 0) as [E0 | Hne].
    + unfold located; cbn. rewrite (T0 E0). ring.
    + specialize (Tpos Hne).
      destruct (Z.compare_spec (2 * r) b) as [E | L | G]; unfold located; cbn.
      * rewrite (Middle E). reflexivity.
      * specialize (Below L). lra.
      * specialize (Above G). lra.
  - unfold new_location_odd.
    destruct (Z.eqb_spec r 0) as [E0 | Hne].
    + unfold located; cbn. rewrite (T0 E0). ring.
    + specialize (Tpos Hne).
      assert (Hodd : (2 * r <> b)%Z).
      { intros E. rewrite <- E, Z.even_mul in Eb. discriminate Eb. }
      destruct (Z.compare_spec (2 * r + 1) b) as [E | L | G]; unfold located;
        cbn.
      * assert (L : (2 * r < b)%Z) by lia. specialize (Below L). lra.
      * assert (L' : (2 * r < b)%Z) by lia. specialize (Below L'). lra.
      * assert (G' : (b < 2 * r)%Z) by lia. specialize (Above G'). lra.
Qed.

Lemma Zdigits2_lower m k :
  (0 <= k)%Z -> (2 ^ k <= m)%Z -> (k + 1 <= Zdigits2 m)%Z.
Proof.
  intros Hk H.
  assert (Hm : (0 < m)%Z) by (pose proof (Z.pow_pos_nonneg 2 k); lia).
  destruct (Zdigits2_bounds m Hm) as [_ U].
  assert (L : (2 ^ k < 2 ^ Zdigits2 m)%Z) by lia.
  apply Z.pow_lt_mono_r_iff in L; [lia | lia | apply Zdigits2_nonneg].
Qed.

Lemma fexp64_mono a b : (a <= b)%Z -> (fexp64 a <= fexp64 b)%Z.
Proof. intros H. rewrite !fexp64_eq. lia. Qed.

(** The quotient of two positive integers, correctly rounded. *)
Lemma SFdiv_int (a b : positive) :
  let v := inject_Z (Zpos a) / inject_Z (Zpos b) in
  let r := SFdiv 53 1024 (S754_finite false a 0) (S754_finite false b 0) in
  (exists y, SF2Q r = Some y /\ 0 <= y /\ rounds_to v y)
  \/ (r = S754_infinity false /\ pow2 971 <= v).
Proof.
  intros v r. unfold r, SFdiv, SFdiv_core_binary.
  change (fexp 53 1024) with fexp64.
  set (d1 := Zdigits2 (Zpos a)). set (d2 := Zdigits2 (Zpos b)).
  assert (Hd1 : (1 <= d1)%Z) by (unfold d1; simpl; lia).
  assert (Hd2 : (1 <= d2)%Z) by (unfold d2; simpl; lia).
  replace (d1 + 0 - (d2 + 0))%Z with (d1 - d2)%Z by lia.
  change (0 - 0)%Z with 0%Z.
  set (e' := Z.min (fexp64 (d1 - d2)) 0).
  set (s := (0 - e')%Z).
  assert (He' : (e' <= 0)%Z) by (unfold e'; lia).
  assert (Hs : (0 <= s)%Z) by (unfold s; lia).
  set (m' := match s with
             | 0%Z => Zpos a
             | Zpos _ => Z.shiftl (Zpos a) s
             | Zneg _ => 0%Z
             end).
  assert (Em : m' = (Zpos a * 2 ^ s)%Z).
  { unfold m'. destruct s as [| p | p] eqn:Es; [simpl; lia | | lia].
    apply Z.shiftl_mul_pow2. lia. }
  pose proof (Z_div_mod m' (Zpos b) ltac:(lia)) as DM.
  destruct (Z.div_eucl m' (Zpos b)) as [q rem]. destruct DM as [Eq Hrem].
  assert (Hpow : (0 < 2 ^ s)%Z) by (apply Z.pow_pos_nonneg; lia).
  assert (Hq : (0 <= q)%Z) by nia.
  assert (Hb' : 0 < inject_Z (Zpos b)).
  { change 0 with (inject_Z 0). rewrite <- Zlt_Qlt. lia. }
  assert (Ev : (inject_Z q + inject_Z rem / inject_Z (Zpos b)) * pow2 e' == v).
  { unfold v.
    assert (E1 : inject_Z q + inject_Z rem / inject_Z (Zpos b)
                 == inject_Z m' / inject_Z (Zpos b)).
    { rewrite Eq, inject_Z_plus, inject_Z_mult. field. lra. }
    rewrite E1, Em, inject_Z_mult, (inject_Z_pow2 s Hs).
    assert (E2 : pow2 s * pow2 e' == 1).
    { rewrite <- pow2_add. replace (s + e')%Z with 0%Z by (unfold s; lia).
      reflexivity. }
    setoid_replace (inject_Z (Zpos a) * pow2 s / inject_Z (Zpos b) * pow2 e')
      with (inject_Z (Zpos a) / inject_Z (Zpos b) * (pow2 s * pow2 e'))
      by (field; lra).
    rewrite E2. ring. }
  assert (Hcond : (e' <= fexp64 (Zdigits2 q + e'))%Z).
  { apply Z.le_trans with (fexp64 (d1 - d2)); [unfold e'; lia |].
    apply fexp64_mono.
    destruct (Z_le_gt_dec (d1 + s - d2) 0) as [Hk | Hk].
    - pose proof (Zdigits2_nonneg q). unfold s in *. lia.
    - assert (L : (d1 + s - d2 - 1 + 1 <= Zdigits2 q)%Z).
      { apply Zdigits2_lower; [lia |].
        destruct (Zdigits2_bounds (Zpos a) ltac:(lia)) as [La _].
        destruct (Zdigits2_bounds (Zpos b) ltac:(lia)) as [_ Ub].
        fold d1 in La. fold d2 in Ub.
        assert (P1 : (2 ^ (d1 + s - d2 - 1) * 2 ^ d2 = 2 ^ (d1 - 1) * 2 ^ s)%Z).
        { rewrite <- !Z.pow_add_r by lia. f_equal. lia. }
        assert (P0 : (0 < 2 ^ (d1 + s - d2 - 1))%Z)
          by (apply Z.pow_pos_nonneg; lia).
        set (K := (2 ^ (d1 + s - d2 - 1))%Z) in *.
        assert (P3 : (K * Zpos b < K * 2 ^ d2)%Z)
          by (apply Zmult_lt_compat_l; lia).
        assert (P4 : (2 ^ (d1 - 1) * 2 ^ s <= Zpos a * 2 ^ s)%Z)
          by (apply Zmult_le_compat_r; lia).
        assert (P2 : (K * Zpos b < Zpos b * (q + 1))%Z) by lia.
        assert (P5 : (K < q + 1)%Z).
        { apply Z.mul_lt_mono_pos_l with (p := Zpos b); lia. }
        lia. }
      unfold s in *. lia. }
  destruct (binary_round_aux_spec false q e' (new_location (Zpos b) rem)
              (inject_Z q + inject_Z rem / inject_Z (Zpos b)) Hq
              (new_location_located _ _ _ (Pos2Z.is_pos b) Hrem)
              (or_intror Hcond))
    as [(y & Hy & Hy0 & Hr) | [Hinf Hv]].
  - left. exists y. split; [exact Hy |]. split; [exact Hy0 |].
    unfold rounds_to in *. rewrite Ev in Hr. exact Hr.
  - right. split; [exact Hinf |]. rewrite Ev in Hv. exact Hv.
Qed.

(** ** Exact alignment, and rounding an integer mantissa *)

Lemma iter_xO_value (m d : positive) :
  Zpos (Pos.iter xO m d) = (Zpos m * 2 ^ Zpos d)%Z.
Proof.
  induction d as [| d IH] using Pos.peano_ind.
  - simpl. lia.
  - rewrite Pos.iter_succ, Pos2Z.inj_xO, IH, Pos2Z.inj_succ, Z.pow_succ_r by lia.
    lia.
Qed.

Lemma shl_align_value mx ex ex' :
  let '(m', e') := shl_align mx ex ex' in
  inject_Z (Zpos m') * pow2 e' == inject_Z (Zpos mx) * pow2 ex
  /\ e' = Z.min ex ex'.
Proof.
  unfold shl_align. destruct (ex' - ex)%Z as [| d | d] eqn:E.
  - split; [reflexivity | lia].
  - split; [reflexivity | lia].
  - split; [| lia]. rewrite iter_xO_value, inject_Z_mult.
    rewrite (inject_Z_pow2 (Zpos d)) by lia.
    rewrite <- Qmult_assoc, <- pow2_add.
    replace (Zpos d + ex')%Z with ex by lia. reflexivity.
Qed.

Lemma located_exact m : located (inject_Z m) (shr_record_of_loc m loc_Exact).
Proof. unfold located. cbn. reflexivity. Qed.

Lemma binary_round_spec sx mx ex :
  let v := inject_Z (Zpos mx) * pow2 ex in
  let r := binary_round 53 1024 sx mx ex in
  (exists y, SF2Q r = Some (signed sx y) /\ 0 <= y /\ rounds_to v y)
  \/ (r = S754_infinity sx /\ pow2 971 <= v).
Proof.
  intros v r. unfold r, binary_round.
  pose proof (shl_align_value mx ex (fexp 53 1024 (Zpos (digits2_pos mx) + ex)))
    as A.
  destruct (shl_align mx ex _) as [mz ez]. destruct A as [Ev _].
  destruct (binary_round_aux_spec sx (Zpos mz) ez loc_Exact
              (inject_Z (Zpos mz)) ltac:(lia) (located_exact _)
              (or_introl eq_refl))
    as [(y & Hy & Hy0 & Hr) | [Hinf Hv]].
  - left. exists y. split; [exact Hy |]. split; [exact Hy0 |].
    unfold rounds_to in *. unfold v. rewrite <- Ev. exact Hr.
  - right. split; [exact Hinf |]. unfold v. rewrite <- Ev. exact Hv.
Qed.

Lemma rounds_to_opp v y : rounds_to v y -> rounds_to (- v) (- y).
Proof.
  unfold rounds_to. intros H. rewrite Qabs_opp.
  setoid_replace (- y - - v) with (- (y - v)) by ring.
  rewrite Qabs_opp. exact H.
Qed.

Lemma rounds_to_ext v v' y : v == v' -> rounds_to v y -> rounds_to v' y.
Proof. unfold rounds_to. intros E H. rewrite <- E. exact H. Qed.

Lemma rounds_to_signed s v y :
  rounds_to v y -> rounds_to (signed s v) (signed s y).
Proof. destruct s; unfold signed; [apply rounds_to_opp | auto]. Qed.

Lemma rounds_to_exact v : rounds_to v v.
Proof.
  unfold rounds_to. setoid_replace (v - v) with 0 by ring.
  change (Qabs 0) with 0.
  pose proof (Qabs_nonneg v). pose proof (pow2_pos (-53)).
  pose proof (pow2_pos (-1075)).
  assert (0 <= Qabs v * pow2 (-53))
    by (apply Qmult_le_0_compat; lra).
  lra.
Qed.

(** The difference of two floats, correctly rounded. *)
Lemma SFsub_spec sx mx ex sy my ey :
  let vx := signed sx (inject_Z (Zpos mx) * pow2 ex) in
  let vy := signed sy (inject_Z (Zpos my) * pow2 ey) in
  let r := SFsub 53 1024 (S754_finite sx mx ex) (S754_finite sy my ey) in
  (exists y, SF2Q r = Some y /\ rounds_to (vx - vy) y)
  \/ ((exists s, r = S754_infinity s) /\ pow2 971 <= Qabs (vx - vy)).
Proof.
  intros vx vy r. unfold r, SFsub.
  set (ez := Z.min ex ey).
  pose proof (shl_align_value mx ex ez) as Ax.
  pose proof (shl_align_value my ey ez) as Ay.
  destruct (shl_align mx ex ez) as [mx' ex'].
  destruct (shl_align my ey ez) as [my' ey'].
  destruct Ax as [Evx Ex']. destruct Ay as [Evy Ey']. cbn [fst].
  assert (Ex : ex' = ez) by (unfold ez in *; lia).
  assert (Ey : ey' = ez) by (unfold ez in *; lia).
  clear Ex' Ey'. subst ex' ey'.
  set (M := (cond_Zopp sx (Zpos mx') - cond_Zopp sy (Zpos my'))%Z).
  assert (Ev : inject_Z M * pow2 ez == vx - vy).
  { unfold vx, vy, M.
    destruct sx, sy; unfold signed, cond_Zopp; rewrite <- Evx, <- Evy;
      unfold Z.sub; rewrite ?inject_Z_plus, ?inject_Z_opp; ring. }
  unfold binary_normalize.
  destruct M as [| m | m] eqn:Em.
  - left. exists 0. split; [reflexivity |].
    apply rounds_to_ext with 0; [| apply rounds_to_exact].
    rewrite <- Ev. change (inject_Z 0) with 0. ring.
  - destruct (binary_round_spec false m ez)
      as [(y & Hy & Hy0 & Hr) | [Hinf Hv]].
    + left. exists y. split; [exact Hy |].
      eapply rounds_to_ext; [exact Ev | exact Hr].
    + right. split; [eauto |].
      apply Qle_trans with (inject_Z (Zpos m) * pow2 ez); [exact Hv |].
      rewrite <- Ev. apply Qle_Qabs.
  - assert (Ev' : - (inject_Z (Zpos m) * pow2 ez) == vx - vy).
    { rewrite <- Ev. change (Zneg m) with (- Zpos m)%Z.
      rewrite inject_Z_opp. ring. }
    destruct (binary_round_spec true m ez)
      as [(y & Hy & Hy0 & Hr) | [Hinf Hv]].
    + left. exists (- y). split; [exact Hy |].
      eapply rounds_to_ext; [exact Ev' |]. apply rounds_to_opp, Hr.
    + right. split; [eauto |].
      apply Qle_trans with (inject_Z (Zpos m) * pow2 ez); [exact Hv |].
      apply Qle_trans with (- (vx - vy)); [rewrite <- Ev'; lra |].
      rewrite <- Qabs_opp. apply Qle_Qabs.
Qed.

(** The product of two floats, correctly rounded. *)
Lemma SFmul_spec sx mx ex sy my ey :
  let vx := signed sx (inject_Z (Zpos mx) * pow2 ex) in
  let vy := signed sy (inject_Z (Zpos my) * pow2 ey) in
  let r := SFmul 53 1024 (S754_finite sx mx ex) (S754_finite sy my ey) in
  (exists y, SF2Q r = Some y /\ rounds_to (vx * vy) y)
  \/ ((exists s, r = S754_infinity s) /\ pow2 971 <= Qabs (vx * vy)).
Proof.
  intros vx vy r. unfold r, SFmul.
  set (v := inject_Z (Zpos (mx * my)) * pow2 (ex + ey)).
  assert (Ev : signed (xorb sx sy) v == vx * vy).
  { assert (E0 : v == (inject_Z (Zpos mx) * pow2 ex)
                       * (inject_Z (Zpos my) * pow2 ey)).
    { unfold v. rewrite Pos2Z.inj_mul, inject_Z_mult, pow2_add. ring. }
    unfold vx, vy. destruct sx, sy; unfold signed, xorb; rewrite E0; ring. }
  assert (Hv0 : 0 <= v).
  { unfold v. apply Qmult_le_0_compat; [| apply Qlt_le_weak, pow2_pos].
    change 0 with (inject_Z 0). rewrite <- Zle_Qle. lia. }
  destruct (binary_round_aux_spec (xorb sx sy) (Zpos (mx * my)) (ex + ey)
              loc_Exact (inject_Z (Zpos (mx * my))) ltac:(lia)
              (located_exact _) (or_introl eq_refl))
    as [(y & Hy & Hy0 & Hr) | [Hinf Hv]].
  - left. exists (signed (xorb sx sy) y). split; [exact Hy |].
    eapply rounds_to_ext; [exact Ev |]. apply rounds_to_signed. exact Hr.
  - right. split; [eauto |]. rewrite <- Ev.
    assert (Ea : Qabs (signed (xorb sx sy) v) == v).
    { destruct (xorb sx sy); unfold signed;
        [apply Qeq_trans with (Qabs v); [apply Qabs_opp |] |];
        apply Qabs_pos, Hv0. }
    rewrite Ea. exact Hv.
Qed.

(** * The accuracy of the reported reduction *)

Lemma SF2Q_shape f v :
  SF2Q f = Some v ->
  (exists s, f = S754_zero s /\ v = 0)
  \/ (exists s m e, f = S754_finite s m e
                    /\ v = signed s (inject_Z (Zpos m) * pow2 e)).
Proof.
  destruct f as [s | s | | s m e]; simpl; intros H; try discriminate H;
    injection H as <-; [left | right]; eauto.
Qed.

(** The quotient of two vertex totals, as [int_truediv] returns it. *)
Lemma int_truediv_rounds (a b : N) ratio :
  b <> 0%N ->
  int_truediv (Z.of_N a) (Z.of_N b) = inr ratio ->
  exists vq,
    SF2Q ratio = Some vq /\ 0 <= vq
    /\ rounds_to (inject_Z (Z.of_N a) / inject_Z (Z.of_N b)) vq.
Proof.
  intros Hb H. unfold int_truediv in H.
  destruct b as [| pb]; [contradiction |]. cbn [Z.of_N Z.eqb] in H.
  destruct a as [| pa]; cbn [Z.of_N PyFloat.int_operand] in H |- *.
  - injection H as <-. exists 0. split; [reflexivity |]. split; [lra |].
    apply rounds_to_ext with 0; [| apply rounds_to_exact].
    change (inject_Z 0) with 0. unfold Qdiv. ring.
  - unfold PyFloat.div, PyFloat.prec, PyFloat.emax in H.
    destruct (SFdiv_int pa pb) as [(y & Hy & Hy0 & Hr) | [Hinf _]].
    + exists y.
      destruct (SFdiv 53 1024 (S754_finite false pa 0) (S754_finite false pb 0));
        try discriminate Hy; injection H as <-; auto.
    + rewrite Hinf in H. discriminate H.
Qed.

Lemma of_int_1 : PyFloat.of_int 1 = S754_finite false 4503599627370496 (-52).
Proof. reflexivity. Qed.

Lemma of_int_100 : PyFloat.of_int 100 = S754_finite false 7036874417766400 (-46).
Proof. reflexivity. Qed.

Lemma one_minus_rounds ratio vq :
  SF2Q ratio = Some vq -> Qabs (1 - vq) < pow2 971 ->
  exists vs,
    SF2Q (PyFloat.sub (PyFloat.of_int 1) ratio) = Some vs
    /\ rounds_to (1 - vq) vs.
Proof.
  intros Hq Hsmall. rewrite of_int_1.
  unfold PyFloat.sub, PyFloat.prec, PyFloat.emax.
  assert (E1 : signed false (inject_Z 4503599627370496 * pow2 (-52)) == 1)
    by reflexivity.
  destruct (SF2Q_shape _ _ Hq) as [(s & -> & ->) | (s & m & e & -> & ->)].
  - eexists. split; [reflexivity |].
    apply rounds_to_ext with 1; [ring |].
    apply rounds_to_ext with (signed false (inject_Z 4503599627370496 * pow2 (-52)));
      [exact E1 | apply rounds_to_exact].
  - destruct (SFsub_spec false 4503599627370496 (-52) s m e)
      as [(y & Hy & Hr) | [_ Hinf]].
    + exists y. split; [exact Hy |].
      eapply rounds_to_ext; [| exact Hr]. rewrite E1. reflexivity.
    + exfalso. rewrite E1 in Hinf. lra.
Qed.

Lemma times_100_rounds s vs :
  SF2Q s = Some vs -> Qabs (vs * 100) < pow2 971 ->
  exists vr,
    SF2Q (PyFloat.mul s (PyFloat.of_int 100)) = Some vr
    /\ rounds_to (vs * 100) vr.
Proof.
  intros Hs Hsmall. rewrite of_int_100.
  unfold PyFloat.mul, PyFloat.prec, PyFloat.emax.
  assert (E100 : signed false (inject_Z 7036874417766400 * pow2 (-46)) == 100)
    by reflexivity.
  destruct (SF2Q_shape _ _ Hs) as [(sg & -> & ->) | (sg & m & e & -> & ->)].
  - exists 0. split; [reflexivity |].
    apply rounds_to_ext with 0; [ring | apply rounds_to_exact].
  - destruct (SFmul_spec sg m e false 7036874417766400 (-46))
      as [(y & Hy & Hr) | [_ Hinf]].
    + exists y. split; [exact Hy |].
      eapply rounds_to_ext; [| exact Hr]. rewrite E100. reflexivity.
    + exfalso. rewrite E100 in Hinf. lra.
Qed.

(** The ratio of two vertex totals, as an exact fraction. *)
Definition exact_ratio (a b : N) : Q :=
  inject_Z (Z.of_N a) / inject_Z (Z.of_N b).

Lemma exact_ratio_bounds (a b : N) :
  b <> 0%N -> (a < 2 ^ 900)%N ->
  0 <= exact_ratio a b /\ exact_ratio a b < pow2 900.
Proof.
  intros Hb Ha. unfold exact_ratio.
  assert (Hzb : (0 < Z.of_N b)%Z) by lia.
  assert (Hb' : 0 < inject_Z (Z.of_N b))
    by (change 0 with (inject_Z 0); rewrite <- Zlt_Qlt; exact Hzb).
  assert (Ha0 : 0 <= inject_Z (Z.of_N a))
    by (change 0 with (inject_Z 0); rewrite <- Zle_Qle; lia).
  split.
  - apply Qle_shift_div_l; [exact Hb' | lra].
  - apply Qle_lt_trans with (inject_Z (Z.of_N a)).
    + apply Qle_shift_div_r; [exact Hb' |].
      rewrite <- inject_Z_mult, <- Zle_Qle. nia.
    + rewrite <- (inject_Z_pow2 900 ltac:(lia)), <- Zlt_Qlt.
      apply N2Z.inj_lt in Ha. rewrite N2Z.inj_pow in Ha. exact Ha.
Qed.

(** The reported reduction is [(1 - after/before) * 100], up to rounding:
    three binary64 operations, each off by at most one part in [2^53]. *)
Lemma reduction_accuracy (a b : N) ratio :
  b <> 0%N -> (a < 2 ^ 900)%N ->
  int_truediv (Z.of_N a) (Z.of_N b) = inr ratio ->
  exists vr,
    SF2Q (reduction_of ratio) = Some vr
    /\ Qabs (vr - (1 - exact_ratio a b) * 100)
       <= (1 + exact_ratio a b) * pow2 (-44).
Proof.
  intros Hb Ha H.
  destruct (int_truediv_rounds a b ratio Hb H) as (vq & Hq & Hq0 & R1).
  destruct (exact_ratio_bounds a b Hb Ha) as [HA0 HA1].
  fold (exact_ratio a b) in R1. set (A := exact_ratio a b) in *.
  assert (Heta : 0 < pow2 (-1075) /\ pow2 (-1075) <= pow2 (-100)).
  { split; [apply pow2_pos | apply pow2_le; lia]. }
  assert (HB : 1 <= pow2 900 /\ 1024 * pow2 900 <= pow2 971).
  { split; [change 1 with (pow2 0); apply pow2_le; lia |].
    change 1024 with (pow2 10). rewrite <- pow2_add. apply pow2_le. lia. }
  set (eta := pow2 (-1075)) in *. set (B := pow2 900) in *.
  set (P := pow2 971) in *.
  change (pow2 (-100)) with (1 # 1267650600228229401496703205376) in Heta.
  unfold rounds_to in R1. rewrite (Qabs_pos A HA0) in R1.
  fold eta in R1. change (pow2 (-53)) with (1 # 9007199254740992) in R1.
  apply Qabs_Qle_condition in R1.
  (* 1 - ratio *)
  assert (Q1 : Qabs (1 - vq) <= 1 + vq) by (apply Qabs_Qle_condition; lra).
  destruct (one_minus_rounds ratio vq Hq) as (vs & Hs & R2);
    [fold P; lra |].
  unfold rounds_to in R2. fold eta in R2.
  change (pow2 (-53)) with (1 # 9007199254740992) in R2.
  apply Qabs_Qle_condition in R2.
  pose proof (Qabs_nonneg (1 - vq)) as Q1'.
  (* ... * 100 *)
  assert (Q2 : Qabs (vs * 100)
               <= 100 * ((1 + vq) + (1 + vq) * (1 # 9007199254740992) + eta))
    by (apply Qabs_Qle_condition; lra).
  destruct (times_100_rounds _ vs Hs) as (vr & Hr & R3); [fold P; lra |].
  unfold rounds_to in R3. fold eta in R3.
  change (pow2 (-53)) with (1 # 9007199254740992) in R3.
  apply Qabs_Qle_condition in R3.
  pose proof (Qabs_nonneg (vs * 100)) as Q2'.
  exists vr. split; [exact Hr |].
  change (pow2 (-44)) with (1 # 17592186044416).
  apply Qabs_Qle_condition. lra.
Qed.

Local Close Scope Q_scope.

(** C3.  In a run that prints its "Total" line, the two totals on the line
    are the sums of the vertex counts the run read for the mesh objects,
    one count per object, before the decimation loop and after it, and the
    percentage on the line is [(1 - after / before) * 100] computed in
    binary64: the true division of the two totals, subtracted from 1,
    times 100.  Its value differs from the exact fraction
    [(1 - after/before) * 100] by at most [(1 + after/before) * 2^-44],
    that is, by less than [2^-43] whenever the loop did not add vertices. *)
Theorem reduction_reported {os_path : OsPath} (file : string)
        (h : Host) (s : hstate h) :
  let '(t, _, _) := run h (main file) s in
  forall tb ta reduction,
    In (EvPrint (MsgTotal tb ta reduction)) t ->
    exists objects befores rows afters rest,
      length befores = length (filter is_mesh objects)
      /\ map dec_obj rows = filter is_mesh objects
      /\ length afters = length (filter is_mesh objects)
      /\ t = imported file objects
             ++ counted (filter is_mesh objects) befores
             ++ [EvPrint (MsgFound (length (filter is_mesh objects)) tb)]
             ++ concat (map decimate_events rows)
             ++ counted (filter is_mesh objects) afters
             ++ EvPrint (MsgTotal tb ta reduction) :: rest
      /\ tb = total befores
      /\ ta = total afters
      /\ tb <> 0%N
      /\ (exists ratio,
             int_truediv (Z.of_N ta) (Z.of_N tb) = inr ratio
             /\ reduction
                = PyFloat.mul (PyFloat.sub (PyFloat.of_int 1) ratio)
                              (PyFloat.of_int 100))
      /\ ((ta < 2 ^ 900)%N ->
          exists v,
            SF2Q reduction = Some v
            /\ (Qabs (v - (1 - exact_ratio ta tb) * 100)
                <= (1 + exact_ratio ta tb) * pow2 (-44))%Q).
Proof.
  destruct (run h (main file) s) as [[t o] s'] eqn:R.
  apply run_exec, main_exec in R. intros tb ta reduction Hin.
  destruct (total_point _ _ _ _ _ _ R Hin)
    as (objects & befores & rows & afters & ratio & rest
        & Hne & Hb & Hr & Ha & Etb & Eta & Hd & Ered & Et).
  assert (Hnz : tb <> 0%N).
  { intros ->. rewrite int_truediv_zero in Hd. discriminate Hd. }
  exists objects, befores, rows, afters, rest.
  repeat (split; [assumption |]).
  split; [exists ratio; split; [exact Hd | exact Ered] |].
  intros Hsmall. rewrite Ered.
  apply reduction_accuracy; assumption.
Qed.

(** * Further properties of the script *)

(** ** What holds of an event, given the events before it

    [respects Ok hist p]: in every run of [p] that starts after the events
    [hist], each event [ev] satisfies [Ok] of the events before it. *)

Section History.

Variable Ok : list event -> event -> Prop.

Definition along (hist t : list event) : Prop :=
  forall pre ev post, t = pre ++ ev :: post -> Ok (hist ++ pre) ev.

Fixpoint respects {A : Type} (hist : list event) (p : Py A) : Prop :=
  match p with
  | Ret _ | Raise _ | SysExit _ => True
  | Print m k => Ok hist (EvPrint m) /\ respects (hist ++ [EvPrint m]) k
  | Call c k =>
      (forall r, Ok hist (EvCall c r))
      /\ forall r, respects (hist ++ [EvCall c (inr (to_value c r))]) (k r)
  | Try c handler k =>
      (forall r, Ok hist (EvCall c r))
      /\ (forall e, respects (hist ++ [EvCall c (inl e)]) (handler e))
      /\ forall r, respects (hist ++ [EvCall c (inr (to_value c r))]) (k r)
  end.

Lemma along_nil hist : along hist [].
Proof. intros [| x pre] ev post E; discriminate E. Qed.

Lemma along_cons hist ev t :
  Ok hist ev -> along (hist ++ [ev]) t -> along hist (ev :: t).
Proof.
  intros H0 H [| x pre] ev' post E; simpl in E; injection E as <- ->.
  - now rewrite app_nil_r.
  - specialize (H pre ev' post eq_refl). now rewrite <- app_assoc in H.
Qed.

Lemma respects_exec {A : Type} (p : Py A) :
  forall hist t o, respects hist p -> exec p t o -> along hist t.
Proof.
  induction p as [a | e | code | m k IH | c k IH | c hd IHh k IH];
    intros hist t o R H; simpl in R, H.
  - destruct H as [-> _]. apply along_nil.
  - destruct H as [-> _]. apply along_nil.
  - destruct H as [-> _]. apply along_nil.
  - destruct R as [R0 R]. destruct H as (t' & -> & H).
    apply along_cons; [exact R0 | eapply IH; eauto].
  - destruct R as [R0 R]. destruct H as [(e & -> & _) | (r & t' & -> & H)].
    + apply along_cons; [apply R0 | apply along_nil].
    + apply along_cons; [apply R0 | eapply IH; eauto].
  - destruct R as (R0 & Rh & R).
    destruct H as [(e & t' & -> & H) | (r & t' & -> & H)].
    + apply along_cons; [apply R0 | eapply IHh; eauto].
    + apply along_cons; [apply R0 | eapply IH; eauto].
Qed.

Lemma respects_bind {A B : Type} (p : Py A) (f : A -> Py B) :
  forall hist,
    respects hist p ->
    (forall a t, exec p t (Returned a) -> respects (hist ++ t) (f a)) ->
    respects hist (Py_bind p f).
Proof.
  induction p as [a | e | code | m k IH | c k IH | c hd IHh k IH];
    intros hist R F; simpl in R |- *; auto.
  - specialize (F a [] (conj eq_refl eq_refl)). now rewrite app_nil_r in F.
  - destruct R as [R0 R]. split; [exact R0 |].
    apply IH; [exact R |]. intros a t H.
    rewrite <- app_assoc. apply F. simpl. eauto.
  - destruct R as [R0 R]. split; [exact R0 |]. intros r.
    apply IH; [apply R |]. intros a t H.
    rewrite <- app_assoc. apply F. simpl. right. eauto.
  - destruct R as (R0 & Rh & R). split; [exact R0 |]. split.
    + intros e. apply IHh; [apply Rh |]. intros a t H.
      rewrite <- app_assoc. apply F. simpl. left. eauto.
    + intros r. apply IH; [apply R |]. intros a t H.
      rewrite <- app_assoc. apply F. simpl. right. eauto.
Qed.

(** A loop, with an invariant of the events so far. *)
Lemma respects_for_each {A : Type} (Inv : list event -> Prop) (l : list A)
      (body : A -> Py unit) :
  (forall x hist,
      In x l -> Inv hist ->
      respects hist (body x)
      /\ forall t, exec (body x) t (Returned tt) -> Inv (hist ++ t)) ->
  forall hist, Inv hist -> respects hist (for_each l body).
Proof.
  induction l as [| x l IH]; intros H hist I0; [exact I |].
  change (for_each (x :: l) body)
    with (Py_bind (body x) (fun _ => for_each l body)).
  destruct (H x hist (or_introl eq_refl) I0) as [R Hinv].
  apply respects_bind; [exact R |].
  intros [] t Hx. apply IH; [| apply Hinv, Hx].
  intros y hist' Hy. apply H. now right.
Qed.

(** Where [Ok] only looks at certain calls, a program that makes none of
    them respects it. *)
Lemma respects_calls_only {A : Type} (P : call -> Prop) (p : Py A) :
  (forall hist c r, P c -> Ok hist (EvCall c r)) ->
  (forall hist m, Ok hist (EvPrint m)) ->
  calls_only P p -> forall hist, respects hist p.
Proof.
  intros HC HP.
  induction p as [a | e | code | m k IH | c k IH | c hd IHh k IH];
    intros C hist; simpl in C |- *; auto.
  - destruct C as [C0 C]. split; [intros r; apply HC, C0 |].
    intros r. apply IH, C.
  - destruct C as (C0 & Ch & C). split; [intros r; apply HC, C0 |].
    split; [intros e; apply IHh, Ch | intros r; apply IH, C].
Qed.

End History.

Lemma respects_run {os_path : OsPath} (Ok : list event -> event -> Prop)
      (file : string) (h : Host) (s : hstate h) t o s' :
  respects Ok [] (main file) ->
  run h (main file) s = (t, o, s') ->
  forall pre ev post, t = pre ++ ev :: post -> Ok pre ev.
Proof.
  intros R H pre ev post E. apply run_exec in H.
  exact (respects_exec Ok _ _ _ _ R H pre ev post E).
Qed.

(** ** Only the mesh objects of the scene are touched *)

(** The scene object a call reads or changes. *)
Definition call_object (c : call) : option Object :=
  match c with
  | len_vertices obj | set_active obj | select_set obj _
  | modifiers_new obj _ _ => Some obj
  | _ => None
  end.

(** The scene has been read, and [obj] is one of its mesh objects. *)
Definition mesh_of_scene (hist : list event) (obj : Object) : Prop :=
  is_mesh obj = true
  /\ exists objects,
      In (ok scene_objects (VObjects objects)) hist /\ In obj objects.

Definition touches_meshes (hist : list event) (ev : event) : Prop :=
  match ev with
  | EvCall c _ => forall obj, call_object c = Some obj -> mesh_of_scene hist obj
  | EvPrint _ => True
  end.

Lemma mesh_of_scene_app hist t obj :
  mesh_of_scene hist obj -> mesh_of_scene (hist ++ t) obj.
Proof.
  intros (M & objects & Hin & Ho). split; [exact M |].
  exists objects. split; [apply in_or_app; now left | exact Ho].
Qed.

Lemma touches_sum_vertices (l : list Object) :
  forall acc hist,
    (forall obj, In obj l -> mesh_of_scene hist obj) ->
    respects touches_meshes hist (sum_vertices acc l).
Proof.
  induction l as [| obj l IH]; intros acc hist H; [exact I |].
  cbn [sum_vertices bind Monad_Py Py_bind call_host respects].
  split.
  - intros _ o E. injection E as <-. apply H. now left.
  - intros n. apply IH. intros o Ho. apply mesh_of_scene_app, H. now right.
Qed.

Lemma touches_decimate obj hist :
  mesh_of_scene hist obj -> respects touches_meshes hist (decimate obj).
Proof.
  intros H. unfold decimate.
  cbn [bind Monad_Py Py_bind call_host print respects touches_meshes].
  repeat match goal with
         | |- _ /\ _ => split
         | |- True => exact I
         | |- forall _ : reply _, _ => intros ?
         | |- forall _ : host_error + value, _ => intros ?
         | |- forall obj, call_object _ = Some obj -> _ =>
             let o := fresh "o" in
             let E := fresh "E" in
             intros o E; simpl in E; try discriminate E;
             injection E as <-; repeat apply mesh_of_scene_app; exact H
         end.
Qed.

Lemma touches_loop (body : Object -> Py unit) (l : list Object) hist :
  (forall obj hist', mesh_of_scene hist' obj ->
                     respects touches_meshes hist' (body obj)) ->
  (forall obj, In obj l -> mesh_of_scene hist obj) ->
  respects touches_meshes hist (for_each l body).
Proof.
  intros B H.
  apply (respects_for_each touches_meshes
           (fun hist' => forall obj, In obj l -> mesh_of_scene hist' obj));
    [| exact H].
  intros obj hist' Hin Hh. split; [apply B, Hh, Hin |].
  intros t _ o Ho. apply mesh_of_scene_app, Hh, Ho.
Qed.

Lemma touches_main {os_path : OsPath} (file : string) :
  respects touches_meshes [] (main file).
Proof.
  unfold main.
  cbn [bind ret Monad_Py Py_bind print call_host respects touches_meshes].
  repeat (split; [first [exact I | intros _ o E; discriminate E] |]).
  intros objects.
  set (hist := _ ++ [EvCall scene_objects _]).
  assert (K : forall obj, In obj (filter is_mesh objects) ->
                          mesh_of_scene hist obj).
  { intros obj Hin. apply filter_In in Hin. destruct Hin as [Hin M].
    split; [exact M |]. exists objects. split; [| exact Hin].
    unfold hist. apply in_or_app. right. simpl. left. reflexivity. }
  clearbody hist.
  assert (K' : forall t obj, In obj (filter is_mesh objects) ->
                             mesh_of_scene (hist ++ t) obj)
    by (intros t obj Hin; apply mesh_of_scene_app, K, Hin).
  apply respects_bind.
  { destruct (filter is_mesh objects); simpl; auto. }
  intros ? t0 _.
  apply respects_bind; [apply touches_sum_vertices, K' |].
  intros tb t1 _. cbn [respects touches_meshes]. split; [exact I |].
  apply respects_bind.
  { apply touches_loop; [apply touches_decimate |].
    intros obj Hin. repeat apply mesh_of_scene_app. apply K, Hin. }
  intros ? t2 _.
  apply respects_bind.
  { apply touches_sum_vertices. intros obj Hin.
    repeat apply mesh_of_scene_app. apply K, Hin. }
  intros ta t3 _.
  apply respects_bind; [destruct (int_truediv _ _); exact I |].
  intros ratio t4 _. cbn [respects touches_meshes]. split; [exact I |].
  apply respects_bind.
  { apply touches_loop.
    - intros obj hist' H. simpl. split; [| auto].
      intros _ o E. injection E as <-. exact H.
    - intros obj Hin. repeat apply mesh_of_scene_app. apply K, Hin. }
  intros ? t5 _. cbn [respects touches_meshes].
  split; [exact I |].
  split; [intros _ o E; discriminate E |]. intros ?.
  split; [exact I |].
  split; [intros _ o E; discriminate E |]. intros [|].
  - cbn [bind ret Monad_Py Py_bind print call_host respects touches_meshes].
    split; [intros _ o E; discriminate E |]. intros size.
    destruct (int_truediv _ _); simpl; auto.
  - simpl. auto.
Qed.

(** X2.  The script touches no object but the mesh objects of the scene it
    imported: every call that reads an object's vertices, makes an object
    active, selects or deselects it, or adds a modifier to it is made after
    the scene was read, on an object of that scene whose type is ['MESH'].
    Cameras, lights and empties are left alone. *)
Theorem only_mesh_objects_touched {os_path : OsPath} (file : string)
        (h : Host) (s : hstate h) :
  let '(t, _, _) := run h (main file) s in
  forall pre c r post obj,
    t = pre ++ EvCall c r :: post ->
    call_object c = Some obj ->
    is_mesh obj = true
    /\ exists objects,
        In (ok scene_objects (VObjects objects)) pre /\ In obj objects.
Proof.
  destruct (run h (main file) s) as [[t o] s'] eqn:R.
  intros pre c r post obj E Hc.
  exact (respects_run touches_meshes file h s t o s'
           (touches_main file) R pre _ post E obj Hc).
Qed.

(** ** The context a modifier is applied in *)

(** [bpy.ops.object.modifier_apply] acts on the active object.  What the
    script itself has set up when it calls it: the object it last made
    active, and the modifier it last added. *)
Definition active_step (st : option Object) (ev : event) : option Object :=
  match ev with
  | EvCall (set_active obj) (inr _) => Some obj
  | _ => st
  end.

Definition active_object (t : list event) : option Object :=
  fold_left active_step t None.

Definition added_step (st : option (Object * string * Modifier)) (ev : event)
  : option (Object * string * Modifier) :=
  match ev with
  | EvCall (modifiers_new obj name _) (inr (VModifier m)) => Some (obj, name, m)
  | _ => st
  end.

Definition last_added (t : list event) : option (Object * string * Modifier) :=
  fold_left added_step t None.

Definition applied_in_context (hist : list event) (ev : event) : Prop :=
  match ev with
  | EvCall (modifier_apply name) _ =>
      exists obj m,
        active_object hist = Some obj
        /\ last_added hist = Some (obj, name, m)
        /\ selection hist obj = Some true
        /\ forall o, selection hist o = Some true -> o = obj
  | _ => True
  end.

Definition none_selected (hist : list event) : Prop :=
  forall o, selection hist o <> Some true.

Definition not_select (ev : event) : Prop :=
  match ev with
  | EvCall (select_set _ _) _ => False
  | _ => True
  end.

Lemma Object_eqb_eq a b : Object_eqb a b = true -> a = b.
Proof.
  unfold Object_eqb. intros H. apply andb_prop in H. destruct H as [H1 H2].
  apply String.eqb_eq in H1, H2. destruct a, b. simpl in *. congruence.
Qed.

Lemma selection_skip obj t :
  Forall not_select t ->
  forall st, fold_left (select_step obj) t st = st.
Proof.
  induction 1 as [| ev t H _ IH]; intros st; [reflexivity |].
  simpl. rewrite IH. destruct ev as [m | c r]; [reflexivity |].
  destruct c; try reflexivity. destruct H.
Qed.

Lemma not_select_counted l counts : Forall not_select (counted l counts).
Proof.
  unfold counted. apply Forall_forall. intros ev Hin.
  apply in_map_iff in Hin. destruct Hin as (x & <- & _). exact I.
Qed.

Definition not_apply (c : call) : Prop :=
  match c with
  | modifier_apply _ => False
  | _ => True
  end.

Lemma applied_not_apply {A : Type} (p : Py A) :
  calls_only not_apply p -> forall hist, respects applied_in_context hist p.
Proof.
  apply respects_calls_only.
  - intros hist c r H. destruct c; try exact I. destruct H.
  - intros hist m. exact I.
Qed.

Lemma not_apply_sum_vertices l acc : calls_only not_apply (sum_vertices acc l).
Proof.
  eapply calls_only_weaken; [| apply calls_sum_vertices].
  intros [] H; try destruct H. exact I.
Qed.

Lemma applied_decimate obj hist :
  none_selected hist ->
  respects applied_in_context hist (decimate obj)
  /\ forall t, exec (decimate obj) t (Returned tt) -> none_selected (hist ++ t).
Proof.
  intros Inv. split.
  - unfold decimate.
    cbn [bind Monad_Py Py_bind call_host print respects applied_in_context].
    repeat (split; [intros; exact I |]).
    split; [| intros ?; repeat (split; [intros; exact I |]); intros; exact I].
    match goal with m : reply (modifiers_new _ _ _) |- _ => rename m into modifier end.
    intros _. exists obj, modifier.
    unfold active_object, last_added, selection.
    rewrite !fold_left_app. cbn [fold_left active_step added_step to_value].
    split; [reflexivity |]. split; [reflexivity |]. split.
    + cbn [select_step]. now rewrite Object_eqb_refl.
    + intros o. rewrite !fold_left_app. cbn [fold_left select_step].
      destruct (Object_eqb obj o) eqn:E.
      * intros _. symmetry. now apply Object_eqb_eq.
      * intros H. now destruct (Inv o).
  - intros t H. apply exec_decimate in H.
    destruct H as [(d & <- & -> & _) | (e & H)]; [| discriminate H].
    intros o. unfold selection. rewrite fold_left_app.
    cbn [decimate_events fold_left select_step ok].
    destruct (Object_eqb (dec_obj d) o); [discriminate | apply Inv].
Qed.

Lemma applied_main {os_path : OsPath} (file : string) :
  respects applied_in_context [] (main file).
Proof.
  unfold main.
  cbn [bind ret Monad_Py Py_bind print call_host respects applied_in_context].
  repeat (split; [intros; exact I |]).
  intros objects.
  set (hist := _ ++ [EvCall scene_objects _]).
  assert (S0 : Forall not_select hist).
  { unfold hist. repeat (apply Forall_app_intro); repeat constructor. }
  clearbody hist.
  apply respects_bind.
  { destruct (filter is_mesh objects); simpl; auto. }
  intros ? t0 H0.
  assert (E0 : t0 = []).
  { destruct (filter is_mesh objects); simpl in H0.
    - destruct H0 as (? & _ & _ & H0). discriminate H0.
    - apply H0. }
  subst t0. rewrite app_nil_r.
  apply respects_bind; [apply applied_not_apply, not_apply_sum_vertices |].
  intros tb t1 H1. cbn [respects applied_in_context]. split; [intros; exact I |].
  apply exec_sum_vertices in H1.
  destruct H1 as [(counts & _ & -> & _) | (e & H1)]; [| discriminate H1].
  apply respects_bind.
  { apply (respects_for_each applied_in_context none_selected).
    - intros obj hist' _. apply applied_decimate.
    - intros o. unfold selection. rewrite selection_skip; [discriminate |].
      repeat (apply Forall_app_intro);
        [exact S0 | apply not_select_counted | repeat constructor]. }
  intros ? t2 _.
  apply applied_not_apply.
  apply calls_only_bind; [apply not_apply_sum_vertices |].
  intros ta.
  apply calls_only_bind; [destruct (int_truediv _ _); exact I |].
  intros ratio. cbn [calls_only].
  apply calls_only_bind.
  { apply calls_only_for_each. intros obj _. simpl. auto. }
  intros ?. cbn [calls_only].
  split; [intros; exact I |]. intros ?.
  split; [intros; exact I |]. intros [|].
  - cbn [bind ret Monad_Py Py_bind print call_host calls_only].
    split; [intros; exact I |]. intros size.
    destruct (int_truediv _ _); exact I.
  - exact I.
Qed.

(** X3.  Whenever the script calls [modifier_apply], the object it last
    made active is the object it has just added the modifier to, under the
    name it now applies; that object is selected, and it is the only object
    the script has selected at that moment (the meshes processed before it
    were deselected again). *)
Theorem modifier_applied_in_context {os_path : OsPath} (file : string)
        (h : Host) (s : hstate h) :
  let '(t, _, _) := run h (main file) s in
  forall pre name r post,
    t = pre ++ EvCall (modifier_apply name) r :: post ->
    exists obj m,
      active_object pre = Some obj
      /\ last_added pre = Some (obj, name, m)
      /\ selection pre obj = Some true
      /\ forall o, selection pre o = Some true -> o = obj.
Proof.
  destruct (run h (main file) s) as [[t o] s'] eqn:R.
  intros pre name r post E.
  exact (respects_run applied_in_context file h s t o s'
           (applied_main file) R pre _ post E).
Qed.

(** ** The scene is reset before the import *)

Definition resets_or_imports (ev : event) : Prop :=
  match ev with
  | EvCall (read_factory_settings _) _ | EvCall (import_scene_gltf _) _ => True
  | _ => False
  end.

Lemma middle_keeps_scene mid :
  Forall middle mid -> Forall (fun ev => ~ resets_or_imports ev) mid.
Proof.
  intros H. eapply Forall_impl; [| exact H].
  intros [m | c r] M; simpl; [tauto |].
  destruct c; simpl in M; try discriminate M; tauto.
Qed.

Lemma finish_keeps_scene {os_path : OsPath} (file : string) fin o :
  finish file fin o -> Forall (fun ev => ~ resets_or_imports ev) fin.
Proof.
  intros F. destruct F; repeat constructor; simpl; tauto.
Qed.

(** X1.  Every run begins with the three header lines and then resets the
    host to an empty scene; this is the first host call of the run.  Only
    when it has returned is the import started, on the resolved input path,
    and neither the reset nor the import is ever called a second time. *)
Theorem scene_reset_before_import {os_path : OsPath} (file : string)
        (h : Host) (s : hstate h) :
  let '(t, _, _) := run h (main file) s in
  (exists e, t = greeting file ++ [failed (read_factory_settings true) e])
  \/ exists r rest,
      t = greeting file
          ++ ok (read_factory_settings true) VNone
          :: EvPrint MsgImporting
          :: EvCall (import_scene_gltf (input_file file)) r
          :: rest
      /\ Forall (fun ev => ~ resets_or_imports ev) rest.
Proof.
  destruct (run h (main file) s) as [[t o] s'] eqn:R.
  apply stage_of_run in R.
  destruct R as [t e E | objs Hobjs | objs mid e Hne Hmid Hs
                | objs mid fin o Hne Hmid Fin].
  - destruct E as [-> | [-> | ->]].
    + left. exists e. reflexivity.
    + right. exists (inl e), []. split; [reflexivity | constructor].
    + right. exists (inr VNone), [failed scene_objects e].
      split; [reflexivity |]. repeat constructor. simpl. tauto.
  - right. exists (inr VNone).
    exists [ok scene_objects (VObjects objs); EvPrint MsgNoMesh].
    split; [unfold imported; now rewrite <- app_assoc |].
    repeat constructor; simpl; tauto.
  - right. exists (inr VNone), (ok scene_objects (VObjects objs) :: mid).
    split; [unfold imported; now rewrite <- app_assoc |].
    constructor; [simpl; tauto | apply middle_keeps_scene, Hmid].
  - right. exists (inr VNone).
    exists (ok scene_objects (VObjects objs)
            :: mid ++ EvPrint (MsgExporting (output_file file)) :: fin).
    split; [unfold imported; now rewrite <- app_assoc |].
    constructor; [simpl; tauto |].
    apply Forall_app_intro; [apply middle_keeps_scene, Hmid |].
    constructor; [simpl; tauto | eapply finish_keeps_scene, Fin].
Qed.

(** ** What the DONE line reports *)

Definition done_or_exported {os_path : OsPath} (file : string) (ev : event)
  : Prop :=
  ev = EvPrint MsgDone \/ ev = ok (export_call file) VNone.

Lemma done_not_early {os_path : OsPath} (file : string) t e ev :
  early_failure file t e -> In ev t -> ~ done_or_exported file ev.
Proof.
  intros E Hin D. unfold done_or_exported, export_call in D.
  destruct E as [-> | [-> | ->]]; unfold greeting in Hin;
    destruct D as [-> | ->]; explicit_in Hin.
Qed.

Lemma done_not_imported {os_path : OsPath} (file : string) objects ev :
  In ev (imported file objects) -> ~ done_or_exported file ev.
Proof.
  intros Hin D. unfold done_or_exported, export_call in D.
  unfold imported, greeting in Hin.
  destruct D as [-> | ->]; explicit_in Hin.
Qed.

Lemma done_not_middle {os_path : OsPath} (file : string) mid ev :
  Forall middle mid -> In ev mid -> ~ done_or_exported file ev.
Proof.
  intros Hmid Hin D. pose proof (proj1 (Forall_forall _ _) Hmid _ Hin) as M.
  destruct D as [-> | ->]; discriminate M.
Qed.

(** X4.  The line [DONE!] is printed exactly in the runs whose export call
    returned, directly after it and before the output file is looked for.
    It says nothing about the file: a run whose output file is missing has
    printed it, and then ends with exit status 1. *)
Theorem done_reports_export_call {os_path : OsPath} (file : string)
        (h : Host) (s : hstate h) :
  let '(t, o, _) := run h (main file) s in
  (In (EvPrint MsgDone) t <-> In (ok (export_call file) VNone) t)
  /\ (In (EvPrint MsgDone) t ->
      exists pre r rest,
        t = pre ++ ok (export_call file) VNone
                :: EvPrint MsgDone
                :: EvCall (path_exists (output_file file)) r
                :: rest)
  /\ (output_missing t -> In (EvPrint MsgDone) t /\ o = Exited 1).
Proof.
  destruct (run h (main file) s) as [[t o] s'] eqn:R.
  apply stage_of_run in R.
  assert (K : forall ev,
             done_or_exported file ev -> In ev t ->
             exists pre r rest,
               t = pre ++ ok (export_call file) VNone
                       :: EvPrint MsgDone
                       :: EvCall (path_exists (output_file file)) r
                       :: rest).
  { intros ev D Hin.
    destruct R as [t e E | objs Hobjs | objs mid e Hne Hmid Hs
                  | objs mid fin o Hne Hmid Fin].
    - now destruct (done_not_early _ _ _ _ E Hin).
    - apply in_app_or in Hin. destruct Hin as [Hin | Hin].
      + now destruct (done_not_imported _ _ _ Hin).
      + destruct D as [-> | ->]; explicit_in Hin.
    - apply in_app_or in Hin. destruct Hin as [Hin | Hin].
      + now destruct (done_not_imported _ _ _ Hin).
      + now destruct (done_not_middle file _ _ Hmid Hin).
    - apply in_app_or in Hin. destruct Hin as [Hin | Hin];
        [now destruct (done_not_imported _ _ _ Hin) |].
      apply in_app_or in Hin. destruct Hin as [Hin | Hin];
        [now destruct (done_not_middle file _ _ Hmid Hin) |].
      destruct Hin as [<- | Hin]; [destruct D as [D | D]; discriminate D |].
      exists (imported file objs ++ mid
              ++ [EvPrint (MsgExporting (output_file file))]).
      destruct Fin.
      + exfalso. destruct D as [-> | ->]; explicit_in Hin.
      + exists (inl e), []. now rewrite <- !app_assoc.
      + eexists (inr (VBool false)), _. rewrite <- !app_assoc. reflexivity.
      + eexists (inr (VBool true)), _. rewrite <- !app_assoc. reflexivity.
      + eexists (inr (VBool true)), _. rewrite <- !app_assoc. reflexivity.
      + eexists (inr (VBool true)), _. rewrite <- !app_assoc. reflexivity. }
  split; [| split].
  - split; intros Hin.
    + destruct (K _ (or_introl eq_refl) Hin) as (pre & r & rest & ->).
      apply in_or_app. right. left. reflexivity.
    + destruct (K _ (or_intror eq_refl) Hin) as (pre & r & rest & ->).
      apply in_or_app. right. right. left. reflexivity.
  - intros Hin. apply (K _ (or_introl eq_refl) Hin).
  - intros Hm.
    destruct (stage_output_missing _ _ _ R Hm) as ((pre & ->) & ->).
    split; [| reflexivity].
    apply in_or_app. right. right. left. reflexivity.
Qed.

(** ** More on the two divisions *)

Lemma div_eucl_shifted (p : positive) (n : Z) :
  (0 <= n)%Z -> Z.div_eucl (Z.shiftl (Zpos p) n) (Zpos p) = ((2 ^ n)%Z, 0%Z).
Proof.
  intros Hn. rewrite Z.shiftl_mul_pow2 by exact Hn.
  rewrite (Z.mul_comm (Zpos p)).
  destruct (Z.div_eucl (2 ^ n * Zpos p) (Zpos p)) as [q r] eqn:E.
  assert (Hq : q = (2 ^ n * Zpos p / Zpos p)%Z)
    by (unfold Z.div; now rewrite E).
  assert (Hr : r = ((2 ^ n * Zpos p) mod Zpos p)%Z)
    by (unfold Z.modulo; now rewrite E).
  rewrite Hq, Hr. rewrite Z.div_mul, Z.mod_mul by discriminate. reflexivity.
Qed.

(** A total divided by itself is exactly [1.0]. *)
Lemma int_truediv_self (p : positive) :
  int_truediv (Zpos p) (Zpos p) = inr (PyFloat.of_int 1).
Proof.
  unfold int_truediv. cbn [Z.eqb PyFloat.int_operand].
  unfold PyFloat.div, SFdiv, SFdiv_core_binary.
  replace (Zdigits2 (Zpos p) + 0 - (Zdigits2 (Zpos p) + 0))%Z with 0%Z by lia.
  change (Z.min (fexp PyFloat.prec PyFloat.emax 0) (0 - 0)) with (-53)%Z.
  change (0 - 0 - -53)%Z with 53%Z. cbv iota.
  rewrite (div_eucl_shifted p 53) by lia.
  unfold new_location, new_location_even, new_location_odd.
  destruct (Z.even (Zpos p)); reflexivity.
Qed.

(** Zero divided by a total is exactly [0.0]. *)
Lemma int_truediv_zero_l (p : positive) :
  int_truediv 0 (Zpos p) = inr (S754_zero false).
Proof. reflexivity. Qed.

Lemma reduction_of_one : reduction_of (PyFloat.of_int 1) = S754_zero false.
Proof. reflexivity. Qed.

Lemma reduction_of_zero : reduction_of (S754_zero false) = PyFloat.of_int 100.
Proof. reflexivity. Qed.

(** X6.  Two values of the reported reduction are exact.  When no vertex
    is left after the loop the reduction is the float [100.0], and when the
    loop changed nothing, so that the two totals are equal, it is [0.0];
    there is no rounding residue in either case. *)
Theorem reduction_edge_values {os_path : OsPath} (file : string)
        (h : Host) (s : hstate h) :
  let '(t, _, _) := run h (main file) s in
  forall tb ta reduction,
    In (EvPrint (MsgTotal tb ta reduction)) t ->
    (ta = 0%N -> reduction = PyFloat.of_int 100)
    /\ (ta = tb -> reduction = S754_zero false).
Proof.
  destruct (run h (main file) s) as [[t o] s'] eqn:R.
  apply run_exec, main_exec in R. intros tb ta reduction Hin.
  destruct (total_point _ _ _ _ _ _ R Hin)
    as (objects & befores & rows & afters & ratio & rest
        & _ & _ & _ & _ & _ & _ & Hd & -> & _).
  destruct tb as [| pb]; [rewrite int_truediv_zero in Hd; discriminate Hd |].
  split.
  - intros ->. cbn [Z.of_N] in Hd. rewrite int_truediv_zero_l in Hd.
    injection Hd as <-. apply reduction_of_zero.
  - intros ->. cbn [Z.of_N] in Hd. rewrite int_truediv_self in Hd.
    injection Hd as <-. apply reduction_of_one.
Qed.

Local Open Scope Q_scope.


Lemma N_inject_nonneg (a : N) : 0 <= inject_Z (Z.of_N a).
Proof. change 0 with (inject_Z 0). rewrite <- Zle_Qle. lia. Qed.

(** A true division overflows only when the quotient is at least [2^971]. *)
Lemma int_truediv_overflow (a b : N) :
  int_truediv (Z.of_N a) (Z.of_N b) = inl OverflowError ->
  b <> 0%N /\ (2 ^ 971 * b <= a)%N.
Proof.
  intros H. destruct b as [| pb]; [discriminate H |].
  split; [discriminate |].
  destruct a as [| pa]; [discriminate H |].
  unfold int_truediv in H. cbn [Z.of_N Z.eqb PyFloat.int_operand] in H.
  unfold PyFloat.div, PyFloat.prec, PyFloat.emax in H.
  destruct (SFdiv_int pa pb) as [(y & Hy & _) | [_ Hv]].
  - destruct (SFdiv 53 1024 (S754_finite false pa 0) (S754_finite false pb 0));
      discriminate H || discriminate Hy.
  - destruct (N.lt_ge_cases (N.pos pa) (2 ^ 971 * N.pos pb)) as [L | G];
      [| exact G].
    exfalso. apply (Qlt_irrefl (pow2 971)).
    eapply Qle_lt_trans; [exact Hv |].
    apply Qlt_shift_div_r; [reflexivity |].
    rewrite <- (inject_Z_pow2 971 ltac:(lia)), <- inject_Z_mult, <- Zlt_Qlt.
    apply N2Z.inj_lt in L. rewrite N2Z.inj_mul, N2Z.inj_pow in L. exact L.
Qed.




Local Close Scope Q_scope.



(** The sum of counts that are all below a bound. *)
Lemma total_bound (b : N) (l : list Object) :
  forall counts,
    length counts = length l ->
    (forall obj n,
        In (ok (len_vertices obj) (VInt n)) (counted l counts) -> (n < b)%N) ->
    (total counts <= N.of_nat (length l) * b)%N.
Proof.
  induction l as [| obj l IH]; intros [| n counts] Hlen H;
    try discriminate Hlen.
  - cbn. lia.
  - injection Hlen as Hlen.
    assert (Hn : (n < b)%N) by (apply (H obj); left; reflexivity).
    assert (Hr : (total counts <= N.of_nat (length l) * b)%N).
    { apply IH; [exact Hlen |]. intros obj' n' Hin. apply (H obj').
      right. exact Hin. }
    unfold total. cbn [fold_left]. rewrite fold_left_add_total.
    cbn [length]. lia.
Qed.

Lemma filter_length_le {A : Type} (f : A -> bool) (l : list A) :
  length (filter f l) <= length l.
Proof.
  induction l as [| x l IH]; simpl; [lia |]. destruct (f x); simpl; lia.
Qed.

(** X8.  Neither division overflows on numbers Python can produce here.
    [len] returns at most [2^63 - 1], for the scene's list of objects as
    for a mesh's vertices, and a file size fits a signed 64-bit offset.  In
    a run where the host's replies respect these ranges, no true division
    raises [OverflowError]: the vertex total after the loop stays below
    [2^126], and the file size is far from [2^991]. *)
Theorem divisions_do_not_overflow {os_path : OsPath} (file : string)
        (h : Host) (s : hstate h) :
  let '(t, o, _) := run h (main file) s in
  (forall objects,
      In (ok scene_objects (VObjects objects)) t ->
      (N.of_nat (length objects) < 2 ^ 63)%N) ->
  (forall obj n, In (ok (len_vertices obj) (VInt n)) t -> (n < 2 ^ 63)%N) ->
  (forall path size,
      In (ok (path_getsize path) (VInt size)) t -> (size < 2 ^ 63)%N) ->
  o <> Uncaught OverflowError.
Proof.
  destruct (run h (main file) s) as [[t o] s'] eqn:R.
  apply run_exec, main_exec in R. intros Hobjs Hlen Hsize Ho.
  destruct R as [ | | | | | | | objects befores rows afters e Hne Hb Hr Ha Hd
                | | objects befores rows afters ratio t o Hne Hb Hr Ha Hd Fin];
    try discriminate Ho.
  - injection Ho as ->. apply int_truediv_overflow in Hd.
    destruct Hd as [Hnz Hd].
    assert (Ho : (N.of_nat (length objects) < 2 ^ 63)%N).
    { apply Hobjs. apply in_or_app. left. unfold imported.
      apply in_or_app. right. cbn [In]. tauto. }
    assert (Hm : (total afters
                  <= N.of_nat (length (filter is_mesh objects)) * 2 ^ 63)%N).
    { apply total_bound; [exact Ha |]. intros obj n Hin. apply (Hlen obj).
      apply in_or_app. right. unfold decimated.
      apply in_or_app. right. apply in_or_app. right.
      apply in_or_app. right. exact Hin. }
    pose proof (filter_length_le is_mesh objects) as Hf.
    assert (Hp : (2 ^ 971 = 2 ^ 845 * (2 ^ 63 * 2 ^ 63))%N)
      by (rewrite <- !N.pow_add_r; reflexivity).
    set (b := (2 ^ 63)%N) in *.
    assert (Hb1 : (1 <= total befores)%N) by lia.
    assert (Hn : (N.of_nat (length (filter is_mesh objects)) < b)%N) by lia.
    assert (K1 : (total afters < b * b)%N) by nia.
    assert (K2 : (b * b <= 2 ^ 971 * total befores)%N).
    { rewrite Hp. assert (2 ^ 845 <> 0)%N by (apply N.pow_nonzero; discriminate).
      nia. }
    lia.
  - destruct Fin as [ | | | | size e Hs | ]; try discriminate Ho.
    injection Ho as ->.
    change MiB with (Z.of_N 1048576) in Hs.
    apply int_truediv_overflow in Hs. destruct Hs as [_ Hs].
    assert (Hz : (size < 2 ^ 63)%N).
    { apply (Hsize (output_file file)).
      repeat (apply in_or_app; right). cbn [In]. tauto. }
    assert (Hp : (2 ^ 971 = 2 ^ 908 * 2 ^ 63)%N)
      by (rewrite <- N.pow_add_r; reflexivity).
    rewrite Hp in Hs. set (b := (2 ^ 63)%N) in *.
    assert (2 ^ 908 <> 0)%N by (apply N.pow_nonzero; discriminate).
    nia.
Qed.

(** ** The resolved paths on POSIX *)

Lemma startswith_sep_app (a b : string) :
  Posix.startswith_sep a = true -> Posix.startswith_sep (a ++ b)%string = true.
Proof. destruct a; [discriminate | auto]. Qed.

Lemma normpath_absolute (p : string) :
  Posix.startswith_sep p = true -> Posix.startswith_sep (Posix.normpath p) = true.
Proof.
  intros H. unfold Posix.normpath. rewrite H.
  destruct p as [| c p]; [discriminate H |]. cbn [Posix.nonempty negb].
  destruct (String.prefix "//" (String c p)
            && negb (String.prefix "///" (String c p))); reflexivity.
Qed.

Lemma rstrip_sep_nonempty (s : string) :
  Posix.all_sep s = false -> Posix.nonempty (Posix.rstrip_sep s) = true.
Proof.
  induction s as [| c s IH]; [discriminate |]. simpl. intros H.
  destruct (Posix.is_sep c); [| reflexivity]. simpl in H |- *.
  rewrite (IH H). reflexivity.
Qed.

Lemma dirname_absolute (p : string) :
  Posix.startswith_sep p = true -> Posix.startswith_sep (Posix.dirname p) = true.
Proof.
  destruct p as [| c p]; [discriminate |]. intros H. simpl in H.
  unfold Posix.dirname. cbn [Posix.head_to_last_sep]. rewrite H.
  cbn [orb Posix.nonempty andb].
  destruct (Posix.all_sep (String c (Posix.head_to_last_sep p))) eqn:A;
    cbn [negb]; [exact H |].
  cbn [Posix.rstrip_sep]. simpl in A. rewrite H in A. simpl in A.
  rewrite (rstrip_sep_nonempty _ A), H. simpl. exact H.
Qed.

Lemma join_absolute (a b : string) :
  Posix.startswith_sep a = true -> Posix.startswith_sep (Posix.join a b) = true.
Proof.
  intros H. unfold Posix.join.
  destruct (Posix.startswith_sep b) eqn:B; [exact B |].
  destruct (negb (Posix.nonempty a) || Posix.endswith_sep a);
    now apply startswith_sep_app.
Qed.

Lemma abspath_absolute (cwd path : string) :
  Posix.startswith_sep cwd = true ->
  Posix.startswith_sep (Posix.abspath cwd path) = true.
Proof.
  intros H. unfold Posix.abspath. apply normpath_absolute.
  destruct (Posix.startswith_sep path) eqn:P; [exact P |].
  now apply join_absolute.
Qed.

(** X10.  On POSIX, where the working directory is an absolute path, the
    script hands only absolute paths to the host, however its own path was
    given: the project root, the input file and the output file all start
    with ["/"], so the host's notion of a current directory plays no part
    in what is read and written. *)
Theorem resolved_paths_absolute (cwd file : string) :
  Posix.startswith_sep cwd = true ->
  let os_path := posixpath cwd in
  Posix.startswith_sep (project_root file) = true
  /\ Posix.startswith_sep (input_file file) = true
  /\ Posix.startswith_sep (output_file file) = true.
Proof.
  intros H os_path.
  assert (R : Posix.startswith_sep (project_root file) = true).
  { unfold project_root, script_dir. cbn [dirname abspath os_path posixpath].
    now apply dirname_absolute, dirname_absolute, abspath_absolute. }
  split; [exact R |].
  unfold input_file, output_file. cbn [join os_path posixpath].
  split; now apply join_absolute.
Qed.

(** ** Where the project root is

    Paths as lists of components.  A proper component is not empty, has no
    ["/"] in it, and is neither ["."] nor [".."]; [rooted comps] is the
    absolute path with these components. *)

Fixpoint no_sep (s : string) : bool :=
  match s with
  | EmptyString => true
  | String c s' => negb (Posix.is_sep c) && no_sep s'
  end.

Definition component (s : string) : bool :=
  Posix.nonempty s && no_sep s
  && negb (String.eqb s ".") && negb (String.eqb s "..").

Definition rooted (comps : list string) : string :=
  String Posix.sep (Posix.join_sep comps).

Definition components (comps : list string) : Prop :=
  Forall (fun c => component c = true) comps.

Lemma component_shape (s : string) :
  component s = true ->
  exists c s', s = String c s' /\ Posix.is_sep c = false /\ no_sep s' = true.
Proof.
  unfold component. intros H.
  apply andb_prop in H. destruct H as [H _].
  apply andb_prop in H. destruct H as [H _].
  apply andb_prop in H. destruct H as [N S].
  destruct s as [| c s']; [discriminate N |]. simpl in S.
  apply andb_prop in S. destruct S as [S1 S2].
  exists c, s'. split; [reflexivity |]. split; [| exact S2].
  now destruct (Posix.is_sep c).
Qed.

Lemma component_no_sep (s : string) : component s = true -> no_sep s = true.
Proof.
  intros H. destruct (component_shape s H) as (c & s' & -> & H1 & H2).
  simpl. now rewrite H1, H2.
Qed.

Lemma split_sep_no_sep (s : string) :
  no_sep s = true -> Posix.split_sep s = [s].
Proof.
  induction s as [| c s IH]; [reflexivity |]. simpl. intros H.
  apply andb_prop in H. destruct H as [H1 H2].
  destruct (Posix.is_sep c); [discriminate H1 |]. now rewrite (IH H2).
Qed.

Lemma split_sep_app (a b : string) :
  no_sep a = true ->
  Posix.split_sep (a ++ String Posix.sep b)%string = a :: Posix.split_sep b.
Proof.
  induction a as [| c a IH]; [reflexivity |]. simpl. intros H.
  apply andb_prop in H. destruct H as [H1 H2].
  destruct (Posix.is_sep c); [discriminate H1 |]. now rewrite (IH H2).
Qed.

Lemma join_sep_cons (c c' : string) (cs : list string) :
  Posix.join_sep (c :: c' :: cs)
  = (c ++ String Posix.sep (Posix.join_sep (c' :: cs)))%string.
Proof. reflexivity. Qed.

(** Splitting undoes joining. *)
Lemma split_sep_join_sep (cs : list string) :
  cs <> [] -> components cs -> Posix.split_sep (Posix.join_sep cs) = cs.
Proof.
  induction cs as [| c cs IH]; [contradiction |]. intros _ H.
  inversion H as [| ? ? Hc Hcs]; subst.
  destruct cs as [| c' cs].
  - apply split_sep_no_sep, component_no_sep, Hc.
  - rewrite join_sep_cons, split_sep_app by apply component_no_sep, Hc.
    rewrite IH; [reflexivity | discriminate | exact Hcs].
Qed.

Lemma join_sep_app (cs rs : list string) :
  cs <> [] -> rs <> [] ->
  Posix.join_sep (cs ++ rs)
  = (Posix.join_sep cs ++ String Posix.sep (Posix.join_sep rs))%string.
Proof.
  induction cs as [| c cs IH]; [contradiction |]. intros _ Hr.
  destruct cs as [| c' cs].
  - destruct rs; [contradiction | reflexivity].
  - change ((c :: c' :: cs) ++ rs) with (c :: c' :: (cs ++ rs)).
    rewrite !join_sep_cons.
    change (c' :: cs ++ rs) with ((c' :: cs) ++ rs).
    rewrite IH by (discriminate || exact Hr).
    now rewrite string_app_assoc.
Qed.

Lemma norm_step_component k (new_comps : list string) (c : string) :
  component c = true -> Posix.norm_step k new_comps c = c :: new_comps.
Proof.
  unfold component, Posix.norm_step. intros H.
  apply andb_prop in H. destruct H as [H Hdd].
  apply andb_prop in H. destruct H as [H Hd].
  apply andb_prop in H. destruct H as [N _].
  destruct c as [| x c]; [discriminate N |].
  apply negb_true_iff in Hd, Hdd. rewrite Hd, Hdd. reflexivity.
Qed.

Lemma fold_norm_step k (cs : list string) :
  components cs ->
  forall acc, fold_left (Posix.norm_step k) cs acc = rev cs ++ acc.
Proof.
  induction 1 as [| c cs Hc _ IH]; intros acc; [reflexivity |].
  simpl. rewrite (norm_step_component _ _ _ Hc), IH, <- app_assoc.
  reflexivity.
Qed.

Lemma join_sep_head (c : string) (cs : list string) :
  component c = true ->
  exists x s, Posix.join_sep (c :: cs) = String x s /\ Posix.is_sep x = false.
Proof.
  intros H. destruct (component_shape c H) as (x & s' & -> & Hx & _).
  destruct cs; simpl; eauto.
Qed.

(** A path of proper components is in normal form. *)
Lemma normpath_rooted (cs : list string) :
  components cs -> Posix.normpath (rooted cs) = rooted cs.
Proof.
  intros H. unfold Posix.normpath, rooted.
  cbn [Posix.nonempty negb Posix.startswith_sep].
  change (Posix.is_sep Posix.sep) with true. cbv iota.
  destruct cs as [| c cs].
  - reflexivity.
  - inversion H as [| ? ? Hc Hcs]; subst.
    destruct (join_sep_head c cs Hc) as (x & s & E & Hx).
    assert (P : String.prefix "//" (String Posix.sep (Posix.join_sep (c :: cs)))
                = false).
    { rewrite E. cbn [String.prefix].
      destruct (ascii_dec "/" Posix.sep) as [_ | N]; [| now destruct N].
      destruct (ascii_dec "/" x) as [<- | _];
        [discriminate Hx | reflexivity]. }
    rewrite P. cbn [andb].
    cbn [Posix.split_sep]. change (Posix.is_sep Posix.sep) with true.
    cbv iota. rewrite (split_sep_join_sep (c :: cs)) by (discriminate || exact H).
    cbn [fold_left]. change (Posix.norm_step 1 [] "") with (@nil string).
    rewrite (norm_step_component 1 [] c Hc), (fold_norm_step 1 cs Hcs).
    change (rev cs ++ [c]) with (rev (c :: cs)).
    rewrite rev_involutive. reflexivity.
Qed.

Lemma head_to_last_sep_no_sep (x : string) :
  no_sep x = true -> Posix.head_to_last_sep x = "".
Proof.
  induction x as [| c x IH]; [reflexivity |]. simpl. intros H.
  apply andb_prop in H. destruct H as [H1 H2]. rewrite (IH H2).
  now destruct (Posix.is_sep c).
Qed.

Lemma nonempty_app_r (a b : string) :
  Posix.nonempty b = true -> Posix.nonempty (a ++ b)%string = true.
Proof. destruct a; auto. Qed.

Lemma head_to_last_sep_app (a x : string) :
  no_sep x = true ->
  Posix.head_to_last_sep (a ++ String Posix.sep x)%string
  = (a ++ String Posix.sep "")%string.
Proof.
  intros H. induction a as [| c a IH].
  - simpl. now rewrite (head_to_last_sep_no_sep x H).
  - simpl. rewrite IH. rewrite nonempty_app_r by reflexivity.
    now rewrite orb_true_r.
Qed.

Lemma rstrip_sep_app (q : string) :
  Posix.nonempty q = true -> Posix.endswith_sep q = false ->
  Posix.rstrip_sep (q ++ String Posix.sep "")%string = q.
Proof.
  induction q as [| c q IH]; [discriminate |]. intros _ E.
  destruct q as [| d q].
  - simpl in E |- *. now rewrite E.
  - change (Posix.endswith_sep (String c (String d q)))
      with (Posix.endswith_sep (String d q)) in E.
    change (String c (String d q) ++ String Posix.sep "")%string
      with (String c (String d q ++ String Posix.sep ""))%string.
    cbn [Posix.rstrip_sep]. rewrite (IH eq_refl E).
    cbn [Posix.nonempty negb]. now rewrite andb_false_r.
Qed.

Lemma endswith_sep_no_sep (s : string) :
  no_sep s = true -> Posix.endswith_sep s = false.
Proof.
  induction s as [| c s IH]; [reflexivity |]. simpl. intros H.
  apply andb_prop in H. destruct H as [H1 H2].
  destruct s; [now destruct (Posix.is_sep c) | exact (IH H2)].
Qed.

Lemma endswith_sep_app (a b : string) :
  Posix.nonempty b = true ->
  Posix.endswith_sep (a ++ b)%string = Posix.endswith_sep b.
Proof.
  intros H. induction a as [| c a IH]; [reflexivity |].
  change (String c a ++ b)%string with (String c (a ++ b))%string.
  destruct (a ++ b)%string as [| d r] eqn:E.
  - destruct a; [simpl in E; subst b; discriminate H | discriminate E].
  - exact IH.
Qed.

Lemma endswith_sep_join_sep (cs : list string) :
  cs <> [] -> components cs ->
  Posix.nonempty (Posix.join_sep cs) = true
  /\ Posix.endswith_sep (Posix.join_sep cs) = false.
Proof.
  induction cs as [| c cs IH]; [contradiction |]. intros _ H.
  inversion H as [| ? ? Hc Hcs]; subst.
  destruct (component_shape c Hc) as (x & s' & -> & Hx & Hs).
  destruct cs as [| c' cs].
  - split; [reflexivity |]. apply endswith_sep_no_sep. simpl.
    now rewrite Hx, Hs.
  - destruct (IH ltac:(discriminate) Hcs) as [N E].
    rewrite join_sep_cons. split; [reflexivity |].
    rewrite endswith_sep_app by reflexivity.
    destruct (Posix.join_sep (c' :: cs)); [discriminate N | exact E].
Qed.

Lemma rooted_snoc (cs : list string) (x : string) :
  cs <> [] -> rooted (cs ++ [x]) = (rooted cs ++ String Posix.sep x)%string.
Proof.
  intros H. unfold rooted. rewrite join_sep_app by (exact H || discriminate).
  reflexivity.
Qed.

(** The directory of a path is the path without its last component. *)
Lemma dirname_rooted (cs : list string) (x : string) :
  components cs -> component x = true ->
  Posix.dirname (rooted (cs ++ [x])) = rooted cs.
Proof.
  intros H Hx. pose proof (component_no_sep x Hx) as Nx.
  unfold Posix.dirname. destruct cs as [| c cs].
  - change (rooted ([] ++ [x])) with ("" ++ String Posix.sep x)%string.
    rewrite head_to_last_sep_app by exact Nx. reflexivity.
  - rewrite rooted_snoc by discriminate.
    rewrite head_to_last_sep_app by exact Nx.
    inversion H as [| ? ? Hc Hcs]; subst.
    destruct (endswith_sep_join_sep (c :: cs) ltac:(discriminate) H) as [N E].
    destruct (join_sep_head c cs Hc) as (y & s & Ej & Hy).
    assert (A : Posix.all_sep (rooted (c :: cs) ++ String Posix.sep "")%string
                = false).
    { unfold rooted. rewrite Ej. simpl. now rewrite Hy. }
    rewrite A. rewrite nonempty_app_r by reflexivity. cbn [andb negb].
    apply rstrip_sep_app; [reflexivity |].
    unfold rooted. rewrite Ej in E |- *. exact E.
Qed.

(** Joining a relative path of proper components onto such a path appends
    the components. *)
Lemma join_rooted (cs rs : list string) :
  components cs -> components rs -> rs <> [] ->
  Posix.join (rooted cs) (Posix.join_sep rs) = rooted (cs ++ rs).
Proof.
  intros H Hr Hne. destruct rs as [| r rs]; [contradiction |].
  inversion Hr as [| ? ? Hc _]; subst.
  destruct (join_sep_head r rs Hc) as (y & s & Ej & Hy).
  unfold Posix.join. rewrite Ej. cbn [Posix.startswith_sep]. rewrite Hy.
  rewrite <- Ej. destruct cs as [| c cs].
  - reflexivity.
  - destruct (endswith_sep_join_sep (c :: cs) ltac:(discriminate) H) as [N E].
    assert (E' : Posix.endswith_sep (rooted (c :: cs)) = false).
    { unfold rooted. destruct (Posix.join_sep (c :: cs));
        [discriminate N | exact E]. }
    rewrite E'. cbn [rooted Posix.nonempty negb orb].
    unfold rooted. rewrite join_sep_app by discriminate. reflexivity.
Qed.

Lemma abspath_rooted (cwd : string) (cs : list string) :
  components cs -> Posix.abspath cwd (rooted cs) = rooted cs.
Proof.
  intros H. unfold Posix.abspath.
  change (Posix.startswith_sep (rooted cs)) with true. cbv iota.
  now apply normpath_rooted.
Qed.

Lemma abspath_relative (cs rs : list string) :
  components cs -> components rs -> rs <> [] ->
  Posix.abspath (rooted cs) (Posix.join_sep rs) = rooted (cs ++ rs).
Proof.
  intros H Hr Hne. unfold Posix.abspath.
  assert (S : Posix.startswith_sep (Posix.join_sep rs) = false).
  { destruct rs as [| r rs]; [contradiction |].
    inversion Hr as [| ? ? Hc _]; subst.
    destruct (join_sep_head r rs Hc) as (y & s & -> & Hy). exact Hy. }
  rewrite S, join_rooted by assumption.
  apply normpath_rooted. apply Forall_app. split; assumption.
Qed.

Lemma two_levels_up (root : list string) (d n : string) :
  components root -> component d = true -> component n = true ->
  Posix.dirname (Posix.dirname (rooted (root ++ [d; n]))) = rooted root.
Proof.
  intros H Hd Hn.
  change (root ++ [d; n]) with (root ++ [d] ++ [n]). rewrite app_assoc.
  rewrite dirname_rooted; [| | exact Hn].
  - now apply dirname_rooted.
  - apply Forall_app. split; [exact H | now constructor].
Qed.

Lemma input_path_components :
  Posix.split_sep INPUT_PATH
  = ["public"; "assets"; "models"; "beetle_shell.glb"].
Proof. vm_compute. reflexivity. Qed.

Lemma output_path_components :
  Posix.split_sep OUTPUT_PATH
  = ["public"; "assets"; "models"; "beetle_shell_optimized.glb"].
Proof. vm_compute. reflexivity. Qed.

Lemma path_components :
  components (Posix.split_sep INPUT_PATH)
  /\ Posix.join_sep (Posix.split_sep INPUT_PATH) = INPUT_PATH
  /\ components (Posix.split_sep OUTPUT_PATH)
  /\ Posix.join_sep (Posix.split_sep OUTPUT_PATH) = OUTPUT_PATH.
Proof.
  rewrite input_path_components, output_path_components.
  split; [| split; [| split]].
  - repeat (constructor; [vm_compute; reflexivity |]). constructor.
  - vm_compute. reflexivity.
  - repeat (constructor; [vm_compute; reflexivity |]). constructor.
  - vm_compute. reflexivity.
Qed.

(** ** The paths of a run *)

(** A run works on the input path [inp] and the output path [out]: its
    first two lines name them; unless the scene reset fails, the import is
    called on [inp]; a run that ends with status 0 has exported to [out]
    (binary, the selection only, modifiers applied), found [out] and read
    its size; a run that found its output missing has exported to [out] and
    looked for [out]; and no call of the run names any other path. *)
Definition uses_paths (inp out : string) (t : list event) (o : outcome unit)
  : Prop :=
  (exists rest, t = EvPrint (MsgInput inp) :: EvPrint (MsgOutput out) :: rest)
  /\ ((exists e, In (failed (read_factory_settings true) e) t)
      \/ exists r, In (EvCall (import_scene_gltf inp) r) t)
  /\ (exit_code o = Some 0%Z ->
      In (ok (export_scene_gltf out "GLB" true true) VNone) t
      /\ In (ok (path_exists out) (VBool true)) t
      /\ exists size, In (ok (path_getsize out) (VInt size)) t)
  /\ (output_missing t ->
      In (ok (export_scene_gltf out "GLB" true true) VNone) t
      /\ In (ok (path_exists out) (VBool false)) t)
  /\ (forall c r,
         In (EvCall c r) t ->
         match c with
         | import_scene_gltf filepath => filepath = inp
         | export_scene_gltf filepath _ _ _ => filepath = out
         | path_exists path | path_getsize path => path = out
         | _ => True
         end).

Lemma main_run_header {os_path : OsPath} (file : string) t o :
  main_run file t o ->
  exists rest,
    t = EvPrint (MsgInput (input_file file))
        :: EvPrint (MsgOutput (output_file file)) :: rest.
Proof.
  intros H. destruct H; unfold imported, greeting; cbn [app];
    eexists; reflexivity.
Qed.

Lemma main_run_import {os_path : OsPath} (file : string) t o :
  main_run file t o ->
  (exists e, In (failed (read_factory_settings true) e) t)
  \/ exists r, In (EvCall (import_scene_gltf (input_file file)) r) t.
Proof.
  intros H. destruct H;
    try (right; eexists; unfold imported, greeting, ok, failed;
         cbn [app In]; do 5 right; left; reflexivity).
  left. exists e. unfold greeting. cbn [app In]. do 3 right. left.
  reflexivity.
Qed.

Lemma run_uses_paths {os_path : OsPath} (file : string)
      (h : Host) (s : hstate h) t o s' :
  run h (main file) s = (t, o, s') ->
  uses_paths (input_file file) (output_file file) t o.
Proof.
  intros R. pose proof (stage_of_run _ _ _ _ _ _ R) as S.
  pose proof (main_exec _ _ _ (run_exec _ _ _ _ _ _ R)) as M.
  split; [exact (main_run_header file t o M) |].
  split; [exact (main_run_import file t o M) |].
  split; [| split].
  - intros E. destruct o as [[] | code | e]; simpl in E; try discriminate E.
    + destruct (main_run_returned _ _ M)
        as (objects & befores & rows & afters & ratio & size & size_mb
            & _ & _ & ->).
      repeat split; [| | exists size]; apply in_or_app; right;
        cbn [In]; tauto.
    + injection E as ->. destruct (stage_exited _ _ _ S) as [F _].
      discriminate F.
  - intros Hm. destruct (stage_output_missing _ _ _ S Hm) as (_ & ->).
    destruct (main_run_exited _ _ M) as [Em | Mo].
    + exfalso. destruct Em as (objs & _ & ->). destruct Hm as (path & Hin).
      unfold imported, greeting in Hin. explicit_in Hin.
    + destruct Mo as (objects & befores & rows & afters & ratio & _ & ->).
      split; apply in_or_app; right; cbn [In]; tauto.
  - intros c r Hin.
    destruct (run_calls _ _ _ _ _ _ _ _ R Hin)
      as [-> | [-> | [-> | [D | [-> | [-> | ->]]]]]]; try exact I;
      try reflexivity.
    destruct c; try exact I; discriminate D.
Qed.

(** On POSIX, joining the two constants onto a root of proper components
    appends their components. *)
Lemma join_project_root (root : list string) :
  components root ->
  Posix.join (rooted root) INPUT_PATH
  = rooted (root ++ ["public"; "assets"; "models"; "beetle_shell.glb"])
  /\ Posix.join (rooted root) OUTPUT_PATH
     = rooted (root ++ ["public"; "assets"; "models";
                        "beetle_shell_optimized.glb"]).
Proof.
  intros H. destruct path_components as (Ci & Ji & Co & Jo).
  rewrite <- input_path_components, <- output_path_components. split.
  - rewrite <- Ji at 1. apply join_rooted; [exact H | exact Ci |].
    rewrite input_path_components. discriminate.
  - rewrite <- Jo at 1. apply join_rooted; [exact H | exact Co |].
    rewrite output_path_components. discriminate.
Qed.

(** C4.  The paths a run works on are built from the script's own
    location.  Whatever [os.path] is, every run names in its first two
    lines, imports from, exports to and checks the paths obtained by
    joining [INPUT_PATH] and [OUTPUT_PATH] to the parent of the directory
    of the script file's absolute path, and hands no other path to the
    host.  Both constants are relative, so the POSIX join keeps that base
    in front of them.  And with the POSIX [os.path], for the script
    [dir/name] of a project with an absolute root: the paths of a run are
    the root's [public/assets/models/beetle_shell.glb] and
    [public/assets/models/beetle_shell_optimized.glb], whether the script
    is named in full under any working directory, or as [dir/name] with the
    root as working directory. *)
Theorem paths_relative_to_script :
  (forall (os_path : OsPath) (file : string) (h : Host) (s : hstate h),
      let '(t, o, _) := run h (main file) s in
      let base := dirname (dirname (abspath file)) in
      uses_paths (join base INPUT_PATH) (join base OUTPUT_PATH) t o)
  /\ (forall base rel,
         rel = INPUT_PATH \/ rel = OUTPUT_PATH ->
         Posix.startswith_sep rel = false
         /\ (Posix.join base rel = (base ++ rel)%string
             \/ Posix.join base rel = (base ++ "/" ++ rel)%string))
  /\ (forall (root : list string) (dir name : string),
         components root -> component dir = true -> component name = true ->
         let inp :=
           rooted (root ++ ["public"; "assets"; "models"; "beetle_shell.glb"]) in
         let out :=
           rooted (root ++ ["public"; "assets"; "models";
                            "beetle_shell_optimized.glb"]) in
         (forall (cwd : string) (h : Host) (s : hstate h),
             let os_path := posixpath cwd in
             let '(t, o, _) :=
               run h (main (rooted (root ++ [dir; name]))) s in
             uses_paths inp out t o)
         /\ (forall (h : Host) (s : hstate h),
                let os_path := posixpath (rooted root) in
                let '(t, o, _) :=
                  run h (main (Posix.join_sep [dir; name])) s in
                uses_paths inp out t o)).
Proof.
  split; [| split].
  - intros os_path file h s.
    destruct (run h (main file) s) as [[t o] s'] eqn:R.
    exact (run_uses_paths file h s t o s' R).
  - intros base rel Hrel.
    assert (H : Posix.startswith_sep rel = false)
      by (destruct Hrel as [-> | ->]; reflexivity).
    split; [exact H |]. apply posix_join_relative. exact H.
  - intros root dir name H Hd Hn inp out.
    destruct (join_project_root root H) as [Ji Jo].
    assert (Hf : components (root ++ [dir; name])).
    { apply Forall_app. split; [exact H |]. now repeat constructor. }
    assert (Hr : components [dir; name]) by now repeat constructor.
    split.
    + intros cwd h s os_path.
      destruct (run h (main (rooted (root ++ [dir; name]))) s)
        as [[t o] s'] eqn:R.
      apply run_uses_paths in R.
      unfold input_file, output_file, project_root, script_dir in R.
      cbn [dirname abspath join os_path posixpath] in R.
      rewrite abspath_rooted in R by exact Hf.
      rewrite two_levels_up in R by assumption.
      rewrite Ji, Jo in R. exact R.
    + intros h s os_path.
      destruct (run h (main (Posix.join_sep [dir; name])) s)
        as [[t o] s'] eqn:R.
      apply run_uses_paths in R.
      unfold input_file, output_file, project_root, script_dir in R.
      cbn [dirname abspath join os_path posixpath] in R.
      rewrite abspath_relative in R by (assumption || discriminate).
      rewrite two_levels_up in R by assumption.
      rewrite Ji, Jo in R. exact R.
Qed.

(** X11.  Run as its header says, the script finds the project.  Let the
    script be the file [name] in the directory [dir] of a project whose
    root is an absolute path of proper components.  Whether the host passes
    the script's path in full (under any working directory) or as
    [dir/name] relative to the root as working directory, the project root
    the script computes is that root, and the input and output files are
    the root's [public/assets/models/beetle_shell.glb] and
    [public/assets/models/beetle_shell_optimized.glb]. *)
Theorem paths_from_script_location (root : list string) (dir name cwd : string) :
  components root -> component dir = true -> component name = true ->
  (let os_path := posixpath cwd in
   let file := rooted (root ++ [dir; name]) in
   project_root file = rooted root
   /\ input_file file = rooted (root ++ Posix.split_sep INPUT_PATH)
   /\ output_file file = rooted (root ++ Posix.split_sep OUTPUT_PATH))
  /\ (let os_path := posixpath (rooted root) in
      let file := Posix.join_sep [dir; name] in
      project_root file = rooted root
      /\ input_file file = rooted (root ++ Posix.split_sep INPUT_PATH)
      /\ output_file file = rooted (root ++ Posix.split_sep OUTPUT_PATH)).
Proof.
  intros H Hd Hn.
  destruct path_components as (Ci & Ji & Co & Jo).
  assert (Hf : components (root ++ [dir; name])).
  { apply Forall_app. split; [exact H |]. now repeat constructor. }
  assert (Hr : components [dir; name]) by now repeat constructor.
  assert (In_ : Posix.join (rooted root) INPUT_PATH
                = rooted (root ++ Posix.split_sep INPUT_PATH)).
  { rewrite <- Ji at 1. apply join_rooted; [exact H | exact Ci |].
    rewrite input_path_components. discriminate. }
  assert (Out : Posix.join (rooted root) OUTPUT_PATH
                = rooted (root ++ Posix.split_sep OUTPUT_PATH)).
  { rewrite <- Jo at 1. apply join_rooted; [exact H | exact Co |].
    rewrite output_path_components. discriminate. }
  split; intros os_path file.
  - assert (R : project_root file = rooted root).
    { unfold project_root, script_dir, file.
      cbn [dirname abspath os_path posixpath].
      rewrite abspath_rooted by exact Hf. now apply two_levels_up. }
    unfold input_file, output_file. rewrite R.
    cbn [join os_path posixpath]. auto.
  - assert (R : project_root file = rooted root).
    { unfold project_root, script_dir, file.
      cbn [dirname abspath os_path posixpath].
      rewrite abspath_relative by (assumption || discriminate).
      now apply two_levels_up. }
    unfold input_file, output_file. rewrite R.
    cbn [join os_path posixpath]. auto.
Qed.

(** ** What a run writes *)

(** X12.  A run changes no file but the output file, whatever the host puts
    there, and on any platform: every other path holds after the run what
    it held before.  A run that never gets to the export call (an empty
    scene, or a host error before it) changes no file at all, so that an
    output file left by an earlier run stays as it is. *)
Theorem only_output_file_written {os_path : OsPath} (file : string)
        (h : Host) (s : hstate h) :
  let '(t, _, _) := run h (main file) s in
  forall (contents : Type) (fs fs' : file_system contents),
    fs_trace t fs fs' ->
    (forall path, path <> output_file file -> fs' path = fs path)
    /\ ((forall c r, In (EvCall c r) t -> ~ is_export c) ->
        forall path, fs' path = fs path)
    /\ (zero_meshes t -> forall path, fs' path = fs path).
Proof.
  destruct (run h (main file) s) as [[t o] s'] eqn:R.
  intros contents fs fs' H.
  assert (W : forall c r path,
             In (EvCall c r) t -> writes_path c = Some path ->
             is_export c /\ path = output_file file).
  { intros c r path Hin Hw.
    destruct (run_calls _ _ _ _ _ _ _ _ R Hin)
      as [-> | [-> | [-> | [D | [-> | [-> | ->]]]]]]; try discriminate Hw.
    - destruct c; try discriminate D; discriminate Hw.
    - injection Hw as <-. split; [exact I | reflexivity]. }
  assert (N : (forall c r, In (EvCall c r) t -> ~ is_export c) ->
              forall path, fs' path = fs path).
  { intros Hn path. eapply fs_trace_frame; [| exact H].
    apply Forall_forall. intros [m | c r] Hin; simpl; [discriminate |].
    intros Hw. destruct (W _ _ _ Hin Hw) as [E _]. exact (Hn _ _ Hin E). }
  split; [| split; [exact N |]].
  - intros path Hp. eapply fs_trace_frame; [| exact H].
    apply Forall_forall. intros [m | c r] Hin; simpl; [discriminate |].
    intros Hw. destruct (W _ _ _ Hin Hw) as [_ E]. now apply Hp.
  - intros Hz. apply N. intros c r Hin Hc.
    apply stage_of_run in R.
    destruct (stage_zero_meshes _ _ _ R Hz) as (objects & _ & -> & _).
    unfold imported, greeting in Hin. simpl in Hin.
    repeat (destruct Hin as [Hin | Hin];
            [try discriminate Hin; injection Hin as <- _; exact Hc |]).
    exact Hin.
Qed.

(** ** The log of a successful run *)

Definition printed (t : list event) : list message :=
  flat_map (fun ev => match ev with
                      | EvPrint m => [m]
                      | EvCall _ _ => []
                      end) t.

(** The two lines of one iteration of the loop. *)
Definition progress_lines (d : decimation) : list message :=
  [MsgProcessing (obj_name (dec_obj d)) (dec_before d); MsgAfter (dec_after d)].

Lemma printed_app t1 t2 : printed (t1 ++ t2) = printed t1 ++ printed t2.
Proof. apply flat_map_app. Qed.

Lemma printed_counted l counts : printed (counted l counts) = [].
Proof.
  unfold counted. induction (combine l counts) as [| x xs IH];
    [reflexivity | exact IH].
Qed.

Lemma printed_selected l : printed (selected l) = [].
Proof. induction l as [| x xs IH]; [reflexivity | exact IH]. Qed.

Lemma printed_decimations rows :
  printed (concat (map decimate_events rows)) = flat_map progress_lines rows.
Proof.
  induction rows as [| d rows IH]; [reflexivity |].
  cbn [map concat]. rewrite printed_app, IH. reflexivity.
Qed.

Lemma length_progress_lines rows :
  length (flat_map progress_lines rows) = 2 * length rows.
Proof.
  induction rows as [| d rows IH]; [reflexivity |].
  cbn [flat_map progress_lines app Datatypes.length]. rewrite IH. lia.
Qed.

(** [0.02 * 100] is exactly [2.0]. *)
Lemma target_ratio_percent :
  PyFloat.mul TARGET_RATIO (PyFloat.of_int 100) = PyFloat.of_int 2.
Proof. vm_compute. reflexivity. Qed.

(** X13.  What a run that returns normally has printed: the three header
    lines (the target ratio being exactly [2.0] per cent), [Importing],
    the [Found] line with the number of mesh objects, then for each mesh
    object in scene order its [Processing] and [After] lines, then the
    [Total], [Exporting], [DONE!] and file size lines; nothing else, so
    [2 * n + 9] lines for [n] mesh objects. *)
Theorem log_of_successful_run {os_path : OsPath} (file : string)
        (h : Host) (s : hstate h) :
  let '(t, o, _) := run h (main file) s in
  o = Returned tt ->
  exists objects rows tb ta reduction size_mb,
    In (ok scene_objects (VObjects objects)) t
    /\ map dec_obj rows = filter is_mesh objects
    /\ printed t
       = [ MsgInput (input_file file); MsgOutput (output_file file);
           MsgTargetRatio (PyFloat.of_int 2); MsgImporting;
           MsgFound (length rows) tb ]
         ++ flat_map progress_lines rows
         ++ [ MsgTotal tb ta reduction; MsgExporting (output_file file);
              MsgDone; MsgFileSize size_mb ]
    /\ length (printed t) = 2 * length rows + 9.
Proof.
  destruct (run h (main file) s) as [[t o] s'] eqn:R.
  apply run_exec, main_exec in R. intros Ho.
  destruct R as [ | | | | | | | | 
                | objects befores rows afters ratio t o Hne Hb Hr Ha Hd Fin];
    try discriminate Ho.
  destruct Fin as [ | | | | | size size_mb Hs]; try discriminate Ho.
  exists objects, rows, (total befores), (total afters), (reduction_of ratio),
    size_mb.
  split.
  { apply in_or_app. left. unfold imported. apply in_or_app. right.
    simpl. tauto. }
  split; [exact Hr |].
  assert (E : Datatypes.length (filter is_mesh objects) = Datatypes.length rows)
    by (rewrite <- Hr; apply length_map).
  assert (P : printed
                (imported file objects ++
                 decimated (filter is_mesh objects) befores rows afters ++
                 [EvPrint (MsgTotal (total befores) (total afters)
                                    (reduction_of ratio))] ++
                 selected (filter is_mesh objects) ++
                 [EvPrint (MsgExporting (output_file file))] ++
                 [ok (export_call file) VNone; EvPrint MsgDone;
                  ok (path_exists (output_file file)) (VBool true);
                  ok (path_getsize (output_file file)) (VInt size);
                  EvPrint (MsgFileSize size_mb)])
              = [ MsgInput (input_file file); MsgOutput (output_file file);
                  MsgTargetRatio (PyFloat.of_int 2); MsgImporting;
                  MsgFound (Datatypes.length rows) (total befores) ]
                ++ flat_map progress_lines rows
                ++ [ MsgTotal (total befores) (total afters)
                              (reduction_of ratio);
                     MsgExporting (output_file file);
                     MsgDone; MsgFileSize size_mb ]).
  { unfold decimated, imported, greeting.
    rewrite !printed_app, !printed_counted, printed_selected,
      printed_decimations, E, target_ratio_percent.
    cbn [printed flat_map app ok]. rewrite app_nil_r. reflexivity. }
  split; [exact P |].
  rewrite P, !length_app, length_progress_lines.
  cbn [Datatypes.length]. lia.
Qed.

(** * A small host to run the script against *)

Module Mock.

(** What a test fixes: the scene stored in the input file, whether the
    export produces a file and of what size, and which calls raise. *)
Record fixture : Type := {
  in_scene : list (Object * N);
  export_writes : bool;
  out_size : N;
  fails : call -> option host_error
}.

Record world : Type := {
  scene : list (Object * N);
  active : option Object;
  files : list string
}.

Definition empty_world : world :=
  {| scene := []; active := None; files := [] |}.

Fixpoint lookup (obj : Object) (sc : list (Object * N)) : option N :=
  match sc with
  | [] => None
  | (o, n) :: sc' => if Object_eqb o obj then Some n else lookup obj sc'
  end.

(** Decimation keeps one vertex in fifty. *)
Definition decimate_in (a : Object) (sc : list (Object * N))
  : list (Object * N) :=
  map (fun on => if Object_eqb (fst on) a then (fst on, (snd on / 50)%N)
                 else on) sc.

Definition serve (fx : fixture) (c : call) (w : world)
  : (host_error + reply c) * world :=
  match c as c0 return (host_error + reply c0) * world with
  | read_factory_settings _ =>
      (inr tt, {| scene := []; active := None; files := files w |})
  | import_scene_gltf _ =>
      (inr tt, {| scene := in_scene fx; active := active w;
                  files := files w |})
  | scene_objects => (inr (map fst (scene w)), w)
  | len_vertices obj =>
      match lookup obj (scene w) with
      | Some n => (inr n, w)
      | None => (inl "ReferenceError", w)
      end
  | set_active obj =>
      (inr tt, {| scene := scene w; active := Some obj; files := files w |})
  | select_set _ _ => (inr tt, w)
  | modifiers_new _ _ _ => (inr (modifier_ref 0), w)
  | set_decimate_type _ _ => (inr tt, w)
  | set_ratio _ _ => (inr tt, w)
  | set_use_collapse_triangulate _ _ => (inr tt, w)
  | modifier_apply _ =>
      match active w with
      | Some a =>
          (inr tt, {| scene := decimate_in a (scene w); active := active w;
                      files := files w |})
      | None => (inl "RuntimeError", w)
      end
  | export_scene_gltf filepath _ _ _ =>
      (inr tt,
       if export_writes fx
       then {| scene := scene w; active := active w;
               files := filepath :: files w |}
       else w)
  | path_exists path => (inr (existsb (String.eqb path) (files w)), w)
  | path_getsize path =>
      if existsb (String.eqb path) (files w) then (inr (out_size fx), w)
      else (inl "FileNotFoundError", w)
  end.

Definition host (fx : fixture) : Host :=
  {| hstate := world;
     respond := fun c w =>
       match fails fx c with
       | Some e => (inl e, w)
       | None => serve fx c w
       end |}.

Lemma lookup_decimate_in a obj sc n' :
  lookup obj (decimate_in a sc) = Some n' ->
  exists n, lookup obj sc = Some n /\ (n' <= n)%N.
Proof.
  induction sc as [| [o n] sc IH]; simpl; [discriminate |].
  destruct (Object_eqb o a) eqn:Ea; simpl.
  - destruct (Object_eqb o obj); [| exact IH].
    intros H. injection H as <-. exists n. split; [reflexivity |].
    apply N.Div0.div_le_upper_bound. lia.
  - destruct (Object_eqb o obj); [| exact IH].
    intros H. injection H as <-. exists n. split; [reflexivity | lia].
Qed.

(** What the host answers to a call, and the world it leaves. *)
Lemma respond_world fx c w r w' :
  respond (host fx) c w = (r, w') ->
  fails fx c = None /\ serve fx c w = (r, w')
  \/ exists e, fails fx c = Some e /\ w' = w.
Proof.
  simpl. destruct (fails fx c) as [e |].
  - intros H. right. exists e. split; [reflexivity |].
    now injection H as _ <-.
  - intros H. left. split; [reflexivity | exact H].
Qed.

(** A call that is neither the reset, the import nor an applied modifier
    leaves the scene as it is. *)
Lemma scene_kept fx c w r w' :
  respond (host fx) c w = (r, w') ->
  match c with
  | read_factory_settings _ | import_scene_gltf _ | modifier_apply _ => True
  | _ => scene w' = scene w
  end.
Proof.
  intros H. destruct (respond_world _ _ _ _ _ H) as [[_ S] | (e & _ & ->)];
    [| destruct c; auto].
  destruct c; simpl in S; auto;
    try (injection S as _ <-; reflexivity).
  - destruct (lookup obj (scene w)); injection S as _ <-; reflexivity.
  - destruct (export_writes fx); injection S as _ <-; reflexivity.
  - destruct (existsb _ _); injection S as _ <-; reflexivity.
Qed.

(** A vertex count the host replies is the one stored in the scene. *)
Lemma read_lookup fx w obj n w' :
  respond (host fx) (len_vertices obj) w = (inr n, w') ->
  lookup obj (scene w) = Some n.
Proof.
  intros H. destruct (respond_world _ _ _ _ _ H) as [[_ S] | (e & F & _)].
  - simpl in S. destruct (lookup obj (scene w)); [| discriminate S].
    now injection S as ->.
  - simpl in H. rewrite F in H. discriminate H.
Qed.

(** Applying a modifier does not add vertices. *)
Lemma apply_backwards fx name w r w' obj n' :
  respond (host fx) (modifier_apply name) w = (r, w') ->
  lookup obj (scene w') = Some n' ->
  exists n, lookup obj (scene w) = Some n /\ (n' <= n)%N.
Proof.
  intros H L. destruct (respond_world _ _ _ _ _ H) as [[_ S] | (e & _ & ->)].
  - simpl in S. destruct (active w) as [a |]; injection S as _ <-.
    + simpl in L. now apply lookup_decimate_in in L.
    + exists n'. split; [exact L | lia].
  - exists n'. split; [exact L | lia].
Qed.

Lemma never_adds (fx : fixture) : never_adds_vertices (host fx).
Proof.
  intros obj m n n' s s1 s2 s3 s4 s5 s6 s7 s8 s9
         E1 E2 E3 E4 E5 E6 E7 E8 E9.
  apply read_lookup in E9.
  destruct (apply_backwards _ _ _ _ _ _ _ E8 E9) as (n0 & L & Hle).
  apply scene_kept in E2, E3, E4, E5, E6, E7.
  pose proof (scene_kept _ _ _ _ _ E1) as K1. cbn beta iota in *.
  apply read_lookup in E1.
  rewrite E7, E6, E5, E4, E3, E2, K1, E1 in L. injection L as <-.
  exact Hle.
Qed.

Definition no_failures : call -> option host_error := fun _ => None.

Definition mesh (name : string) : Object :=
  {| obj_name := name; obj_type := "MESH" |}.

(** The beetle shell: one mesh of 474 000 vertices, next to a camera. *)
Definition beetle : fixture :=
  {| in_scene := [(mesh "BeetleShell", 474000%N);
                  ({| obj_name := "Camera"; obj_type := "CAMERA" |}, 0%N)];
     export_writes := true;
     out_size := 3145728;
     fails := no_failures |}.

(** A file without any mesh. *)
Definition no_meshes : fixture :=
  {| in_scene := [({| obj_name := "Camera"; obj_type := "CAMERA" |}, 0%N)];
     export_writes := true;
     out_size := 0;
     fails := no_failures |}.

(** A mesh object without vertices. *)
Definition hollow : fixture :=
  {| in_scene := [(mesh "Hollow", 0%N)];
     export_writes := true;
     out_size := 1024;
     fails := no_failures |}.

(** The export succeeds but leaves no file. *)
Definition lost_output : fixture :=
  {| in_scene := in_scene beetle;
     export_writes := false;
     out_size := 0;
     fails := no_failures |}.

(** Applying the modifier raises. *)
Definition apply_raises : fixture :=
  {| in_scene := in_scene beetle;
     export_writes := true;
     out_size := 0;
     fails := fun c => match c with
                       | modifier_apply _ => Some "RuntimeError"
                       | _ => None
                       end |}.

Definition script : string := "/home/user/sphere/scripts/decimate_beetle.py".

Definition os : OsPath := posixpath "/home/user/sphere".

Definition run_script (fx : fixture) : list event * outcome unit * world :=
  run (host fx) (main (os_path := os) script) empty_world.

End Mock.

(** * The script at work

    Each property above, at a concrete run against the mock host. *)

Ltac run_mock H :=
  unfold Mock.run_script, Mock.os in H |- *;
  match goal with
  | |- context [run ?h ?p ?s] =>
      let t := fresh "t" in
      let o := fresh "o" in
      let w := fresh "w" in
      let R := fresh "R" in
      destruct (run h p s) as [[t o] w] eqn:R;
      cbv beta iota zeta in H;
      vm_compute in R; injection R as <- <- <-
  end.

Ltac in_list := simpl; repeat first [left; reflexivity | right].

(** The three runs that end with a status: an empty scene, an export that
    leaves no file, and the beetle. *)
Lemma exit_codes_witness :
  (let '(t, o, _) := Mock.run_script Mock.no_meshes in
   exit_code o = Some 1%Z /\ last_event t (EvPrint MsgNoMesh))
  /\ (let '(t, o, _) := Mock.run_script Mock.lost_output in
      exit_code o = Some 1%Z /\ last_event t (EvPrint MsgNotCreated))
  /\ (let '(t, o, _) := Mock.run_script Mock.beetle in
      exit_code o = Some 0%Z
      /\ successful_run (os_path := Mock.os) Mock.script t).
Proof.
  split; [| split].
  - pose proof (exit_codes (os_path := Mock.os) Mock.script
                           (Mock.host Mock.no_meshes) Mock.empty_world) as H.
    run_mock H. destruct H as (_ & H1 & H2 & _ & H3 & _).
    match type of H2 with
    | ?Z <-> _ =>
        assert (Hz : Z) by (eexists; split; [in_list | reflexivity])
    end.
    apply H2 in Hz. split; [apply H1; left; exact Hz | apply H3; exact Hz].
  - pose proof (exit_codes (os_path := Mock.os) Mock.script
                           (Mock.host Mock.lost_output) Mock.empty_world) as H.
    run_mock H. destruct H as (_ & H1 & _ & H2 & _ & H3 & _).
    match type of H2 with
    | ?M <-> _ => assert (Hm : M) by (eexists; in_list)
    end.
    apply H2 in Hm. split; [apply H1; right; exact Hm | apply H3; exact Hm].
  - pose proof (exit_codes (os_path := Mock.os) Mock.script
                           (Mock.host Mock.beetle) Mock.empty_world) as H.
    run_mock H. destruct H as (H0 & _).
    split; [reflexivity | apply H0; reflexivity].
Defined.

(** An empty scene: no export call in the run. *)
Lemma empty_scene_never_exports_witness :
  let '(t, o, _) := Mock.run_script Mock.no_meshes in
  o = Exited 1 /\ forall c r, In (EvCall c r) t -> ~ is_export c.
Proof.
  pose proof (empty_scene_never_exports (os_path := Mock.os) Mock.script
                (Mock.host Mock.no_meshes) Mock.empty_world) as H.
  run_mock H.
  match type of H with
  | ?Z -> _ =>
      assert (Hz : Z) by (eexists; split; [in_list | reflexivity])
  end.
  destruct (H Hz) as (H1 & _ & H2 & _). split; assumption.
Defined.

(** The modifier raises: the error is what [main] ends with. *)
Lemma host_errors_propagate_witness :
  let '(t, o, _) := Mock.run_script Mock.apply_raises in
  o = Uncaught (HostError "RuntimeError")
  /\ last_event t (failed (modifier_apply "Decimate") "RuntimeError").
Proof.
  pose proof (proj2 (host_errors_propagate (os_path := Mock.os) Mock.script
                       (Mock.host Mock.apply_raises) Mock.empty_world)) as H.
  run_mock H. destruct H as [H _].
  destruct (H (modifier_apply "Decimate") "RuntimeError")
    as (H1 & _ & pre & H2 & _); [in_list |].
  split; [exact H1 | exists pre; exact H2].
Defined.

(** The same call inside a [try] would not end the run: propagation is a
    property of the script, not of every program. *)
Lemma guarded_call_recovers :
  let p : Py unit :=
    Try (modifier_apply "Decimate") (fun _ => Ret tt) (fun _ => Ret tt) in
  ~ unguarded p
  /\ run (Mock.host Mock.apply_raises) p Mock.empty_world
     = ([failed (modifier_apply "Decimate") "RuntimeError"], Returned tt,
        Mock.empty_world).
Proof.
  split; [intros H; exact H | vm_compute; reflexivity].
Qed.

(** The beetle, in the project [/home/user/sphere]: the run imports the
    project's [beetle_shell.glb] and exports, and finds, its
    [beetle_shell_optimized.glb]. *)
Lemma paths_relative_to_script_witness :
  let '(t, o, _) := Mock.run_script Mock.beetle in
  exit_code o = Some 0%Z
  /\ (exists r,
         In (EvCall (import_scene_gltf
                       "/home/user/sphere/public/assets/models/beetle_shell.glb")
                    r) t)
  /\ In (ok (export_scene_gltf
               "/home/user/sphere/public/assets/models/beetle_shell_optimized.glb"
               "GLB" true true) VNone) t
  /\ In (ok (path_exists
               "/home/user/sphere/public/assets/models/beetle_shell_optimized.glb")
            (VBool true)) t.
Proof.
  destruct paths_relative_to_script as (_ & _ & H).
  destruct (H ["home"; "user"; "sphere"] "scripts" "decimate_beetle.py")
    as [A _].
  - repeat (constructor; [vm_compute; reflexivity |]). constructor.
  - vm_compute. reflexivity.
  - vm_compute. reflexivity.
  - specialize (A "/home/user/sphere" (Mock.host Mock.beetle)
                  Mock.empty_world).
    replace (rooted (["home"; "user"; "sphere"]
                     ++ ["scripts"; "decimate_beetle.py"]))
      with Mock.script in A by (vm_compute; reflexivity).
    replace (rooted (["home"; "user"; "sphere"]
                     ++ ["public"; "assets"; "models"; "beetle_shell.glb"]))
      with "/home/user/sphere/public/assets/models/beetle_shell.glb"
      in A by (vm_compute; reflexivity).
    replace (rooted (["home"; "user"; "sphere"]
                     ++ ["public"; "assets"; "models";
                         "beetle_shell_optimized.glb"]))
      with "/home/user/sphere/public/assets/models/beetle_shell_optimized.glb"
      in A by (vm_compute; reflexivity).
    run_mock A. destruct A as (_ & [(e & Hin) | Himp] & A & _).
    { exfalso. explicit_in Hin. }
    destruct (A eq_refl) as (E1 & E2 & _).
    split; [reflexivity |]. split; [exact Himp |]. split; assumption.
Defined.

(** The beetle: with any file system, the input file stays as it was. *)
Lemma input_file_untouched_witness :
  let '(t, _, _) := Mock.run_script Mock.beetle in
  forall fs fs' : file_system (list Byte.byte),
    fs_trace t fs fs' ->
    fs' "/home/user/sphere/public/assets/models/beetle_shell.glb"
    = fs "/home/user/sphere/public/assets/models/beetle_shell.glb".
Proof.
  pose proof (input_file_untouched "/home/user/sphere" Mock.script
                (Mock.host Mock.beetle) Mock.empty_world) as H.
  cbv zeta in H. unfold Mock.run_script, Mock.os.
  destruct (run (Mock.host Mock.beetle) (main Mock.script) Mock.empty_world)
    as [[t o] w].
  destruct H as (_ & _ & _ & H). intros fs fs' Hfs.
  exact (H _ fs fs' Hfs).
Defined.

(** The first export call of a trace, with what precedes and follows it. *)
Fixpoint until_export (t : list event)
  : option (list event * call * (host_error + value) * list event) :=
  match t with
  | [] => None
  | EvCall (export_scene_gltf f fmt sel app) r :: post =>
      Some ([], export_scene_gltf f fmt sel app, r, post)
  | ev :: t' =>
      match until_export t' with
      | Some (pre, c, r, post) => Some (ev :: pre, c, r, post)
      | None => None
      end
  end.

Lemma until_export_split t :
  forall pre c r post,
    until_export t = Some (pre, c, r, post) ->
    t = pre ++ EvCall c r :: post /\ is_export c.
Proof.
  induction t as [| ev t IH]; intros pre c r post H; simpl in H;
    [discriminate |].
  assert (K : match until_export t with
              | Some (pre', c', r', post') =>
                  Some (ev :: pre', c', r', post')
              | None => None
              end = Some (pre, c, r, post) ->
              ev :: t = pre ++ EvCall c r :: post /\ is_export c).
  { destruct (until_export t) as [[[[pre' c'] r'] post'] |]; [| discriminate].
    intros K. injection K as <- <- <- <-.
    destruct (IH _ _ _ _ eq_refl) as [-> Hc]. auto. }
  destruct ev as [m | c0 r0]; [exact (K H) |].
  destruct c0; try exact (K H).
  injection H as <- <- <- <-. simpl. auto.
Qed.

(** The beetle: before the export, its one mesh was made active and given
    one modifier, configured and applied. *)
Lemma every_mesh_decimated_before_export_witness :
  let '(t, _, _) := Mock.run_script Mock.beetle in
  exists pre c r post,
    until_export t = Some (pre, c, r, post)
    /\ filter modifier_related pre
       = modifier_events (Mock.mesh "BeetleShell") (modifier_ref 0).
Proof.
  pose proof (every_mesh_decimated_before_export (os_path := Mock.os)
                Mock.script (Mock.host Mock.beetle) Mock.empty_world) as H.
  run_mock H.
  match goal with
  | |- exists pre c r post, until_export ?t = _ /\ _ =>
      destruct (until_export t) as [[[[pre c] r] post] |] eqn:U;
      [| discriminate U]
  end.
  exists pre, c, r, post. split; [reflexivity |].
  destruct (until_export_split _ _ _ _ _ U) as [E Hc].
  destruct (H pre c r post E Hc) as (objects & rows & _ & _ & _ & _).
  vm_compute in U. injection U as <- _ _ _. reflexivity.
Defined.

(** The beetle: the export call is the one the script spells out, and the
    mesh is selected when it is issued. *)
Lemma export_writes_selected_meshes_witness :
  let '(t, _, _) := Mock.run_script Mock.beetle in
  exists pre c r post,
    until_export t = Some (pre, c, r, post)
    /\ c = export_scene_gltf
             "/home/user/sphere/public/assets/models/beetle_shell_optimized.glb"
             "GLB" true true
    /\ selection pre (Mock.mesh "BeetleShell") = Some true.
Proof.
  pose proof (export_writes_selected_meshes (os_path := Mock.os)
                Mock.script (Mock.host Mock.beetle) Mock.empty_world) as H.
  run_mock H.
  match goal with
  | |- exists pre c r post, until_export ?t = _ /\ _ =>
      destruct (until_export t) as [[[[pre c] r] post] |] eqn:U;
      [| discriminate U]
  end.
  exists pre, c, r, post. split; [reflexivity |].
  destruct (until_export_split _ _ _ _ _ U) as [E Hc].
  destruct (H pre c r post E Hc) as (Ec & _).
  split; [rewrite Ec; reflexivity |].
  vm_compute in U. injection U as <- _ _ _. reflexivity.
Defined.

(** A mesh without vertices: the run ends in [ZeroDivisionError]. *)
Lemma division_unguarded_witness :
  let '(t, o, _) := Mock.run_script Mock.hollow in
  In (EvPrint (MsgFound 1 0)) t /\ o = Uncaught ZeroDivisionError.
Proof.
  pose proof (division_unguarded (os_path := Mock.os) Mock.script
                (Mock.host Mock.hollow) Mock.empty_world) as H.
  run_mock H.
  match goal with
  | |- ?F /\ _ => assert (Hin : F) by in_list
  end.
  split; [exact Hin |].
  destruct (H _ _ Hin) as (_ & Hz & _).
  destruct (Hz eq_refl) as (_ & Hz' & _). apply Hz'.
  repeat (constructor; [simpl; tauto |]). constructor.
Defined.

(** The beetle: 474 000 vertices before, 9 480 after. *)
Lemma logged_after_le_before_witness :
  let '(t, _, _) := Mock.run_script Mock.beetle in
  logged_counts None t = [(Some ("BeetleShell", 474000%N), 9480%N)]
  /\ Forall after_le_before (logged_counts None t).
Proof.
  pose proof (logged_after_le_before (os_path := Mock.os) Mock.script
                (Mock.host Mock.beetle) Mock.empty_world
                (Mock.never_adds Mock.beetle)) as H.
  run_mock H. split; [reflexivity | exact H].
Defined.

(** The beetle: from 474 000 vertices to 9 480, a reduction within
    rounding of 98 per cent. *)
Lemma reduction_reported_witness :
  let '(t, _, _) := Mock.run_script Mock.beetle in
  exists reduction v,
    In (EvPrint (MsgTotal 474000 9480 reduction)) t
    /\ SF2Q reduction = Some v
    /\ (Qabs (v - (1 - exact_ratio 9480 474000) * 100)
        <= (1 + exact_ratio 9480 474000) * pow2 (-44))%Q.
Proof.
  pose proof (reduction_reported (os_path := Mock.os) Mock.script
                (Mock.host Mock.beetle) Mock.empty_world) as H.
  run_mock H.
  eexists. 
  match goal with
  | |- exists v, ?F /\ _ => assert (Hin : F) by in_list
  end.
  destruct (H _ _ _ Hin)
    as (objects & befores & rows & afters & rest & _ & _ & _ & _ & _ & _ & _
        & _ & Hacc).
  destruct (Hacc eq_refl) as (v & Hv & Hb).
  exists v. split; [exact Hin |]. split; [exact Hv | exact Hb].
Defined.

(** ** The further properties at work *)

(** The first call of a trace that [P] picks, with what precedes and
    follows it. *)
Fixpoint first_call (P : call -> bool) (t : list event)
  : option (list event * call * (host_error + value) * list event) :=
  match t with
  | [] => None
  | EvCall c r :: post =>
      if P c then Some ([], c, r, post)
      else match first_call P post with
           | Some (pre, c', r', post') => Some (EvCall c r :: pre, c', r', post')
           | None => None
           end
  | ev :: post =>
      match first_call P post with
      | Some (pre, c', r', post') => Some (ev :: pre, c', r', post')
      | None => None
      end
  end.

Lemma first_call_split (P : call -> bool) t :
  forall pre c r post,
    first_call P t = Some (pre, c, r, post) ->
    t = pre ++ EvCall c r :: post /\ P c = true.
Proof.
  induction t as [| ev t IH]; intros pre c r post H; simpl in H;
    [discriminate |].
  assert (K : match first_call P t with
              | Some (pre', c', r', post') =>
                  Some (ev :: pre', c', r', post')
              | None => None
              end = Some (pre, c, r, post) ->
              ev :: t = pre ++ EvCall c r :: post /\ P c = true).
  { destruct (first_call P t) as [[[[pre' c'] r'] post'] |]; [| discriminate].
    intros K. injection K as <- <- <- <-.
    destruct (IH _ _ _ _ eq_refl) as [-> Hc]. auto. }
  destruct ev as [m | c0 r0]; [exact (K H) |].
  destruct (P c0) eqn:E; [| exact (K H)].
  injection H as <- <- <- <-. auto.
Qed.

Definition is_set_active (c : call) : bool :=
  match c with set_active _ => true | _ => false end.

Definition is_modifier_apply (c : call) : bool :=
  match c with modifier_apply _ => true | _ => false end.

(** A mesh so small that decimation leaves nothing of it. *)
Definition speck : Mock.fixture :=
  {| Mock.in_scene := [(Mock.mesh "Speck", 30%N)];
     Mock.export_writes := true;
     Mock.out_size := 512;
     Mock.fails := Mock.no_failures |}.

(** The beetle: header, reset, then the import. *)
Lemma scene_reset_before_import_witness :
  let '(t, _, _) := Mock.run_script Mock.beetle in
  exists r rest,
    t = greeting (os_path := Mock.os) Mock.script
        ++ ok (read_factory_settings true) VNone
        :: EvPrint MsgImporting
        :: EvCall (import_scene_gltf (input_file (os_path := Mock.os) Mock.script)) r
        :: rest
    /\ Forall (fun ev => ~ resets_or_imports ev) rest.
Proof.
  pose proof (scene_reset_before_import (os_path := Mock.os) Mock.script
                (Mock.host Mock.beetle) Mock.empty_world) as H.
  run_mock H.
  destruct H as [(e & H) | H]; [vm_compute in H; discriminate H | exact H].
Defined.

(** The beetle: the object made active is the mesh of the scene just read,
    not the camera. *)
Lemma only_mesh_objects_touched_witness :
  let '(t, _, _) := Mock.run_script Mock.beetle in
  exists pre c r post,
    first_call is_set_active t = Some (pre, c, r, post)
    /\ c = set_active (Mock.mesh "BeetleShell")
    /\ exists objects,
        In (ok scene_objects (VObjects objects)) pre
        /\ In (Mock.mesh "BeetleShell") objects.
Proof.
  pose proof (only_mesh_objects_touched (os_path := Mock.os) Mock.script
                (Mock.host Mock.beetle) Mock.empty_world) as H.
  run_mock H.
  match goal with
  | |- exists pre c r post, first_call ?P ?t = _ /\ _ =>
      destruct (first_call P t) as [[[[pre c] r] post] |] eqn:U;
      [| discriminate U]
  end.
  exists pre, c, r, post. split; [reflexivity |].
  destruct (first_call_split _ _ _ _ _ _ U) as [E _].
  vm_compute in U. injection U as <- <- _ _.
  split; [reflexivity |].
  exact (proj2 (H _ _ _ _ (Mock.mesh "BeetleShell") E eq_refl)).
Defined.

(** The beetle: when its modifier is applied, the mesh is the active object
    and the one selected. *)
Lemma modifier_applied_in_context_witness :
  let '(t, _, _) := Mock.run_script Mock.beetle in
  exists pre c r post,
    first_call is_modifier_apply t = Some (pre, c, r, post)
    /\ c = modifier_apply "Decimate"
    /\ exists obj m,
        active_object pre = Some obj
        /\ last_added pre = Some (obj, "Decimate", m)
        /\ selection pre obj = Some true
        /\ forall o, selection pre o = Some true -> o = obj.
Proof.
  pose proof (modifier_applied_in_context (os_path := Mock.os) Mock.script
                (Mock.host Mock.beetle) Mock.empty_world) as H.
  run_mock H.
  match goal with
  | |- exists pre c r post, first_call ?P ?t = _ /\ _ =>
      destruct (first_call P t) as [[[[pre c] r] post] |] eqn:U;
      [| discriminate U]
  end.
  exists pre, c, r, post. split; [reflexivity |].
  destruct (first_call_split _ _ _ _ _ _ U) as [E _].
  assert (Ec : c = modifier_apply "Decimate")
    by (vm_compute in U; now injection U as _ <- _ _).
  split; [exact Ec |]. subst c. exact (H _ _ _ _ E).
Defined.

(** The export leaves no file: [DONE!] was printed all the same. *)
Lemma done_reports_export_call_witness :
  let '(t, o, _) := Mock.run_script Mock.lost_output in
  In (EvPrint MsgDone) t /\ o = Exited 1.
Proof.
  pose proof (done_reports_export_call (os_path := Mock.os) Mock.script
                (Mock.host Mock.lost_output) Mock.empty_world) as H.
  run_mock H. destruct H as (_ & _ & H). apply H.
  eexists. in_list.
Defined.


(** A speck of 30 vertices decimated to none: a reduction of exactly
    [100.0]. *)
Lemma reduction_edge_values_witness :
  let '(t, _, _) := Mock.run_script speck in
  exists reduction,
    In (EvPrint (MsgTotal 30 0 reduction)) t
    /\ reduction = PyFloat.of_int 100.
Proof.
  pose proof (reduction_edge_values (os_path := Mock.os) Mock.script
                (Mock.host speck) Mock.empty_world) as H.
  run_mock H. eexists.
  match goal with
  | |- ?F /\ _ => assert (Hin : F) by in_list
  end.
  split; [exact Hin |]. exact (proj1 (H _ _ _ Hin) eq_refl).
Defined.


Ltac replies_in_range Hin :=
  vm_compute in Hin;
  repeat (destruct Hin as [Hin | Hin];
          [first [ discriminate Hin
                 | injection Hin; intros; subst; vm_compute; reflexivity ] |]);
  contradiction.

(** The beetle: every number the host replied is far inside these
    ranges, and the run does not end in an overflow. *)
Lemma divisions_do_not_overflow_witness :
  let '(t, o, _) := Mock.run_script Mock.beetle in
  (forall obj n, In (ok (len_vertices obj) (VInt n)) t -> (n < 2 ^ 63)%N)
  /\ o <> Uncaught OverflowError.
Proof.
  pose proof (divisions_do_not_overflow (os_path := Mock.os) Mock.script
                (Mock.host Mock.beetle) Mock.empty_world) as H.
  run_mock H.
  match goal with
  | |- ?P /\ _ => assert (L : P) by (intros obj n Hin; replies_in_range Hin)
  end.
  split; [exact L |]. apply H.
  - intros objects Hin. replies_in_range Hin.
  - exact L.
  - intros path size Hin. replies_in_range Hin.
Defined.

(** Started in the project root: absolute paths. *)
Lemma resolved_paths_absolute_witness :
  let os_path := posixpath "/home/user/sphere" in
  Posix.startswith_sep (input_file "scripts/decimate_beetle.py") = true
  /\ Posix.startswith_sep (output_file "scripts/decimate_beetle.py") = true.
Proof.
  exact (proj2 (resolved_paths_absolute "/home/user/sphere"
                  "scripts/decimate_beetle.py" eq_refl)).
Defined.

(** The project in [/home/user/sphere], the script run as its header says. *)
Lemma paths_from_script_location_witness :
  input_file (os_path := posixpath "/tmp")
             "/home/user/sphere/scripts/decimate_beetle.py"
  = "/home/user/sphere/public/assets/models/beetle_shell.glb"
  /\ output_file (os_path := posixpath "/home/user/sphere")
                 "scripts/decimate_beetle.py"
     = "/home/user/sphere/public/assets/models/beetle_shell_optimized.glb".
Proof.
  destruct (paths_from_script_location
              ["home"; "user"; "sphere"] "scripts" "decimate_beetle.py" "/tmp")
    as [(_ & A & _) (_ & _ & B)].
  - repeat (constructor; [vm_compute; reflexivity |]). constructor.
  - vm_compute. reflexivity.
  - vm_compute. reflexivity.
  - vm_compute in A, B. vm_compute. split; [exact A | exact B].
Defined.

(** An empty scene: no file is changed. *)
Lemma only_output_file_written_witness :
  let '(t, _, _) := Mock.run_script Mock.no_meshes in
  forall fs fs' : file_system (list Byte.byte),
    fs_trace t fs fs' -> forall path, fs' path = fs path.
Proof.
  pose proof (only_output_file_written (os_path := Mock.os) Mock.script
                (Mock.host Mock.no_meshes) Mock.empty_world) as H.
  run_mock H. intros fs fs' Hfs.
  destruct (H _ fs fs' Hfs) as (_ & _ & Hz). apply Hz.
  eexists. split; [in_list | reflexivity].
Defined.

(** The beetle, one mesh: eleven lines. *)
Lemma log_of_successful_run_witness :
  let '(t, o, _) := Mock.run_script Mock.beetle in
  exists rows : list decimation,
    length rows = 1
    /\ length (printed t) = 2 * length rows + 9
    /\ In (MsgProcessing "BeetleShell" 474000) (printed t).
Proof.
  pose proof (log_of_successful_run (os_path := Mock.os) Mock.script
                (Mock.host Mock.beetle) Mock.empty_world) as H.
  run_mock H.
  destruct (H eq_refl) as (objects & rows & tb & ta & red & mb & _ & _ & _ & L).
  exists rows. split; [| split; [exact L | in_list]].
  match type of L with
  | ?n = _ => assert (E : n = 11) by (vm_compute; reflexivity)
  end.
  rewrite E in L. lia.
Defined.
